(** * The terragrunt stack-command wrapper of terratest, verified

    A shallow embedding of [modules/terragrunt/cmd.go] and
    [modules/terragrunt/stack_output.go]: command construction, the
    capability probe, the retried execution with warning
    classification, and the cleaning of captured output.

    Go strings are byte strings: they are [string] here, one [ascii] per
    byte.  The parts of Go's standard library the wrapper calls
    ([unicode/utf8], [strings], [regexp]) are modelled first, then the
    external collaborators (shell, retry, options), then the wrapper. *)

From Stdlib Require Import Ascii String NArith ZArith Lia List Bool.
From stdpp Require Import gmap strings list.

Set Default Proof Using "Type".

(** ** Bytes and byte strings *)

Definition byte_of (n : N) : ascii := ascii_of_N n.
Definition LF : ascii := byte_of 10.
Definition DQUOTE : ascii := byte_of 34.

Definition NL : string := String LF "".
Definition QUOTE : string := String DQUOTE "".

(** [s[n:]] *)
Fixpoint skip (n : nat) (s : string) : string :=
  match n, s with
  | S n', String _ s' => skip n' s'
  | _, _ => s
  end.

(** [s[:n]] *)
Fixpoint keep (n : nat) (s : string) : string :=
  match n, s with
  | S n', String c s' => String c (keep n' s')
  | _, _ => ""
  end.

(** [s[a:b]] *)
Definition slice (a b : nat) (s : string) : string := keep (b - a) (skip a s).

Definition string_of_bytes (l : list N) : string :=
  string_of_list_ascii (map byte_of l).

(** ** unicode/utf8 and unicode *)

Module Utf8.

Definition RuneError : N := 0xFFFD.
Definition RuneSelf : N := 0x80.

Definition between (lo hi n : N) : bool := (lo <=? n)%N && (n <=? hi)%N.

(** The continuation-byte test: [locb <= b <= hicb]. *)
Definition cont (b : ascii) : bool := between 0x80 0xBF (N_of_ascii b).

(** [first] and [acceptRanges] of utf8.go: for a leading byte, the size
    of the sequence and the range the second byte must lie in. *)
Definition first (b0 : N) : option (nat * N * N) :=
  if between 0xC2 0xDF b0 then Some (2%nat, 0x80, 0xBF)%N
  else if (b0 =? 0xE0)%N then Some (3%nat, 0xA0, 0xBF)%N
  else if between 0xE1 0xEC b0 then Some (3%nat, 0x80, 0xBF)%N
  else if (b0 =? 0xED)%N then Some (3%nat, 0x80, 0x9F)%N
  else if between 0xEE 0xEF b0 then Some (3%nat, 0x80, 0xBF)%N
  else if (b0 =? 0xF0)%N then Some (4%nat, 0x90, 0xBF)%N
  else if between 0xF1 0xF3 b0 then Some (4%nat, 0x80, 0xBF)%N
  else if (b0 =? 0xF4)%N then Some (4%nat, 0x80, 0x8F)%N
  else None.

(** [utf8.DecodeRuneInString]: the first rune of [s] and its width in
    bytes; [(RuneError, 0)] on the empty string and [(RuneError, 1)] on
    an invalid or truncated sequence. *)
Definition DecodeRuneInString (s : string) : N * nat :=
  match s with
  | "" => (RuneError, 0)
  | String c0 s1 =>
      let b0 := N_of_ascii c0 in
      if (b0 <? RuneSelf)%N then (b0, 1)
      else
        match first b0 with
        | None => (RuneError, 1)
        | Some (sz, lo, hi) =>
            match s1 with
            | "" => (RuneError, 1)
            | String c1 s2 =>
                let b1 := N_of_ascii c1 in
                if negb (between lo hi b1) then (RuneError, 1)
                else if Nat.eqb sz 2 then
                  (((b0 - 0xC0) * 64 + (b1 - 0x80))%N, 2)
                else
                  match s2 with
                  | "" => (RuneError, 1)
                  | String c2 s3 =>
                      let b2 := N_of_ascii c2 in
                      if negb (cont c2) then (RuneError, 1)
                      else if Nat.eqb sz 3 then
                        (((b0 - 0xE0) * 4096 + (b1 - 0x80) * 64
                          + (b2 - 0x80))%N, 3)
                      else
                        match s3 with
                        | "" => (RuneError, 1)
                        | String c3 _ =>
                            let b3 := N_of_ascii c3 in
                            if negb (cont c3) then (RuneError, 1)
                            else
                              (((b0 - 0xF0) * 262144 + (b1 - 0x80) * 4096
                                + (b2 - 0x80) * 64 + (b3 - 0x80))%N, 4)
                        end
                  end
            end
        end
  end.

(** [utf8.RuneStart]: the byte is not a continuation byte. *)
Definition RuneStart (b : ascii) : bool := negb (cont b).

(** [utf8.DecodeLastRuneInString], on the bytes of [s] in REVERSE order
    ([rs] = the last byte first).  Go walks back from the last byte over
    at most three more bytes to the nearest byte that can start a rune,
    decodes forward from there, and accepts the rune only if it ends
    exactly at the end of [s]; everything else is [(RuneError, 1)]. *)
Definition backToStart (rs : string) : string :=
  match rs with
  | "" => ""
  | String c0 r1 =>
      match r1 with
      | "" => String c0 ""
      | String c1 r2 =>
          if RuneStart c1 then String c1 (String c0 "")
          else
            match r2 with
            | "" => String c1 (String c0 "")
            | String c2 r3 =>
                if RuneStart c2 then String c2 (String c1 (String c0 ""))
                else
                  match r3 with
                  | "" => String c2 (String c1 (String c0 ""))
                  | String c3 r4 =>
                      if RuneStart c3
                      then String c3 (String c2 (String c1 (String c0 "")))
                      else
                        match r4 with
                        | "" =>
                            String c3 (String c2 (String c1 (String c0 "")))
                        | String c4 _ =>
                            String c4
                              (String c3 (String c2 (String c1 (String c0 ""))))
                        end
                  end
            end
      end
  end.

Definition DecodeLastRune (rs : string) : N * nat :=
  match rs with
  | "" => (RuneError, 0)
  | String c0 _ =>
      if (N_of_ascii c0 <? RuneSelf)%N then (N_of_ascii c0, 1)
      else
        let cand := backToStart rs in
        let '(r, size) := DecodeRuneInString cand in
        if Nat.eqb size (String.length cand) then (r, size)
        else (RuneError, 1)
  end.

(** [unicode.IsSpace]: the Latin-1 cases and the [White_Space] table. *)
Definition IsSpace (r : N) : bool :=
  if (r <=? 0xFF)%N then
    (r =? 9)%N || (r =? 10)%N || (r =? 11)%N || (r =? 12)%N || (r =? 13)%N
    || (r =? 32)%N || (r =? 0x85)%N || (r =? 0xA0)%N
  else
    (r =? 0x1680)%N || between 0x2000 0x200A r || between 0x2028 0x2029 r
    || (r =? 0x202F)%N || (r =? 0x205F)%N || (r =? 0x3000)%N.

End Utf8.

(** ** strings *)

Module Strings.

(** [strings.HasPrefix] *)
Definition HasPrefix (s pre : string) : bool := String.prefix pre s.

(** [strings.HasSuffix]:
    [len(s) >= len(suffix) && s[len(s)-len(suffix):] == suffix] *)
Definition HasSuffix (s suffix : string) : bool :=
  (String.length suffix <=? String.length s)
  && String.eqb (skip (String.length s - String.length suffix) s) suffix.

(** [strings.Contains]: [substr] occurs at some offset of [s]. *)
Fixpoint Contains (s substr : string) : bool :=
  String.prefix substr s
  || match s with
     | "" => false
     | String _ s' => Contains s' substr
     end.

(** [strings.Join] *)
Definition Join (elems : list string) (sep : string) : string :=
  String.concat sep elems.

Definition consHead (c : ascii) (l : list string) : list string :=
  match l with
  | [] => [String c ""]
  | h :: t => String c h :: t
  end.

(** [strings.Split] for a non-empty separator: cut at every
    non-overlapping occurrence of [sep], scanning from the left.
    [pending] counts the bytes of the separator just recognised that
    are still to be passed over. *)
Fixpoint splitOn (sep : string) (pending : nat) (s : string) : list string :=
  match s with
  | "" => [""]
  | String c s' =>
      match pending with
      | S p => splitOn sep p s'
      | O =>
          if String.prefix sep s
          then "" :: splitOn sep (String.length sep - 1) s'
          else consHead c (splitOn sep 0 s')
      end
  end.

(** With the empty separator Go explodes the string into its UTF-8
    sequences; the empty string then gives the empty list. *)
Fixpoint explode (fuel : nat) (s : string) : list string :=
  match fuel, s with
  | S fuel', String _ _ =>
      let w := snd (Utf8.DecodeRuneInString s) in
      keep w s :: explode fuel' (skip w s)
  | _, _ => []
  end.

Definition Split (s sep : string) : list string :=
  match sep with
  | "" => explode (String.length s) s
  | _ => splitOn sep 0 s
  end.

(** [strings.TrimLeftFunc(s, unicode.IsSpace)]: drop leading runes while
    they are white space. *)
Fixpoint trimLeftSpace (fuel : nat) (s : string) : string :=
  match fuel with
  | O => s
  | S fuel' =>
      let '(r, size) := Utf8.DecodeRuneInString s in
      if Utf8.IsSpace r && (0 <? size) then trimLeftSpace fuel' (skip size s)
      else s
  end.

(** [strings.TrimRightFunc(s, unicode.IsSpace)], on the reversed bytes:
    drop trailing runes while they are white space. *)
Fixpoint trimRightSpaceRev (fuel : nat) (rs : string) : string :=
  match fuel with
  | O => rs
  | S fuel' =>
      let '(r, size) := Utf8.DecodeLastRune rs in
      if Utf8.IsSpace r && (0 <? size)
      then trimRightSpaceRev fuel' (skip size rs)
      else rs
  end.

Definition TrimLeftSpace (s : string) : string :=
  trimLeftSpace (String.length s) s.

Definition TrimRightSpace (s : string) : string :=
  String.rev (trimRightSpaceRev (String.length s) (String.rev s)).

(** [strings.TrimSpace]: Go's ASCII fast path falls back to
    [TrimFunc(s, unicode.IsSpace)] at the first non-ASCII byte, so the
    result is always that of trimming white-space runes on both sides. *)
Definition TrimSpace (s : string) : string :=
  TrimRightSpace (TrimLeftSpace s).

Definition inCutset (cutset : string) (c : ascii) : bool :=
  existsb (Ascii.eqb c) (list_ascii_of_string cutset).

Fixpoint trimLeftBytes (cutset : string) (s : string) : string :=
  match s with
  | "" => ""
  | String c s' => if inCutset cutset c then trimLeftBytes cutset s' else s
  end.

(** [strings.Trim(s, cutset)] for a cutset of ASCII bytes (Go's
    [trimLeftByte]/[trimLeftASCII] paths): every leading and every
    trailing byte that belongs to the cutset is removed. *)
Definition Trim (s cutset : string) : string :=
  String.rev (trimLeftBytes cutset (String.rev (trimLeftBytes cutset s))).

End Strings.

(** ** regexp *)

Module Regexp.

(** Compiled expressions: the operators of the RE2 syntax tree that the
    wrapper's patterns need.  A class matches one rune (one UTF-8
    sequence, or one byte that is not part of a valid sequence, which Go
    reads as U+FFFD); repetition is greedy and alternation prefers its
    left branch, as in Go's leftmost-first matching. *)
Inductive regex : Type :=
| Eps
| Class (negated : bool) (ranges : list (N * N))
| Cat (r1 r2 : regex)
| Alt (r1 r2 : regex)
| Star (r : regex).

Definition Lit (c : N) : regex := Class false [(c, c)].
Definition Plus (r : regex) : regex := Cat r (Star r).
Definition Quest (r : regex) : regex := Alt r Eps.
(** [.] without the [s] flag: any rune but the newline. *)
Definition Dot : regex := Class true [(10, 10)]%N.
(** Perl classes (ASCII only in Go): [\s] = [[\t\n\f\r ]]. *)
Definition perlSpace : list (N * N) := [(9, 10); (12, 13); (32, 32)]%N.
Definition perlDigit : list (N * N) := [(48, 57)]%N.
Definition perlWord : list (N * N) := [(48, 57); (65, 90); (95, 95); (97, 122)]%N.

Definition inClass (negated : bool) (ranges : list (N * N)) (r : N) : bool :=
  xorb negated (existsb (fun '(lo, hi) => Utf8.between lo hi r) ranges).

(** The loop of a greedy star over [body]: another iteration first, the
    continuation otherwise; an iteration that consumed nothing leaves the
    loop.  Every further iteration works on a shorter text, so the length
    of the text is fuel enough. *)
Fixpoint starLoop (body : string -> (string -> option string) -> option string)
    (k : string -> option string) (fuel : nat) (s : string) : option string :=
  match fuel with
  | O => k s
  | S fuel' =>
      match
        body s
          (fun s' =>
             if String.length s' <? String.length s
             then starLoop body k fuel' s' else k s')
      with
      | Some out => Some out
      | None => k s
      end
  end.

(** Backtracking matcher in continuation-passing style: [rmatch r s k]
    runs [r] at the head of [s] and hands every way of matching, in
    priority order, to [k] until [k] accepts. *)
Fixpoint rmatch (r : regex) (s : string) (k : string -> option string)
  : option string :=
  match r with
  | Eps => k s
  | Class negated ranges =>
      match s with
      | "" => None
      | String _ _ =>
          let '(c, w) := Utf8.DecodeRuneInString s in
          if inClass negated ranges c then k (skip w s) else None
      end
  | Cat r1 r2 => rmatch r1 s (fun s' => rmatch r2 s' k)
  | Alt r1 r2 =>
      match rmatch r1 s k with
      | Some out => Some out
      | None => rmatch r2 s k
      end
  | Star r1 => starLoop (rmatch r1) k (String.length s) s
  end.

(** Length of the preferred match of [r] that starts at the head of [s]. *)
Definition matchAt (r : regex) (s : string) : option nat :=
  match rmatch r s Some with
  | Some rest => Some (String.length s - String.length rest)
  | None => None
  end.

(** The leftmost match at or after the head of [s]: [(offset, length)].
    The search moves from one rune to the next. *)
Fixpoint searchFrom (fuel : nat) (r : regex) (s : string) (off : nat)
  : option (nat * nat) :=
  match fuel with
  | O => None
  | S fuel' =>
      match matchAt r s with
      | Some n => Some (off, n)
      | None =>
          match s with
          | "" => None
          | String _ _ =>
              let w := snd (Utf8.DecodeRuneInString s) in
              searchFrom fuel' r (skip w s) (off + w)
          end
      end
  end.

(** [re.doExecute(..., pos, ...)]: the bounds [(a0, a1)] in [s] of the
    leftmost match that starts at or after [pos]. *)
Definition doExecute (r : regex) (s : string) (pos : nat) : option (nat * nat) :=
  match searchFrom (S (String.length s - pos)) r (skip pos s) pos with
  | Some (a0, n) => Some (a0, a0 + n)
  | None => None
  end.

(** [Regexp.MatchString] *)
Definition MatchString (r : regex) (s : string) : bool :=
  match doExecute r s 0 with Some _ => true | None => false end.

(** The loop of [Regexp.allMatches]: successive matches, an empty
    match right after the previous match being ignored. *)
Fixpoint allMatches (fuel : nat) (r : regex) (s : string) (pos : nat)
    (prevMatchEnd : option nat) (i n : nat) : list (nat * nat) :=
  match fuel with
  | O => []
  | S fuel' =>
      if (i <? n) && (pos <=? String.length s) then
        match doExecute r s pos with
        | None => []
        | Some (m0, m1) =>
            let accept :=
              negb ((m1 =? pos)
                    && match prevMatchEnd with
                       | Some e => m0 =? e
                       | None => false
                       end) in
            let pos' :=
              if m1 =? pos then
                let width := snd (Utf8.DecodeRuneInString (skip pos s)) in
                if 0 <? width then pos + width else String.length s + 1
              else m1 in
            if accept
            then (m0, m1) :: allMatches fuel' r s pos' (Some m1) (S i) n
            else allMatches fuel' r s pos' (Some m1) i n
        end
      else []
  end.

(** [Regexp.FindAllString(s, n)]; [n < 0] asks for all matches. *)
Definition FindAllString (r : regex) (s : string) (n : Z) : list string :=
  let n' := if (n <? 0)%Z then String.length s + 1 else Z.to_nat n in
  map (fun '(m0, m1) => slice m0 m1 s)
      (allMatches (String.length s + 2) r s 0 None 0 n').

(** The loop of [Regexp.replaceAll]. *)
Fixpoint replaceAll (fuel : nat) (r : regex) (src repl : string)
    (lastMatchEnd searchPos : nat) (buf : string) : string :=
  match fuel with
  | O => buf +:+ skip lastMatchEnd src
  | S fuel' =>
      if searchPos <=? String.length src then
        match doExecute r src searchPos with
        | None => buf +:+ skip lastMatchEnd src
        | Some (a0, a1) =>
            let buf1 := buf +:+ slice lastMatchEnd a0 src in
            let buf2 :=
              if (lastMatchEnd <? a1) || (a0 =? 0) then buf1 +:+ repl
              else buf1 in
            let width := snd (Utf8.DecodeRuneInString (skip searchPos src)) in
            let searchPos' :=
              if a1 <? searchPos + width then searchPos + width
              else if a1 <? searchPos + 1 then searchPos + 1
              else a1 in
            replaceAll fuel' r src repl a1 searchPos' buf2
        end
      else buf +:+ skip lastMatchEnd src
  end.

(** [Regexp.ReplaceAllString(src, repl)] for a replacement text
    without [$]: the text is inserted as it is (the wrapper passes the
    empty string). *)
Definition ReplaceAllString (r : regex) (src repl : string) : string :=
  replaceAll (String.length src + 2) r src repl 0 0 "".

(** *** Parsing patterns

    [Parse] reads the part of Go's pattern syntax (RE2, Perl flags) that
    the expressions above cover: literals, [.], classes [[...]] and
    [[^...]] with ranges, the escapes [\t \n \v \f \r \a], escaped
    punctuation, [\d \D \s \S \w \W], groups, [|], and one of [* + ?]
    after an atom.  Its error texts are those of [regexp/syntax].  Flags,
    anchors, counted and non-greedy repetition lie outside this part and
    are refused with a message that says so. *)

Definition EncodeRune (r : N) : string :=
  if (r <? 0x80)%N then string_of_bytes [r]
  else if (r <? 0x800)%N then
    string_of_bytes [0xC0 + r / 64; 0x80 + r mod 64]%N
  else if (r <? 0x10000)%N then
    string_of_bytes [0xE0 + r / 4096; 0x80 + (r / 64) mod 64; 0x80 + r mod 64]%N
  else
    string_of_bytes [0xF0 + r / 262144; 0x80 + (r / 4096) mod 64;
                     0x80 + (r / 64) mod 64; 0x80 + r mod 64]%N.

Fixpoint encodeRunes (l : list N) : string :=
  match l with
  | [] => ""
  | r :: l' => EncodeRune r +:+ encodeRunes l'
  end.

(** The runes of a pattern; [None] when it is not valid UTF-8. *)
Fixpoint runesOf (fuel : nat) (s : string) : option (list N) :=
  match fuel, s with
  | _, "" => Some []
  | O, _ => None
  | S fuel', String c _ =>
      let '(r, w) := Utf8.DecodeRuneInString s in
      if (r =? Utf8.RuneError)%N && (w =? 1) then None
      else match runesOf fuel' (skip w s) with
           | Some l => Some (r :: l)
           | None => None
           end
  end.

Definition syntaxError (code expr : string) : string :=
  "error parsing regexp: " +:+ code +:+ ": `" +:+ expr +:+ "`".

Definition outside (what : string) : string :=
  "pattern syntax outside the modelled part: " +:+ what.

Definition isAlnum (c : N) : bool :=
  Utf8.between 48 57 c || Utf8.between 65 90 c || Utf8.between 97 122 c.

(** The escape that begins at [c] (the rune after the backslash), outside
    a class. *)
Definition parseEscape (c : N) : regex + string :=
  if (c =? 110)%N then inl (Lit 10)
  else if (c =? 116)%N then inl (Lit 9)
  else if (c =? 114)%N then inl (Lit 13)
  else if (c =? 102)%N then inl (Lit 12)
  else if (c =? 118)%N then inl (Lit 11)
  else if (c =? 97)%N then inl (Lit 7)
  else if (c =? 100)%N then inl (Class false perlDigit)
  else if (c =? 68)%N then inl (Class true perlDigit)
  else if (c =? 115)%N then inl (Class false perlSpace)
  else if (c =? 83)%N then inl (Class true perlSpace)
  else if (c =? 119)%N then inl (Class false perlWord)
  else if (c =? 87)%N then inl (Class true perlWord)
  else if (c <? 0x80)%N && negb (isAlnum c) then inl (Lit c)
  else if existsb (N.eqb c) [65; 66; 67; 69; 80; 81; 98; 112; 120; 122;
                             48; 49; 50; 51; 52; 53; 54; 55]%N
  then inr (outside ("\" +:+ EncodeRune c))
  else inr (syntaxError "invalid escape sequence" ("\" +:+ EncodeRune c)).

(** One member of a class: a rune, or the ranges of a Perl class. *)
Definition classAtom (whole : list N) (ts : list N)
  : (list (N * N) + N) * list N + string :=
  match ts with
  | [] => inr (syntaxError "missing closing ]" (encodeRunes whole))
  | 92 :: [] => inr (syntaxError "trailing backslash at end of expression" "")
  | 92 :: c :: rest =>
      match parseEscape c with
      | inl (Class false [(lo, hi)]) =>
          if (lo =? hi)%N then inl (inr lo, rest) else inl (inl [(lo, hi)], rest)
      | inl (Class false rs) => inl (inl rs, rest)
      | inl _ => inr (outside "negated Perl class inside a class")
      | inr e => inr e
      end
  | c :: rest => inl (inr c, rest)
  end%N.

Fixpoint parseClass (fuel : nat) (whole : list N) (isFirst : bool)
    (ts : list N) (acc : list (N * N)) : list (N * N) * list N + string :=
  match fuel with
  | O => inr (syntaxError "missing closing ]" (encodeRunes whole))
  | S fuel' =>
      match ts with
      | [] => inr (syntaxError "missing closing ]" (encodeRunes whole))
      | c :: rest =>
          if (c =? 93)%N && negb isFirst then inl (rev acc, rest)
          else if (c =? 91)%N && match rest with 58 :: _ => true | _ => false end%N
          then inr (outside "named class")
          else
            match classAtom whole ts with
            | inr e => inr e
            | inl (inl rs, rest1) => parseClass fuel' whole false rest1 (rev rs ++ acc)
            | inl (inr lo, rest1) =>
                match rest1 with
                | 45 :: nxt :: rest2 =>
                    if (nxt =? 93)%N
                    then parseClass fuel' whole false rest1 ((lo, lo) :: acc)
                    else
                      match classAtom whole (nxt :: rest2) with
                      | inr e => inr e
                      | inl (inl _, _) =>
                          inr (syntaxError "invalid character class range"
                                 (encodeRunes [lo; 45; nxt]))
                      | inl (inr hi, rest3) =>
                          if (hi <? lo)%N
                          then inr (syntaxError "invalid character class range"
                                      (encodeRunes [lo; 45; hi]))
                          else parseClass fuel' whole false rest3 ((lo, hi) :: acc)
                      end
                | _ => parseClass fuel' whole false rest1 ((lo, lo) :: acc)
                end%N
            end
      end
  end.

Definition isRepeatOp (c : N) : bool := (c =? 42)%N || (c =? 43)%N || (c =? 63)%N.

Definition applyRepeat (op : N) (r : regex) : regex :=
  if (op =? 42)%N then Star r else if (op =? 43)%N then Plus r else Quest r.

Definition mkCat (r1 r2 : regex) : regex :=
  match r1, r2 with
  | Eps, _ => r2
  | _, Eps => r1
  | _, _ => Cat r1 r2
  end.

(** Recursive descent: [Alt] reads alternatives up to [)] or the end,
    [Seq] a concatenation, [Piece] an atom with its repetition. *)
Inductive level : Type := LAlt | LSeq | LPiece.

Fixpoint parseLevel (fuel : nat) (pattern : string) (lv : level) (ts : list N)
  : regex * list N + string :=
  match fuel with
  | O => inr (outside "pattern too deeply nested")
  | S fuel' =>
      match lv with
      | LAlt =>
          match parseLevel fuel' pattern LSeq ts with
          | inr e => inr e
          | inl (r1, 124 :: rest) =>
              match parseLevel fuel' pattern LAlt rest with
              | inr e => inr e
              | inl (r2, rest') => inl (Alt r1 r2, rest')
              end
          | inl (r1, rest) => inl (r1, rest)
          end%N
      | LSeq =>
          match ts with
          | [] => inl (Eps, [])
          | c :: _ =>
              if (c =? 124)%N || (c =? 41)%N then inl (Eps, ts)
              else
                match parseLevel fuel' pattern LPiece ts with
                | inr e => inr e
                | inl (r1, rest) =>
                    match parseLevel fuel' pattern LSeq rest with
                    | inr e => inr e
                    | inl (r2, rest') => inl (mkCat r1 r2, rest')
                    end
                end
          end
      | LPiece =>
          let atom : regex * list N + string :=
            match ts with
            | [] => inl (Eps, [])
            | 40 :: 63 :: _ => inr (outside "group flags")
            | 40 :: rest =>
                match parseLevel fuel' pattern LAlt rest with
                | inr e => inr e
                | inl (r, 41 :: rest') => inl (r, rest')
                | inl (_, _) => inr (syntaxError "missing closing )" pattern)
                end
            | 91 :: 94 :: rest =>
                match parseClass (S (length rest)) ts true rest [] with
                | inr e => inr e
                | inl (rs, rest') => inl (Class true rs, rest')
                end
            | 91 :: rest =>
                match parseClass (S (length rest)) ts true rest [] with
                | inr e => inr e
                | inl (rs, rest') => inl (Class false rs, rest')
                end
            | 46 :: rest => inl (Dot, rest)
            | 92 :: [] =>
                inr (syntaxError "trailing backslash at end of expression" "")
            | 92 :: c :: rest =>
                match parseEscape c with
                | inr e => inr e
                | inl r => inl (r, rest)
                end
            | c :: rest =>
                if isRepeatOp c
                then inr (syntaxError "missing argument to repetition operator"
                            (EncodeRune c))
                else if (c =? 94)%N || (c =? 36)%N then inr (outside "anchors")
                else if (c =? 123)%N then inr (outside "counted repetition")
                else inl (Lit c, rest)
            end%N in
          match atom with
          | inr e => inr e
          | inl (r, op :: rest) =>
              if isRepeatOp op then
                match rest with
                | op2 :: _ =>
                    if (op2 =? 63)%N then inr (outside "non-greedy repetition")
                    else if isRepeatOp op2
                    then inr (syntaxError "invalid nested repetition operator"
                                (encodeRunes [op; op2]))
                    else if (op2 =? 123)%N then inr (outside "counted repetition")
                    else inl (applyRepeat op r, rest)
                | [] => inl (applyRepeat op r, rest)
                end
              else if (op =? 123)%N then inr (outside "counted repetition")
              else inl (r, op :: rest)
          | inl (r, []) => inl (r, [])
          end
      end
  end.

(** [regexp.Compile] on the part of the syntax described above. *)
Definition Parse (pattern : string) : regex + string :=
  match runesOf (String.length pattern) pattern with
  | None => inr (syntaxError "invalid UTF-8" pattern)
  | Some ts =>
      match parseLevel (3 * length ts + 3) pattern LAlt ts with
      | inr e => inr e
      | inl (r, []) => inl r
      | inl (_, _ :: _) => inr (syntaxError "unexpected )" pattern)
      end
  end.

(** [regexp.MustCompile]; Go panics on a pattern that does not parse. *)
Definition MustCompile (pattern : string) : regex :=
  match Parse pattern with
  | inl r => r
  | inr _ => Eps
  end.

End Regexp.

(** A Go [error] is modelled by its message; [None] is [nil]. *)
Definition error : Type := string.

(** ** encoding/json, for the examples

    The theorems below take [json.Unmarshal] and [json.MarshalIndent] as
    parameters.  Where a statement is evaluated on a concrete input, this
    reader and printer stand for them: the documents of RFC 8259, an
    object being read into a map (its keys sorted, the last of equal keys
    winning, as Go prints a [map[string]interface{}]), and a number being
    kept as its literal (Go converts it to a [float64]). *)

Module Json.

#[local] Unset Elimination Schemes.
Inductive value : Type :=
| Null
| Bool (b : bool)
| Number (literal : string)
| Str (s : string)
| Arr (elems : list value)
| Obj (fields : list (string * value)).
#[local] Set Elimination Schemes.

Definition isWS (c : ascii) : bool :=
  let n := N_of_ascii c in
  (n =? 32)%N || (n =? 9)%N || (n =? 10)%N || (n =? 13)%N.

Fixpoint skipWS (s : string) : string :=
  match s with
  | String c s' => if isWS c then skipWS s' else s
  | "" => ""
  end.

Definition isDigit (c : ascii) : bool := Utf8.between 48 57 (N_of_ascii c).

Fixpoint digits (s : string) : string * string :=
  match s with
  | String c s' =>
      if isDigit c then let '(d, r) := digits s' in (String c d, r)
      else ("", s)
  | "" => ("", "")
  end.

(** A number literal: an optional minus sign, an integer part without
    leading zero, an optional fraction, an optional exponent. *)
Definition scanNumber (s : string) : option (string * string) :=
  let '(sign, s1) :=
    match s with
    | String c r => if Ascii.eqb c "-" then ("-", r) else ("", s)
    | "" => ("", s)
    end in
  let '(int, s2) := digits s1 in
  match int with
  | "" => None
  | String d more =>
      if Ascii.eqb d "0" && negb (String.eqb more "") then None
      else
        let fracPart :=
          match s2 with
          | String c r =>
              if Ascii.eqb c "." then
                let '(f, r') := digits r in
                if String.eqb f "" then None else Some ("." +:+ f, r')
              else Some ("", s2)
          | "" => Some ("", s2)
          end in
        match fracPart with
        | None => None
        | Some (frac, s3) =>
            let expPart :=
              match s3 with
              | String c r =>
                  if Ascii.eqb c "e" || Ascii.eqb c "E" then
                    let '(sg, r1) :=
                      match r with
                      | String c' r' =>
                          if Ascii.eqb c' "+" || Ascii.eqb c' "-"
                          then (String c' "", r') else ("", r)
                      | "" => ("", r)
                      end in
                    let '(e, r2) := digits r1 in
                    if String.eqb e "" then None
                    else Some (String c sg +:+ e, r2)
                  else Some ("", s3)
              | "" => Some ("", s3)
              end in
            match expPart with
            | None => None
            | Some (ex, s4) => Some (sign +:+ int +:+ frac +:+ ex, s4)
            end
        end
  end.

Definition hexVal (c : ascii) : option N :=
  let n := N_of_ascii c in
  if Utf8.between 48 57 n then Some (n - 48)%N
  else if Utf8.between 65 70 n then Some (n - 55)%N
  else if Utf8.between 97 102 n then Some (n - 87)%N
  else None.

Definition hex4 (s : string) : option (N * string) :=
  match s with
  | String a (String b (String c (String d r))) =>
      match hexVal a, hexVal b, hexVal c, hexVal d with
      | Some x, Some y, Some z, Some w =>
          Some ((x * 4096 + y * 256 + z * 16 + w)%N, r)
      | _, _, _, _ => None
      end
  | _ => None
  end.

(** The text of a string literal, after its opening quote. *)
Fixpoint scanString (fuel : nat) (s : string) : option (string * string) :=
  match fuel with
  | O => None
  | S fuel' =>
      match s with
      | "" => None
      | String c r =>
          if Ascii.eqb c DQUOTE then Some ("", r)
          else if (N_of_ascii c <? 32)%N then None
          else if Ascii.eqb c "\" then
            match r with
            | "" => None
            | String e r' =>
                let plain (x : N) :=
                  match scanString fuel' r' with
                  | Some (t, rest) => Some (String (byte_of x) t, rest)
                  | None => None
                  end in
                if Ascii.eqb e DQUOTE then plain 34%N
                else if Ascii.eqb e "\" then plain 92%N
                else if Ascii.eqb e "/" then plain 47%N
                else if Ascii.eqb e "b" then plain 8%N
                else if Ascii.eqb e "f" then plain 12%N
                else if Ascii.eqb e "n" then plain 10%N
                else if Ascii.eqb e "r" then plain 13%N
                else if Ascii.eqb e "t" then plain 9%N
                else if Ascii.eqb e "u" then
                  match hex4 r' with
                  | None => None
                  | Some (u, r2) =>
                      let '(rune, r3) :=
                        if Utf8.between 0xD800 0xDBFF u then
                          match r2 with
                          | String b1 (String b2 r2') =>
                              if Ascii.eqb b1 "\" && Ascii.eqb b2 "u" then
                                match hex4 r2' with
                                | Some (lo, r2'') =>
                                    if Utf8.between 0xDC00 0xDFFF lo
                                    then ((0x10000 + (u - 0xD800) * 1024
                                           + (lo - 0xDC00))%N, r2'')
                                    else (Utf8.RuneError, r2)
                                | None => (Utf8.RuneError, r2)
                                end
                              else (Utf8.RuneError, r2)
                          | _ => (Utf8.RuneError, r2)
                          end
                        else if Utf8.between 0xDC00 0xDFFF u
                             then (Utf8.RuneError, r2)
                             else (u, r2) in
                      match scanString fuel' r3 with
                      | Some (t, rest) =>
                          Some (Regexp.EncodeRune rune +:+ t, rest)
                      | None => None
                      end
                  end
                else None
            end
          else
            match scanString fuel' r with
            | Some (t, rest) => Some (String c t, rest)
            | None => None
            end
      end
  end.

(** A map as a list sorted by key: [m[k] = v]. *)
Fixpoint setField (k : string) (v : value) (fields : list (string * value))
  : list (string * value) :=
  match fields with
  | [] => [(k, v)]
  | (k', v') :: rest =>
      if String.eqb k k' then (k, v) :: rest
      else if String.ltb k k' then (k, v) :: fields
      else (k', v') :: setField k v rest
  end.

Inductive mode : Type := MValue | MElems | MFields.

(** [MValue]: one value; [MElems]: the elements of an array up to its
    closing bracket, as an [Arr]; [MFields]: the members of an object up
    to its closing brace, added to [acc]. *)
Fixpoint scan (fuel : nat) (m : mode) (acc : list (string * value))
    (s : string) : option (value * string) :=
  match fuel with
  | O => None
  | S fuel' =>
      match m with
      | MValue =>
          match skipWS s with
          | "" => None
          | String c r =>
              if Ascii.eqb c "{" then
                match skipWS r with
                | String c' r' =>
                    if Ascii.eqb c' "}" then Some (Obj [], r')
                    else scan fuel' MFields [] r
                | "" => None
                end
              else if Ascii.eqb c "[" then
                match skipWS r with
                | String c' r' =>
                    if Ascii.eqb c' "]" then Some (Arr [], r')
                    else scan fuel' MElems [] r
                | "" => None
                end
              else if Ascii.eqb c DQUOTE then
                match scanString (S (String.length r)) r with
                | Some (t, rest) => Some (Str t, rest)
                | None => None
                end
              else if String.prefix "true" (String c r) then Some (Bool true, skip 4 (String c r))
              else if String.prefix "false" (String c r) then Some (Bool false, skip 5 (String c r))
              else if String.prefix "null" (String c r) then Some (Null, skip 4 (String c r))
              else
                match scanNumber (String c r) with
                | Some (lit, rest) => Some (Number lit, rest)
                | None => None
                end
          end
      | MElems =>
          match scan fuel' MValue [] s with
          | None => None
          | Some (v, rest) =>
              match skipWS rest with
              | String c r =>
                  if Ascii.eqb c "]" then Some (Arr [v], r)
                  else if Ascii.eqb c "," then
                    match scan fuel' MElems [] r with
                    | Some (Arr vs, rest') => Some (Arr (v :: vs), rest')
                    | _ => None
                    end
                  else None
              | "" => None
              end
          end
      | MFields =>
          match skipWS s with
          | String q r =>
              if Ascii.eqb q DQUOTE then
                match scanString (S (String.length r)) r with
                | None => None
                | Some (k, rest) =>
                    match skipWS rest with
                    | String colon r1 =>
                        if Ascii.eqb colon ":" then
                          match scan fuel' MValue [] r1 with
                          | None => None
                          | Some (v, rest1) =>
                              let acc' := setField k v acc in
                              match skipWS rest1 with
                              | String c r2 =>
                                  if Ascii.eqb c "}" then Some (Obj acc', r2)
                                  else if Ascii.eqb c ","
                                       then scan fuel' MFields acc' r2
                                       else None
                              | "" => None
                              end
                          end
                        else None
                    | "" => None
                    end
                end
              else None
          | "" => None
          end
      end
  end.

(** [json.Unmarshal(data, &v)] with [v] an [interface{}] *)
Definition Unmarshal (data : string) : value + error :=
  match skipWS data with
  | "" => inr "unexpected end of JSON input"
  | _ =>
      match scan (2 * String.length data + 2) MValue [] data with
      | None => inr "invalid JSON"
      | Some (v, rest) =>
          match skipWS rest with
          | "" => inl v
          | _ => inr "invalid character after top-level value"
          end
      end
  end.

Definition hexDigit (n : N) : ascii :=
  if (n <? 10)%N then byte_of (48 + n) else byte_of (87 + n).

(** The escapes of Go's encoder, HTML characters included. *)
Fixpoint escape (s : string) : string :=
  match s with
  | "" => ""
  | String c r =>
      let n := N_of_ascii c in
      (if Ascii.eqb c DQUOTE then "\" +:+ QUOTE
       else if Ascii.eqb c "\" then "\\"
       else if (n =? 10)%N then "\n"
       else if (n =? 13)%N then "\r"
       else if (n =? 9)%N then "\t"
       else if (n <? 32)%N || (n =? 60)%N || (n =? 62)%N || (n =? 38)%N then
         "\u00" +:+ String (hexDigit (n / 16)) (String (hexDigit (n mod 16)) "")
       else String c "")
      +:+ escape r
  end.

Fixpoint spaces (indent : string) (depth : nat) : string :=
  match depth with
  | O => ""
  | S d => indent +:+ spaces indent d
  end.

Fixpoint print (pre indent : string) (depth : nat) (v : value) : string :=
  let line d := NL +:+ pre +:+ spaces indent d in
  match v with
  | Null => "null"
  | Bool true => "true"
  | Bool false => "false"
  | Number lit => lit
  | Str s => QUOTE +:+ escape s +:+ QUOTE
  | Arr [] => "[]"
  | Arr elems =>
      "["
      +:+ (fix items (l : list value) : string :=
             match l with
             | [] => ""
             | [x] => line (S depth) +:+ print pre indent (S depth) x
             | x :: l' =>
                 line (S depth) +:+ print pre indent (S depth) x +:+ ","
                 +:+ items l'
             end) elems
      +:+ line depth +:+ "]"
  | Obj [] => "{}"
  | Obj fields =>
      "{"
      +:+ (fix members (l : list (string * value)) : string :=
             match l with
             | [] => ""
             | [(k, x)] =>
                 line (S depth) +:+ QUOTE +:+ escape k +:+ QUOTE +:+ ": "
                 +:+ print pre indent (S depth) x
             | (k, x) :: l' =>
                 line (S depth) +:+ QUOTE +:+ escape k +:+ QUOTE +:+ ": "
                 +:+ print pre indent (S depth) x +:+ "," +:+ members l'
             end) fields
      +:+ line depth +:+ "}"
  end.

(** [json.MarshalIndent(v, prefix, indent)] *)
Definition MarshalIndent (v : value) (pre indent : string) : string + error :=
  inl (print pre indent 0 v).

End Json.

(** ** Errors, commands and options *)

Module Shell.

(** Modelled from the spec: [shell.Command] is declared in [modules/shell],
    which is not among the sources.  Spec, data model, Command Invocation:
    binary, ordered argument list, working directory, environment; these
    are the fields [generateCommand] fills.  The logger, which only
    receives log lines, is left out. *)
Record Command : Type := {
  Cmd : string;                 (* the field [Command] *)
  Args : list string;
  WorkingDir : string;
  Env : gmap string string
}.

End Shell.

(** Modelled from the spec: [terragrunt.Options] is declared in options.go,
    which is not among the sources.  Spec, data model, Options: binary
    path, working directory, environment, extra arguments, retryable-error
    mapping, maximum retry count, delay between retries, warning-to-error
    mapping; these are the fields the wrapper reads (the logger is left
    out). *)
Record Options : Type := {
  TerragruntBinary : string;
  TerragruntDir : string;
  EnvVars : gmap string string;
  ExtraArgs : list string;
  RetryableTerraformErrors : gmap string string;
  MaxRetries : nat;
  TimeBetweenRetries : Z;
  WarningsAsErrors : gmap string string
}.

Definition StackCommandRun : string := "run".

(** What a call leaves behind in the world outside: the processes it
    started and the pauses it took, in order. *)
Inductive Event : Type :=
| Exec (c : Shell.Command)
| Sleep (d : Z).

(** [fmt.Sprintf("%v", args)] for a slice of strings. *)
Definition showArgs (args : list string) : string :=
  "[" +:+ Strings.Join args " " +:+ "]".

(** [generateCommand] (cmd.go) *)
Definition generateCommand (terragruntOptions : Options)
    (commandArgs : list string) : Shell.Command :=
  {| Shell.Cmd := TerragruntBinary terragruntOptions;
     Shell.Args := commandArgs;
     Shell.WorkingDir := TerragruntDir terragruntOptions;
     Shell.Env := EnvVars terragruntOptions |}.

(** Modelled from the spec: [validateOptions] belongs to options.go, which
    is not among the sources.  Spec, data model: binary path and working
    directory must be non-empty before any command executes; violation is
    a configuration error. *)
Definition validateOptions (options : Options) : option error :=
  if String.eqb (TerragruntBinary options) "" then
    Some "terragrunt binary path is required"
  else if String.eqb (TerragruntDir options) "" then
    Some "terragrunt directory is required"
  else None.

(** The pattern of [tgLogLevel] (stack_output.go). *)
Definition tgLogLevelPattern : string :=
  ".*time=\S+ level=\S+ prefix=\S+ binary=\S+ msg=.*".

Definition tgLogLevel : Regexp.regex :=
  Eval vm_compute in Regexp.MustCompile tgLogLevelPattern.

(** The loop over [lines] shared by [cleanTerragruntOutput] and
    [cleanTerragruntJson]: a line is kept, trimmed, unless it is blank or
    contains [ msg=]. *)
Definition keptLines (lines : list string) : list string :=
  fold_left
    (fun result line =>
       let trimmed := Strings.TrimSpace line in
       if negb (String.eqb trimmed "") && negb (Strings.Contains line " msg=")
       then result ++ [trimmed] else result)
    lines [].

(** [cleanTerragruntOutput] (stack_output.go); its error is always [nil]. *)
Definition cleanTerragruntOutput (rawOutput : string) : string * option error :=
  let cleaned := Regexp.ReplaceAllString tgLogLevel rawOutput "" in
  let lines := Strings.Split cleaned NL in
  let result := keptLines lines in
  if length result =? 0 then ("", None)
  else
    let finalOutput := Strings.Join result NL in
    let finalOutput := Strings.TrimSpace finalOutput in
    if Strings.HasPrefix finalOutput "{" || Strings.HasPrefix finalOutput "["
    then (finalOutput, None)
    else
      let finalOutput :=
        if Strings.HasPrefix finalOutput QUOTE && Strings.HasSuffix finalOutput QUOTE
        then Strings.Trim finalOutput QUOTE
        else finalOutput in
      (finalOutput, None).

(** The filtered output: the value of [finalOutput] in
    [cleanTerragruntOutput] once the kept lines are joined and trimmed,
    before the JSON and quote tests. *)
Definition filteredOutput (rawOutput : string) : string :=
  Strings.TrimSpace
    (Strings.Join
       (keptLines
          (Strings.Split (Regexp.ReplaceAllString tgLogLevel rawOutput "") NL))
       NL).


(** ** The wrapper

    The collaborators outside the two source files are variables of the
    section: the process runner of [modules/shell], the order in which
    the Go runtime visits a map in a [range] loop (unspecified, and free
    to change from one loop to the next), [GetCommonOptions] of
    options.go, [regexp.Compile], and [encoding/json]. *)

Section Wrapper.

Variable World : Type.

(** [shell.RunCommandAndGetOutputE]: combined output and error of one
    process; [shell.RunCommandE] is the same run without the output. *)
Variable process : Shell.Command -> World -> (string * option error) * World.

(** The entries of a map in the order one [range] loop visits them. *)
Variable rangeOrder : gmap string string -> World -> list (string * string) * World.

(** [GetCommonOptions(options, args...)] receives a pointer: it yields
    the options behind that pointer after the call, the options behind
    the pointer it returns, and the argument vector. *)
Variable GetCommonOptions : Options -> list string -> Options * Options * list string.

Variable Compile : string -> Regexp.regex + error.

Variable JSONValue : Type.
(** [json.Unmarshal] into an [interface{}] *)
Variable Unmarshal : string -> JSONValue + error.
(** [json.MarshalIndent(v, prefix, indent)] *)
Variable MarshalIndent : JSONValue -> string -> string -> string + error.

(** *** State passing *)

Record State : Type := { world : World; trace : list Event }.

Definition M (A : Type) : Type := State -> A * State.

Definition ret {A} (a : A) : M A := fun st => (a, st).

Definition bind {A B} (m : M A) (f : A -> M B) : M B :=
  fun st => let '(a, st') := m st in f a st'.

Notation "'let*' x ':=' m 'in' k" := (bind m (fun x => k))
  (at level 10, x pattern, m at level 100, k at level 200, only parsing).

Definition RunCommandAndGetOutputE (command : Shell.Command)
  : M (string * option error) :=
  fun st =>
    let '(r, w) := process command (world st) in
    (r, {| world := w; trace := trace st ++ [Exec command] |}).

Definition RunCommandE (command : Shell.Command) : M (option error) :=
  let* r := RunCommandAndGetOutputE command in ret (snd r).

Definition sleep (d : Z) : M unit :=
  fun st => (tt, {| world := world st; trace := trace st ++ [Sleep d] |}).

Definition range (m : gmap string string) : M (list (string * string)) :=
  fun st =>
    let '(l, w) := rangeOrder m (world st) in
    (l, {| world := w; trace := trace st |}).

(** *** Warning classifier (cmd.go) *)

(** The pattern [fmt.Sprintf("\nWarning: %s[^\n]*\n", warningPattern)] *)
Definition warningRegex (warningPattern : string) : string :=
  NL +:+ "Warning: " +:+ warningPattern +:+ "[^" +:+ NL +:+ "]*" +:+ NL.

(** The body of the loop of [hasWarning], over the entries in the order
    they are visited. *)
Fixpoint hasWarningOver (entries : list (string * string))
    (commandOutput : string) : option error :=
  match entries with
  | [] => None
  | (warningPattern, errorMessage) :: rest =>
      let regexPattern := warningRegex warningPattern in
      match Compile regexPattern with
      | inr err =>
          Some ("cannot compile regex for warning detection: " +:+ err)
      | inl compiledRegex =>
          let matches := Regexp.FindAllString compiledRegex commandOutput (-1) in
          if length matches =? 0 then hasWarningOver rest commandOutput
          else
            Some ("warning(s) were found: " +:+ errorMessage +:+ ":" +:+ NL
                  +:+ Strings.Join matches "")
      end
  end.

(** [hasWarning] *)
Definition hasWarning (opts : Options) (commandOutput : string)
  : M (option error) :=
  let* entries := range (WarningsAsErrors opts) in
  ret (hasWarningOver entries commandOutput).

(** *** Retried execution *)

(** Modelled from the spec: the patterns of the retryable-error mapping
    are compiled before the first attempt (see [DoWithRetryableErrorsE]
    below). *)
Fixpoint compileAll (patterns : list string) : list Regexp.regex + error :=
  match patterns with
  | [] => inl []
  | p :: rest =>
      match Compile p with
      | inr err => inr err
      | inl re =>
          match compileAll rest with
          | inr err => inr err
          | inl res => inl (re :: res)
          end
      end
  end.

(** Modelled from the spec: the loop of [retry.DoWithRetryableErrorsE]
    ([modules/retry] is not among the sources).  Spec 4.2: on failure
    the raw error text is matched against the retryable-error mapping;
    if any pattern matches, the call is retried, up to the configured
    maximum, waiting the configured delay between attempts; if no
    pattern matches, the error is surfaced immediately.  Spec 7:
    exhausting the budget surfaces the last failure. *)
Fixpoint retryLoop (retriesLeft : nat) (retryable : list Regexp.regex)
    (sleepBetweenRetries : Z) (action : M (string * option error))
  : M (string * option error) :=
  let* (output, err) := action in
  match err with
  | None => ret (output, None)
  | Some e =>
      if existsb (fun re => Regexp.MatchString re e) retryable then
        match retriesLeft with
        | O => ret (output, Some e)
        | S n =>
            let* _ := sleep sleepBetweenRetries in
            retryLoop n retryable sleepBetweenRetries action
        end
      else ret (output, Some e)
  end.

(** Modelled from the spec: [retry.DoWithRetryableErrorsE].  Spec 7: a
    malformed pattern is a configuration error, immediate and not
    retried. *)
Definition DoWithRetryableErrorsE (actionDescription : string)
    (retryableErrors : gmap string string) (maxRetries : nat)
    (sleepBetweenRetries : Z) (action : M (string * option error))
  : M (string * option error) :=
  match compileAll (map fst (map_to_list retryableErrors)) with
  | inr err => ret ("", Some err)
  | inl retryable => retryLoop maxRetries retryable sleepBetweenRetries action
  end.

(** The function literal handed to [retry.DoWithRetryableErrorsE], the
    same in [runTerragruntStackSubCommandE] and in
    [runTerragruntStackOutputCommand]: run the command, then check the
    output for warnings. *)
Definition runAndCheck (opts : Options) (execCommand : Shell.Command)
  : M (string * option error) :=
  let* (output, err) := RunCommandAndGetOutputE execCommand in
  match err with
  | Some e => ret (output, Some e)
  | None =>
      let* warningErr := hasWarning opts output in
      match warningErr with
      | Some w => ret (output, Some w)
      | None => ret (output, None)
      end
  end.

(** *** Stack commands (cmd.go) *)

(** [runTerragruntStackSubCommandE], the argument vector up to the call
    of [GetCommonOptions]; [probeErr] is the result of the probe. *)
Definition stackCommandArgs (probeErr : option error) (subCommand : string)
  : list string :=
  let commandArgs := ["stack"] in
  let commandArgs :=
    if negb (String.eqb subCommand "") then commandArgs ++ [subCommand]
    else commandArgs in
  match probeErr with
  | None => ["-experiment"; "stack"] ++ commandArgs
  | Some _ => commandArgs
  end.

(** [runTerragruntStackSubCommandE], the separator rule: the arguments
    that follow those of [GetCommonOptions]. *)
Definition withAdditionalArgs (subCommand : string)
    (finalArgs additionalArgs : list string) : list string :=
  if String.eqb subCommand StackCommandRun
  then finalArgs ++ ("--" :: additionalArgs)
  else finalArgs ++ additionalArgs.

Definition experimentalTestCmd (opts : Options) : Shell.Command :=
  {| Shell.Cmd := TerragruntBinary opts;
     Shell.Args := ["-experiment"; "stack"];
     Shell.WorkingDir := "";
     Shell.Env := ∅ |}.

(** [runTerragruntStackSubCommandE] *)
Definition runTerragruntStackSubCommandE (opts : Options)
    (subCommand : string) (additionalArgs : list string)
  : M (string * option error) :=
  let* probeErr := RunCommandE (experimentalTestCmd opts) in
  let commandArgs := stackCommandArgs probeErr subCommand in
  let '(opts', terragruntOptions, finalArgs) :=
    GetCommonOptions opts commandArgs in
  let finalArgs := withAdditionalArgs subCommand finalArgs additionalArgs in
  let execCommand := generateCommand terragruntOptions finalArgs in
  let commandDescription :=
    TerragruntBinary terragruntOptions +:+ " " +:+ showArgs finalArgs in
  DoWithRetryableErrorsE commandDescription
    (RetryableTerraformErrors terragruntOptions)
    (MaxRetries terragruntOptions)
    (TimeBetweenRetries terragruntOptions)
    (runAndCheck opts' execCommand).

(** [runTerragruntStackCommandE] *)
Definition runTerragruntStackCommandE (opts : Options)
    (additionalArgs : list string) : M (string * option error) :=
  runTerragruntStackSubCommandE opts StackCommandRun additionalArgs.

(** [terragruntStackCommandE] *)
Definition terragruntStackCommandE (opts : Options)
    (additionalArgs : list string) : M (string * option error) :=
  runTerragruntStackSubCommandE opts "" additionalArgs.

(** *** Stack output (stack_output.go) *)

(** [runTerragruntStackOutputCommand] *)
Definition runTerragruntStackOutputCommand (options : Options)
    (outputArgs : list string) : M (string * option error) :=
  match validateOptions options with
  | Some err => ret ("", Some err)
  | None =>
      let commandArgs := ["stack"; "output"] in
      let commandArgs := commandArgs ++ outputArgs in
      let '(options', terragruntOptions, finalArgs) :=
        GetCommonOptions options commandArgs in
      let execCommand := generateCommand terragruntOptions finalArgs in
      let commandDescription :=
        TerragruntBinary terragruntOptions +:+ " " +:+ showArgs finalArgs in
      DoWithRetryableErrorsE commandDescription
        (RetryableTerraformErrors terragruntOptions)
        (MaxRetries terragruntOptions)
        (TimeBetweenRetries terragruntOptions)
        (runAndCheck options' execCommand)
  end.

(** The argument vector [outputArgs] of [TgOutputE] ([json = false]) and
    of [TgOutputJsonE] ([json = true]). *)
Definition tgOutputArgs (json : bool) (options : Options) (key : string)
  : list string :=
  let outputArgs := if json then ["-no-color"; "-json"] else ["-no-color"] in
  let outputArgs := outputArgs ++ ExtraArgs options in
  if negb (String.eqb key "") then outputArgs ++ [key] else outputArgs.

(** [TgOutputE] *)
Definition TgOutputE (options : Options) (key : string)
  : M (string * option error) :=
  let outputArgs := tgOutputArgs false options key in
  let* (rawOutput, err) := runTerragruntStackOutputCommand options outputArgs in
  match err with
  | Some e => ret ("", Some e)
  | None =>
      let '(cleaned, err) := cleanTerragruntOutput rawOutput in
      match err with
      | Some e => ret ("", Some e)
      | None => ret (cleaned, None)
      end
  end.

(** [cleanTerragruntJson] *)
Definition cleanTerragruntJson (input : string) : string * option error :=
  let cleaned := Regexp.ReplaceAllString tgLogLevel input "" in
  let lines := Strings.Split cleaned NL in
  let result := keptLines lines in
  let ansiClean := Strings.Join result NL in
  match Unmarshal ansiClean with
  | inr err => ("", Some err)
  | inl jsonObj =>
      match MarshalIndent jsonObj "" "  " with
      | inr err => ("", Some err)
      | inl normalized => (normalized, None)
      end
  end.

(** [TgOutputJsonE] *)
Definition TgOutputJsonE (options : Options) (key : string)
  : M (string * option error) :=
  let outputArgs := tgOutputArgs true options key in
  let* (rawOutput, err) := runTerragruntStackOutputCommand options outputArgs in
  match err with
  | Some e => ret ("", Some e)
  | None => ret (cleanTerragruntJson rawOutput)
  end.

End Wrapper.

Arguments world {World} _.
Arguments trace {World} _.
Arguments ret {World A} _ _.
Arguments bind {World A B} _ _ _.
Arguments sleep {World} _ _.
Arguments RunCommandAndGetOutputE {World} _ _ _.
Arguments RunCommandE {World} _ _ _.
Arguments range {World} _ _ _.
Arguments hasWarning {World} _ _ _ _ _.
Arguments retryLoop {World} _ _ _ _ _.
Arguments DoWithRetryableErrorsE {World} _ _ _ _ _ _ _.
Arguments runAndCheck {World} _ _ _ _ _ _.
Arguments runTerragruntStackSubCommandE {World} _ _ _ _ _ _ _ _.
Arguments runTerragruntStackCommandE {World} _ _ _ _ _ _ _.
Arguments terragruntStackCommandE {World} _ _ _ _ _ _ _.
Arguments runTerragruntStackOutputCommand {World} _ _ _ _ _ _ _.
Arguments TgOutputE {World} _ _ _ _ _ _ _.
Arguments cleanTerragruntJson {JSONValue} _ _ _.
Arguments TgOutputJsonE {World} _ _ _ _ {JSONValue} _ _ _ _ _.

(** ** The variants that stop the test (stack_output.go)

    [TgOutput] and [TgOutputJson] hand an error to [t.Fatal].  With Go's
    [*testing.T] that call reports the error and stops the test: what
    follows it does not run. *)

Inductive Outcome (A : Type) : Type :=
| Returned (a : A)
| Fatal (err : error).

Arguments Returned {A} _.
Arguments Fatal {A} _.

Section FatalVariants.

Context {World : Type}.
Context (process : Shell.Command -> World -> (string * option error) * World).
Context (rangeOrder : gmap string string -> World -> list (string * string) * World).
Context (GetCommonOptions : Options -> list string -> Options * Options * list string).
Context (Compile : string -> Regexp.regex + error).
Context {JSONValue : Type}.
Context (Unmarshal : string -> JSONValue + error).
Context (MarshalIndent : JSONValue -> string -> string -> string + error).

(** [TgOutput] *)
Definition TgOutput (options : Options) (key : string)
  : M World (Outcome string) :=
  bind (TgOutputE process rangeOrder GetCommonOptions Compile options key)
    (fun '(out, err) =>
       match err with
       | Some e => ret (Fatal e)
       | None => ret (Returned out)
       end).

(** [TgOutputJson] *)
Definition TgOutputJson (options : Options) (key : string)
  : M World (Outcome string) :=
  bind (TgOutputJsonE process rangeOrder GetCommonOptions Compile
          Unmarshal MarshalIndent options key)
    (fun '(str, err) =>
       match err with
       | Some e => ret (Fatal e)
       | None => ret (Returned str)
       end).

End FatalVariants.

(** ** Sample collaborators

    Used where a statement is evaluated on a concrete input. *)

(** A world that answers each process with the next prepared result. *)
Definition Script : Type := list (string * option error).

Definition scripted (c : Shell.Command) (w : Script)
  : (string * option error) * Script :=
  match w with
  | r :: w' => (r, w')
  | [] => (("", Some "exit status 1"), [])
  end.

(** Two ways to visit a map: as [map_to_list] lists it, and backwards. *)
Definition listedOrder (m : gmap string string) (w : Script)
  : list (string * string) * Script :=
  (map_to_list m, w).

Definition reversedOrder (m : gmap string string) (w : Script)
  : list (string * string) * Script :=
  (rev (map_to_list m), w).

(** A [GetCommonOptions] that leaves options and arguments as they are. *)
Definition plainOptions (options : Options) (args : list string)
  : Options * Options * list string :=
  (options, options, args).

Definition sampleOptions : Options :=
  {| TerragruntBinary := "terragrunt";
     TerragruntDir := "/live";
     EnvVars := ∅;
     ExtraArgs := [];
     RetryableTerraformErrors := ∅;
     MaxRetries := 0;
     TimeBetweenRetries := 0;
     WarningsAsErrors := ∅ |}.

(** The output and the pattern table of the spec's warning example. *)
Definition deprecationOutput : string :=
  "Initializing..." +:+ NL +:+ "Warning: Deprecated option X" +:+ NL.

Definition deprecationWarnings : gmap string string :=
  {[ "Deprecat" := "deprecated features used" ]}.

Definition start (w : Script) : State Script := {| world := w; trace := [] |}.

(** ** Vocabulary of the statements *)

Definition isASCII (c : ascii) : Prop := (N_of_ascii c < 0x80)%N.

(** The text begins with a white-space rune. *)
Definition leadSpace (s : string) : bool :=
  let '(r, size) := Utf8.DecodeRuneInString s in Utf8.IsSpace r && (0 <? size).

(** The text whose bytes are [rs] in reverse order ends with a
    white-space rune. *)
Definition trailSpace (rs : string) : bool :=
  let '(r, size) := Utf8.DecodeLastRune rs in Utf8.IsSpace r && (0 <? size).

(** Lines that the cleaning loop keeps as they are. *)
Definition cleanLine (line : string) : Prop :=
  line <> "" /\ Strings.TrimSpace line = line
  /\ Strings.Contains line " msg=" = false.

(** An entry of the warning mapping whose pattern compiles and has no
    match in the output. *)
Definition quiet (Compile : string -> Regexp.regex + error)
    (commandOutput : string) (entry : string * string) : Prop :=
  exists re, Compile (warningRegex entry.1) = inl re
             /\ Regexp.FindAllString re commandOutput (-1) = [].

(** The message [hasWarning] builds from the matches of one pattern. *)
Definition warningMessage (errorMessage : string) (matches : list string)
  : error :=
  "warning(s) were found: " +:+ errorMessage +:+ ":" +:+ NL
  +:+ Strings.Join matches "".

(** A computation that adds to the trace only events with property [P]. *)
Definition onlyEmits {World A : Type} (P : Event -> Prop) (m : M World A)
  : Prop :=
  forall st, exists evs,
    trace (m st).2 = trace st ++ evs /\ Forall P evs.


(** An order in which one [range] loop may visit the entries of a map:
    any arrangement of them. *)
Definition visits (m : gmap string string) (entries : list (string * string))
  : Prop :=
  entries ≡ₚ map_to_list m.

(** ** Further vocabulary and sample inputs *)

(** The pattern cannot consume a newline. *)
Fixpoint nlfree (r : Regexp.regex) : bool :=
  match r with
  | Regexp.Eps => true
  | Regexp.Class negated ranges => negb (Regexp.inClass negated ranges 10)
  | Regexp.Cat r1 r2 | Regexp.Alt r1 r2 => nlfree r1 && nlfree r2
  | Regexp.Star r1 => nlfree r1
  end.

(** The texts a pattern can consume, stars left open. *)
Fixpoint consumed (r : Regexp.regex) (m : string) : Prop :=
  match r with
  | Regexp.Eps => m = ""
  | Regexp.Class negated ranges =>
      exists s', let '(c, w) := Utf8.DecodeRuneInString (m +:+ s') in
                 w = String.length m /\ 0 < w
                 /\ Regexp.inClass negated ranges c = true
  | Regexp.Cat r1 r2 =>
      exists a b, m = a +:+ b /\ consumed r1 a /\ consumed r2 b
  | Regexp.Alt r1 r2 => consumed r1 m \/ consumed r2 m
  | Regexp.Star _ => True
  end.

(** [r], read along its concatenations, begins with the ASCII bytes of
    [w] as literals. *)
Fixpoint beginsWith (w : string) (r : Regexp.regex) : bool :=
  match w with
  | "" => true
  | String c w' =>
      let isLit (x : Regexp.regex) :=
        match x with
        | Regexp.Class false [(lo, hi)] =>
            (lo =? N_of_ascii c)%N && (hi =? N_of_ascii c)%N
            && (N_of_ascii c <? 0x80)%N
        | _ => false
        end in
      match r with
      | Regexp.Cat r1 r2 => isLit r1 && beginsWith w' r2
      | _ => isLit r && String.eqb w' ""
      end
  end.

(** Somewhere along the concatenations of [r] stand the literals of [w]. *)
Fixpoint mustHave (w : string) (r : Regexp.regex) : bool :=
  beginsWith w r
  || match r with
     | Regexp.Cat _ r2 => mustHave w r2
     | _ => false
     end.

(** A structured log line: the log pattern matches it from its first to
    its last byte. *)
Definition logLine (l : string) : Prop :=
  Regexp.matchAt tgLogLevel l = Some (String.length l).




(** A pattern that does not compile: the opening parenthesis. *)
Definition malformed : string := "(".

(** Two patterns that both match [twoWarnings]. *)
Definition twoPatterns : gmap string string :=
  {[ "Alpha" := "first policy"; "Beta" := "second policy" ]}.

Definition twoPolicies : Options :=
  {| TerragruntBinary := "terragrunt";
     TerragruntDir := "/live";
     EnvVars := ∅;
     ExtraArgs := [];
     RetryableTerraformErrors := ∅;
     MaxRetries := 0;
     TimeBetweenRetries := 0;
     WarningsAsErrors := twoPatterns |}.

Definition twoWarnings : string :=
  NL +:+ "Warning: Alpha" +:+ NL +:+ "Warning: Beta" +:+ NL.

(** Options that turn deprecation warnings into errors and allow two
    retries of errors that mention [retryOn]. *)
Definition deprecationOptions (retryOn : string) : Options :=
  {| TerragruntBinary := "terragrunt";
     TerragruntDir := "/live";
     EnvVars := ∅;
     ExtraArgs := [];
     RetryableTerraformErrors := {[ retryOn := "worth another attempt" ]};
     MaxRetries := 2;
     TimeBetweenRetries := 5;
     WarningsAsErrors := deprecationWarnings |}.

Definition stackOutput : Shell.Command :=
  generateCommand sampleOptions ["stack"; "output"].

Definition deprecationError : error :=
  warningMessage "deprecated features used"
    [NL +:+ "Warning: Deprecated option X" +:+ NL].

(** The spec's scenario: a log line, then the object [{"a":{"value":"x"}}]. *)
Definition logSample : string :=
  "time=2023-07-11T10:30:45Z level=info prefix=terragrunt binary=terragrunt msg="
  +:+ QUOTE +:+ "Initializing..." +:+ QUOTE.

Definition payloadSample : string :=
  "{" +:+ QUOTE +:+ "a" +:+ QUOTE +:+ ":{" +:+ QUOTE +:+ "value" +:+ QUOTE
  +:+ ":" +:+ QUOTE +:+ "x" +:+ QUOTE +:+ "}}".


(** ** Vocabulary of the further properties *)

(** A text without a newline: one line. *)
Definition oneLine (l : string) : Prop := Strings.Contains l NL = false.

(** The test of the cleaning loop: the line is kept. *)
Definition keeps (line : string) : bool :=
  negb (String.eqb (Strings.TrimSpace line) "")
  && negb (Strings.Contains line " msg=").

(** The pattern begins with [.*]. *)
Definition startsOpen (r : Regexp.regex) : bool :=
  match r with
  | Regexp.Cat (Regexp.Star (Regexp.Class true [(lo, hi)])) _ =>
      (lo =? 10)%N && (hi =? 10)%N
  | _ => false
  end.

(** The pattern ends, along its concatenations, with [.*]. *)
Fixpoint endsOpen (r : Regexp.regex) : bool :=
  match r with
  | Regexp.Cat _ r2 => endsOpen r2
  | Regexp.Star (Regexp.Class true [(lo, hi)]) => (lo =? 10)%N && (hi =? 10)%N
  | _ => false
  end.

(** A line as the replacement of the log pattern leaves it: emptied when
    the pattern matches in it. *)
Definition blanked (l : string) : string :=
  if Regexp.MatchString tgLogLevel l then "" else l.

(** What stands between the end of the last match and the line the loop
    has come to: the search passes over it, and the rune it begins with
    ends inside it. *)
Definition passed (done pend : string) : Prop :=
  (forall X,
      Regexp.doExecute tgLogLevel (done +:+ pend +:+ X) (String.length done)
      = Regexp.doExecute tgLogLevel ((done +:+ pend) +:+ X)
          (String.length (done +:+ pend)))
  /\ (pend = ""
      \/ forall X, snd (Utf8.DecodeRuneInString (pend +:+ X)) <= String.length pend).

(** A structured log line, then a scalar with blanks around it. *)
Definition paddedOutput : string :=
  logSample +:+ NL +:+ "  my-bucket-name  ".

(** Nothing but a structured log line. *)
Definition logOnly : string := logSample +:+ NL.

(** A warning on the first line of the output. *)
Definition firstLineWarning : string := "Warning: Deprecated option X" +:+ NL.

(** A JSON object printed over several lines, indented, with a blank
    line. *)
Definition indentedJson : string :=
  "{" +:+ NL +:+ "  " +:+ QUOTE +:+ "a" +:+ QUOTE +:+ ": 1" +:+ NL +:+ NL
  +:+ "}".

(** * Verification *)

(** ** Byte strings *)

Lemma sapp_cons (c : ascii) (a b : string) :
  String c a +:+ b = String c (a +:+ b).
Proof. done. Qed.

Lemma sapp_nil_l (s : string) : "" +:+ s = s.
Proof. done. Qed.

Lemma sapp_nil_r (s : string) : s +:+ "" = s.
Proof. induction s as [|c s IH]; [done|]. by rewrite sapp_cons, IH. Qed.

Lemma sapp_assoc (a b c : string) : (a +:+ b) +:+ c = a +:+ b +:+ c.
Proof. induction a as [|x a IH]; [done|]. by rewrite !sapp_cons, IH. Qed.

Lemma slength_app (a b : string) :
  String.length (a +:+ b) = String.length a + String.length b.
Proof. induction a as [|x a IH]; [done|]. rewrite sapp_cons. cbn. by rewrite IH. Qed.

Lemma slength_zero (s : string) : String.length s = 0 -> s = "".
Proof. by destruct s. Qed.

Lemma rev_app_spec (s acc : string) :
  String.rev_app s acc = String.rev s +:+ acc.
Proof.
  revert acc. unfold String.rev.
  induction s as [|c s IH]; intros acc; [done|].
  cbn. rewrite IH, (IH (String c "")). by rewrite sapp_assoc, sapp_cons.
Qed.

Lemma srev_cons (c : ascii) (s : string) :
  String.rev (String c s) = String.rev s +:+ String c "".
Proof. unfold String.rev at 1. cbn. apply rev_app_spec. Qed.

Lemma srev_app_distr (a b : string) :
  String.rev (a +:+ b) = String.rev b +:+ String.rev a.
Proof.
  induction a as [|c a IH].
  - by rewrite sapp_nil_l, sapp_nil_r.
  - rewrite sapp_cons, !srev_cons, IH. by rewrite sapp_assoc.
Qed.

Lemma srev_involutive (s : string) : String.rev (String.rev s) = s.
Proof.
  induction s as [|c s IH]; [done|].
  by rewrite srev_cons, srev_app_distr, IH.
Qed.

Lemma srev_length (s : string) : String.length (String.rev s) = String.length s.
Proof.
  induction s as [|c s IH]; [done|].
  rewrite srev_cons, slength_app, IH. cbn. lia.
Qed.

Lemma keep_skip (n : nat) (s : string) : keep n s +:+ skip n s = s.
Proof.
  revert s. induction n as [|n IH]; intros [|c s]; try done.
  cbn [keep skip]. by rewrite sapp_cons, IH.
Qed.

Lemma skip_app_length (a b : string) : skip (String.length a) (a +:+ b) = b.
Proof. induction a as [|c a IH]; [by destruct b|]. by rewrite sapp_cons. Qed.

Lemma keep_app_length (a b : string) : keep (String.length a) (a +:+ b) = a.
Proof.
  induction a as [|c a IH]; [by destruct b|].
  rewrite sapp_cons. cbn [String.length keep]. by rewrite IH.
Qed.

Lemma skip_length (n : nat) (s : string) :
  String.length (skip n s) = String.length s - n.
Proof. revert s. induction n as [|n IH]; intros [|c s]; try done. cbn. apply IH. Qed.

Lemma skip_all (s : string) : skip (String.length s) s = "".
Proof. induction s; done. Qed.

Lemma skip_0 (s : string) : skip 0 s = s.
Proof. by destruct s. Qed.

Lemma prefix_spec (p s : string) :
  String.prefix p s = true <-> exists t, s = p +:+ t.
Proof.
  revert s. induction p as [|c p IH]; intros s.
  - split; [intros _; by exists s|intros _; by destruct s].
  - destruct s as [|d s]; cbn.
    + split; [done|]. intros [t Ht]. done.
    + destruct (ascii_dec c d) as [->|Hne].
      * rewrite IH. split; intros [t Ht]; exists t.
        -- by rewrite sapp_cons, Ht.
        -- rewrite sapp_cons in Ht. by injection Ht.
      * split; [done|]. intros [t Ht]. rewrite sapp_cons in Ht.
        injection Ht as ??. congruence.
Qed.

Lemma HasPrefix_spec (s p : string) :
  Strings.HasPrefix s p = true <-> exists t, s = p +:+ t.
Proof. apply prefix_spec. Qed.

Lemma HasSuffix_spec (s suf : string) :
  Strings.HasSuffix s suf = true <-> exists t, s = t +:+ suf.
Proof.
  unfold Strings.HasSuffix. rewrite andb_true_iff, Nat.leb_le, String.eqb_eq.
  split.
  - intros [Hle Heq].
    exists (keep (String.length s - String.length suf) s).
    rewrite <- Heq at 2. by rewrite keep_skip.
  - intros [t ->]. rewrite slength_app. split; [lia|].
    replace (String.length t + String.length suf - String.length suf)
      with (String.length t) by lia.
    apply skip_app_length.
Qed.

(** ** Quote stripping *)

Lemma inCutset_QUOTE (c : ascii) :
  Strings.inCutset QUOTE c = true <-> c = DQUOTE.
Proof.
  unfold Strings.inCutset, QUOTE. cbn [list_ascii_of_string existsb].
  rewrite orb_false_r. apply Ascii.eqb_eq.
Qed.




Lemma QUOTE_app (s : string) : QUOTE +:+ s = String DQUOTE s.
Proof. done. Qed.



Lemma cleanTerragruntOutput_unfold (rawOutput : string) :
  cleanTerragruntOutput rawOutput =
  if length
       (keptLines
          (Strings.Split (Regexp.ReplaceAllString tgLogLevel rawOutput "") NL))
     =? 0
  then ("", None)
  else
    let f := filteredOutput rawOutput in
    if Strings.HasPrefix f "{" || Strings.HasPrefix f "[" then (f, None)
    else if Strings.HasPrefix f QUOTE && Strings.HasSuffix f QUOTE
         then (Strings.Trim f QUOTE, None)
         else (f, None).
Proof.
  unfold cleanTerragruntOutput, filteredOutput.
  repeat match goal with |- context [if ?b then _ else _] => destruct b end; done.
Qed.

Lemma filteredOutput_no_lines (rawOutput : string) :
  keptLines (Strings.Split (Regexp.ReplaceAllString tgLogLevel rawOutput "") NL)
  = [] ->
  filteredOutput rawOutput = "".
Proof. unfold filteredOutput. by intros ->. Qed.

(** ** UTF-8 decoding next to an ASCII byte *)

Ltac nbool :=
  repeat match goal with
    | H : (_ && _) = true |- _ => apply andb_true_iff in H as [? ?]
    | H : (_ <=? _)%N = true |- _ => apply N.leb_le in H
    | H : (_ <=? _)%N = false |- _ => apply N.leb_gt in H
    | H : (_ <? _)%N = true |- _ => apply N.ltb_lt in H
    | H : (_ <? _)%N = false |- _ => apply N.ltb_ge in H
    | H : (_ =? _)%N = true |- _ => apply N.eqb_eq in H
    | H : (_ =? _)%N = false |- _ => apply N.eqb_neq in H
    | H : (_ && _) = false |- _ => apply andb_false_iff in H as [?|?]
    end.

Lemma first_range (b0 : N) (sz : nat) (lo hi : N) :
  Utf8.first b0 = Some (sz, lo, hi) -> (0x80 <= lo)%N /\ (0xC2 <= b0)%N.
Proof.
  unfold Utf8.first, Utf8.between.
  repeat match goal with
         | |- context [if ?b then _ else _] => destruct b eqn:?
         end; intros [= <- <- <-]; nbool; lia.
Qed.

Lemma between_ascii (lo hi : N) (c : ascii) :
  isASCII c -> (0x80 <= lo)%N -> Utf8.between lo hi (N_of_ascii c) = false.
Proof.
  unfold isASCII, Utf8.between. intros.
  destruct (N.leb_spec lo (N_of_ascii c)); [lia|done].
Qed.

Lemma cont_ascii (c : ascii) : isASCII c -> Utf8.cont c = false.
Proof. intros H. by apply between_ascii. Qed.

Lemma decode_ascii (c : ascii) (s : string) :
  isASCII c -> Utf8.DecodeRuneInString (String c s) = (N_of_ascii c, 1).
Proof.
  unfold isASCII. intros H. cbn -[N.ltb]. unfold Utf8.RuneSelf.
  by destruct (N.ltb_spec (N_of_ascii c) 128); [|lia].
Qed.

Lemma first_cont (c : ascii) : Utf8.cont c = true -> Utf8.first (N_of_ascii c) = None.
Proof.
  unfold Utf8.cont, Utf8.first, Utf8.between. intros H.
  repeat match goal with
         | |- context [if ?b then _ else _] => destruct b eqn:?
         end; try done; nbool; lia.
Qed.

Lemma decode_cont (c : ascii) (s : string) :
  Utf8.cont c = true -> Utf8.DecodeRuneInString (String c s) = (Utf8.RuneError, 1).
Proof.
  intros H. cbn -[N.ltb]. rewrite (first_cont c H).
  destruct (N.ltb_spec (N_of_ascii c) Utf8.RuneSelf) as [Hlt|]; [|done].
  unfold Utf8.cont, Utf8.between, Utf8.RuneSelf in *. nbool. lia.
Qed.

Lemma decode_local (l : string) (c : ascii) (x : string) :
  l <> "" -> isASCII c ->
  Utf8.DecodeRuneInString (l +:+ String c x) = Utf8.DecodeRuneInString l.
Proof.
  intros Hl Hc. destruct l as [|c0 l]; [done|]. clear Hl.
  rewrite sapp_cons. cbn -[N.ltb Utf8.first].
  destruct (N_of_ascii c0 <? Utf8.RuneSelf)%N; [done|].
  destruct (Utf8.first (N_of_ascii c0)) as [[[sz lo] hi]|] eqn:Hf; [|done].
  apply first_range in Hf as [Hlo _].
  destruct l as [|c1 l].
  { rewrite sapp_nil_l. by rewrite between_ascii. }
  rewrite sapp_cons.
  destruct (negb (Utf8.between lo hi (N_of_ascii c1))); [done|].
  destruct (sz =? 2); [done|].
  destruct l as [|c2 l].
  { rewrite sapp_nil_l. by rewrite cont_ascii. }
  rewrite sapp_cons.
  destruct (negb (Utf8.cont c2)); [done|].
  destruct (sz =? 3); [done|].
  destruct l as [|c3 l].
  { rewrite sapp_nil_l. by rewrite cont_ascii. }
  by rewrite sapp_cons.
Qed.

Lemma decode_single (c : ascii) :
  ~ isASCII c -> Utf8.DecodeRuneInString (String c "") = (Utf8.RuneError, 1).
Proof.
  unfold isASCII. intros H. cbn -[N.ltb Utf8.first]. unfold Utf8.RuneSelf.
  destruct (N.ltb_spec (N_of_ascii c) 128); [lia|].
  by destruct (Utf8.first (N_of_ascii c)) as [[[??]?]|].
Qed.

Lemma RuneStart_ascii (c : ascii) : isASCII c -> Utf8.RuneStart c = true.
Proof. intros H. unfold Utf8.RuneStart. by rewrite cont_ascii. Qed.

Lemma decodeLast_local (rl : string) (c : ascii) (x : string) :
  rl <> "" -> isASCII c ->
  Utf8.DecodeLastRune (rl +:+ String c x) = Utf8.DecodeLastRune rl.
Proof.
  intros Hl Hc. destruct rl as [|c0 r1]; [done|]. clear Hl.
  rewrite sapp_cons. unfold Utf8.DecodeLastRune.
  destruct (N.ltb_spec (N_of_ascii c0) Utf8.RuneSelf) as [|Hc0]; [done|].
  assert (~ isASCII c0) as Hn by (unfold isASCII, Utf8.RuneSelf in *; lia).
  pose proof (RuneStart_ascii c Hc) as Hs.
  destruct r1 as [|c1 r2].
  { rewrite sapp_nil_l. cbn [Utf8.backToStart]. rewrite Hs.
    by rewrite decode_ascii, decode_single. }
  rewrite sapp_cons. cbn [Utf8.backToStart].
  destruct (Utf8.RuneStart c1) eqn:H1; [done|].
  apply negb_false_iff in H1.
  destruct r2 as [|c2 r3].
  { rewrite sapp_nil_l, Hs. by rewrite decode_ascii, decode_cont. }
  rewrite sapp_cons.
  destruct (Utf8.RuneStart c2) eqn:H2; [done|].
  apply negb_false_iff in H2.
  destruct r3 as [|c3 r4].
  { rewrite sapp_nil_l, Hs. by rewrite decode_ascii, decode_cont. }
  rewrite sapp_cons.
  destruct (Utf8.RuneStart c3) eqn:H3; [done|].
  apply negb_false_iff in H3.
  destruct r4 as [|c4 r5].
  { rewrite sapp_nil_l. by rewrite decode_ascii, decode_cont. }
  by rewrite sapp_cons.
Qed.

(** ** White-space trimming *)

Lemma trimLeftSpace_length (n : nat) (s : string) :
  String.length (Strings.trimLeftSpace n s) <= String.length s.
Proof.
  revert s. induction n as [|n IH]; intros s; [cbn; lia|].
  cbn [Strings.trimLeftSpace].
  destruct (Utf8.DecodeRuneInString s) as [r size].
  destruct (Utf8.IsSpace r && (0 <? size)); [|lia].
  etrans; [apply IH|]. rewrite skip_length. lia.
Qed.

Lemma trimRightSpaceRev_length (n : nat) (s : string) :
  String.length (Strings.trimRightSpaceRev n s) <= String.length s.
Proof.
  revert s. induction n as [|n IH]; intros s; [cbn; lia|].
  cbn [Strings.trimRightSpaceRev].
  destruct (Utf8.DecodeLastRune s) as [r size].
  destruct (Utf8.IsSpace r && (0 <? size)); [|lia].
  etrans; [apply IH|]. rewrite skip_length. lia.
Qed.

Lemma TrimLeftSpace_fixed (s : string) :
  Strings.TrimLeftSpace s = s <-> s = "" \/ leadSpace s = false.
Proof.
  unfold Strings.TrimLeftSpace, leadSpace. destruct s as [|c s]; [by split; [left|]|].
  cbn [String.length Strings.trimLeftSpace].
  destruct (Utf8.DecodeRuneInString (String c s)) as [r size].
  destruct (Utf8.IsSpace r && (0 <? size)) eqn:E; [|by split; [right|]].
  split; [|by intros [?|?]]. intros H. exfalso.
  pose proof (trimLeftSpace_length (String.length s) (skip size (String c s))) as Hl.
  rewrite H, skip_length in Hl. cbn in Hl.
  apply andb_true_iff in E as [_ E]. apply Nat.ltb_lt in E. lia.
Qed.

Lemma trimRightSpaceRev_fixed (rs : string) :
  Strings.trimRightSpaceRev (String.length rs) rs = rs
  <-> rs = "" \/ trailSpace rs = false.
Proof.
  unfold trailSpace. destruct rs as [|c s]; [by split; [left|]|].
  cbn [String.length Strings.trimRightSpaceRev].
  destruct (Utf8.DecodeLastRune (String c s)) as [r size].
  destruct (Utf8.IsSpace r && (0 <? size)) eqn:E; [|by split; [right|]].
  split; [|by intros [?|?]]. intros H. exfalso.
  pose proof (trimRightSpaceRev_length (String.length s) (skip size (String c s))) as Hl.
  rewrite H, skip_length in Hl. cbn in Hl.
  apply andb_true_iff in E as [_ E]. apply Nat.ltb_lt in E. lia.
Qed.

Lemma TrimRightSpace_fixed (s : string) :
  Strings.TrimRightSpace s = s <-> s = "" \/ trailSpace (String.rev s) = false.
Proof.
  unfold Strings.TrimRightSpace. rewrite <- (srev_length s).
  split.
  - intros H. apply (f_equal String.rev) in H. rewrite !srev_involutive in H.
    apply trimRightSpaceRev_fixed in H as [H|H]; [|by right].
    left. by rewrite <- (srev_involutive s), H.
  - intros H. assert (String.rev s = "" \/ trailSpace (String.rev s) = false) as H'.
    { destruct H as [->|H]; [by left|by right]. }
    apply trimRightSpaceRev_fixed in H'. by rewrite H', srev_involutive.
Qed.

Lemma TrimLeftSpace_length (s : string) :
  String.length (Strings.TrimLeftSpace s) <= String.length s.
Proof. apply trimLeftSpace_length. Qed.

Lemma TrimRightSpace_length (s : string) :
  String.length (Strings.TrimRightSpace s) <= String.length s.
Proof.
  unfold Strings.TrimRightSpace. rewrite srev_length.
  etrans; [apply trimRightSpaceRev_length|]. by rewrite srev_length.
Qed.

Lemma TrimLeftSpace_shorter (s : string) :
  Strings.TrimLeftSpace s <> s ->
  String.length (Strings.TrimLeftSpace s) < String.length s.
Proof.
  intros H. unfold Strings.TrimLeftSpace in *. destruct s as [|c s]; [done|].
  cbn [String.length Strings.trimLeftSpace] in *.
  destruct (Utf8.DecodeRuneInString (String c s)) as [r size].
  destruct (Utf8.IsSpace r && (0 <? size)) eqn:E; [|done].
  pose proof (trimLeftSpace_length (String.length s) (skip size (String c s))) as Hl.
  rewrite skip_length in Hl. cbn in Hl.
  apply andb_true_iff in E as [_ E]. apply Nat.ltb_lt in E. cbn. lia.
Qed.

(** A text is left alone by [TrimSpace] exactly when it is empty or has
    no white-space rune at either end. *)
Lemma TrimSpace_fixed (s : string) :
  Strings.TrimSpace s = s
  <-> s = "" \/ (leadSpace s = false /\ trailSpace (String.rev s) = false).
Proof.
  unfold Strings.TrimSpace. split.
  - intros H.
    destruct (string_dec (Strings.TrimLeftSpace s) s) as [Hl|Hl].
    + rewrite Hl in H. apply TrimLeftSpace_fixed in Hl.
      apply TrimRightSpace_fixed in H. destruct Hl, H; auto.
    + apply TrimLeftSpace_shorter in Hl.
      pose proof (TrimRightSpace_length (Strings.TrimLeftSpace s)) as Hr.
      rewrite H in Hr. lia.
  - intros [->|[Hl Hr]]; [done|].
    rewrite (proj2 (TrimLeftSpace_fixed s)) by auto.
    apply TrimRightSpace_fixed. auto.
Qed.

(** ** Lines *)

Lemma splitOn_NL_cons (c : ascii) (s : string) :
  Strings.splitOn NL 0 (String c s) =
  if ascii_dec LF c then "" :: Strings.splitOn NL 0 s
  else Strings.consHead c (Strings.splitOn NL 0 s).
Proof.
  cbn [Strings.splitOn]. unfold NL at 1. cbn [String.prefix].
  destruct (ascii_dec LF c); [|done]. by destruct s.
Qed.

Lemma splitOn_NL_nonempty (s : string) : Strings.splitOn NL 0 s <> [].
Proof.
  destruct s as [|c s]; [done|]. rewrite splitOn_NL_cons.
  destruct (ascii_dec LF c); [done|]. by destruct (Strings.splitOn NL 0 s).
Qed.

Lemma Join_cons2 (x y : string) (l : list string) (sep : string) :
  Strings.Join (x :: y :: l) sep = x +:+ sep +:+ Strings.Join (y :: l) sep.
Proof. done. Qed.

(** Joining the lines of a text with newlines gives the text back. *)
Lemma Join_Split_NL (s : string) : Strings.Join (Strings.Split s NL) NL = s.
Proof.
  change (Strings.Split s NL) with (Strings.splitOn NL 0 s).
  induction s as [|c s IH]; [done|].
  rewrite splitOn_NL_cons. pose proof (splitOn_NL_nonempty s) as Hne.
  destruct (Strings.splitOn NL 0 s) as [|h t]; [done|].
  destruct (ascii_dec LF c) as [<-|Hc].
  - by rewrite Join_cons2, IH.
  - cbn [Strings.consHead]. destruct t as [|h' t].
    + change (Strings.Join [h] NL) with h in IH.
      change (Strings.Join [String c h] NL) with (String c h). by rewrite IH.
    + rewrite Join_cons2 in *. by rewrite sapp_cons, IH.
Qed.

Lemma Split_NL_nonempty (s : string) : Strings.Split s NL <> [].
Proof. apply splitOn_NL_nonempty. Qed.

Lemma splitOn_NL_head (u h : string) (t : list string) :
  Strings.splitOn NL 0 u = h :: t -> exists v, u = h +:+ v.
Proof.
  revert h t. induction u as [|c u IHu]; intros h t.
  - cbn. intros [= <- <-]. by exists "".
  - rewrite splitOn_NL_cons. destruct (ascii_dec LF c).
    + intros [= <- <-]. by exists (String c u).
    + destruct (Strings.splitOn NL 0 u) as [|h' t'] eqn:E'.
      { by destruct (splitOn_NL_nonempty u). }
      cbn. intros [= <- <-]. destruct (IHu _ _ eq_refl) as [v ->].
      by exists v.
Qed.

(** Every line of a text is a part of it. *)
Lemma Split_NL_part (s line : string) :
  line ∈ Strings.Split s NL -> exists a b, s = a +:+ line +:+ b.
Proof.
  change (Strings.Split s NL) with (Strings.splitOn NL 0 s). revert line.
  induction s as [|c s IH]; intros line.
  - cbn. intros ->%list_elem_of_singleton. by exists "", "".
  - rewrite splitOn_NL_cons. destruct (ascii_dec LF c) as [<-|Hc].
    + intros [->|Hin]%elem_of_cons.
      * by exists "", (String LF s).
      * destruct (IH _ Hin) as (a & b & ->). by exists (String LF a), b.
    + destruct (Strings.splitOn NL 0 s) as [|h t] eqn:E.
      { by destruct (splitOn_NL_nonempty s). }
      cbn [Strings.consHead]. intros [->|Hin]%elem_of_cons.
      * destruct (splitOn_NL_head _ _ _ E) as [v ->]. by exists "", v.
      * destruct (IH line) as (a & b & ->); [by right|].
        by exists (String c a), b.
Qed.

(** [strings.Contains], declaratively. *)
Lemma Contains_spec (s sub : string) :
  Strings.Contains s sub = true <-> exists a b, s = a +:+ sub +:+ b.
Proof.
  split.
  - induction s as [|c s IH]; cbn [Strings.Contains].
    + rewrite orb_false_r. intros [t ->]%prefix_spec. by exists "", t.
    + intros [[t ->]%prefix_spec|H]%orb_true_iff; [by exists "", t|].
      destruct (IH H) as (a & b & ->). by exists (String c a), b.
  - intros (a & b & ->). induction a as [|c a IH].
    + rewrite sapp_nil_l.
      assert (String.prefix sub (sub +:+ b) = true) as Hp
        by (apply prefix_spec; by exists b).
      destruct (sub +:+ b); cbn [Strings.Contains]; by rewrite Hp.
    + rewrite sapp_cons. cbn [Strings.Contains]. rewrite IH. apply orb_true_r.
Qed.

Lemma Contains_part (s line sub : string) :
  Strings.Contains s sub = false ->
  (exists a b, s = a +:+ line +:+ b) ->
  Strings.Contains line sub = false.
Proof.
  intros Hs (a & b & ->).
  destruct (Strings.Contains line sub) eqn:E; [|done].
  apply Contains_spec in E as (a' & b' & ->).
  assert (Strings.Contains (a +:+ (a' +:+ sub +:+ b') +:+ b) sub = true) as H;
    [|congruence].
  apply Contains_spec. exists (a +:+ a'), (b' +:+ b). by rewrite !sapp_assoc.
Qed.

Lemma keptLines_clean (lines : list string) :
  Forall cleanLine lines -> keptLines lines = lines.
Proof.
  unfold keptLines. set (F := fun (_ : list string) (_ : string) => _).
  enough (forall acc, Forall cleanLine lines -> fold_left F lines acc = acc ++ lines)
    as H by (intros Hl; by rewrite H).
  induction lines as [|l lines IH]; intros acc Hall.
  - by rewrite app_nil_r.
  - apply Forall_cons in Hall as [(Hne & Htrim & Hmsg) Hall].
    cbn [fold_left]. rewrite IH by done. unfold F. rewrite Htrim, Hmsg.
    apply String.eqb_neq in Hne. rewrite Hne. cbn [negb andb].
    by rewrite <- List.app_assoc.
Qed.

Lemma isASCII_LF : isASCII LF.
Proof. done. Qed.

Lemma Join_nonempty (l : string) (ls : list string) :
  l <> "" -> Strings.Join (l :: ls) NL <> "".
Proof.
  intros Hl. destruct ls as [|l' ls]; [done|]. rewrite Join_cons2.
  destruct l; [done|]. by rewrite sapp_cons.
Qed.

Lemma leadSpace_Join (l : string) (ls : list string) :
  l <> "" -> leadSpace (Strings.Join (l :: ls) NL) = leadSpace l.
Proof.
  intros Hl. destruct ls as [|l' ls]; [done|]. rewrite Join_cons2.
  unfold leadSpace, NL. rewrite sapp_cons, sapp_nil_l.
  by rewrite decode_local by (done || apply isASCII_LF).
Qed.

Lemma trailSpace_Join (lines : list string) :
  lines <> [] ->
  Forall (fun l => l <> "" /\ trailSpace (String.rev l) = false) lines ->
  trailSpace (String.rev (Strings.Join lines NL)) = false.
Proof.
  induction lines as [|l ls IH]; [done|]. intros _ Hall.
  apply Forall_cons in Hall as [[Hl Ht] Hall].
  destruct ls as [|l' ls]; [done|]. rewrite Join_cons2.
  rewrite <- sapp_assoc, srev_app_distr, srev_app_distr.
  change (String.rev NL) with NL. unfold NL at 2. rewrite sapp_cons, sapp_nil_l.
  unfold trailSpace. rewrite decodeLast_local; [by apply IH| |apply isASCII_LF].
  intros H. apply (f_equal String.rev) in H. rewrite srev_involutive in H.
  apply Forall_cons in Hall as [[Hl' _] _]. by apply (Join_nonempty l' ls).
Qed.

(** Lines that are not blank and carry no white space at their ends stay
    so when joined with newlines. *)
Lemma TrimSpace_Join (lines : list string) :
  lines <> [] ->
  Forall cleanLine lines ->
  Strings.TrimSpace (Strings.Join lines NL) = Strings.Join lines NL.
Proof.
  intros Hne Hall. apply TrimSpace_fixed. right.
  assert (Forall (fun l => l <> "" /\ leadSpace l = false
                           /\ trailSpace (String.rev l) = false) lines) as Hall'.
  { eapply Forall_impl; [apply Hall|]. intros l (Hl & Ht & _).
    apply TrimSpace_fixed in Ht as [?|[??]]; done. }
  split.
  - destruct lines as [|l ls]; [done|].
    apply Forall_cons in Hall' as [(Hl & Hlead & _) _].
    by rewrite leadSpace_Join.
  - apply trailSpace_Join; [done|].
    eapply Forall_impl; [apply Hall'|]. by intros l (? & _ & ?).
Qed.

(** ** Cleaning clean output *)

Lemma ReplaceAllString_no_match (r : Regexp.regex) (src repl : string) :
  Regexp.MatchString r src = false -> Regexp.ReplaceAllString r src repl = src.
Proof.
  unfold Regexp.MatchString, Regexp.ReplaceAllString. intros H.
  replace (String.length src + 2) with (S (String.length src + 1)) by lia.
  cbn [Regexp.replaceAll]. destruct (Regexp.doExecute r src 0); [done|].
  by rewrite skip_0.
Qed.

(** C9, as amended.  An input with no structured log line, no [ msg=],
    no blank line, not wrapped in double quotes AND with no white space at
    the beginning or at the end of any of its lines is returned unchanged. *)
Theorem C9_clean_input_unchanged (rawOutput : string) :
  Regexp.MatchString tgLogLevel rawOutput = false ->
  Strings.Contains rawOutput " msg=" = false ->
  Forall (fun line => line <> "" /\ Strings.TrimSpace line = line)
         (Strings.Split rawOutput NL) ->
  Strings.HasPrefix rawOutput QUOTE && Strings.HasSuffix rawOutput QUOTE = false ->
  cleanTerragruntOutput rawOutput = (rawOutput, None).
Proof.
  intros Hlog Hmsg Hlines Hq.
  assert (Forall cleanLine (Strings.Split rawOutput NL)) as Hclean.
  { apply Forall_forall. intros line Hin.
    pose proof (proj1 (Forall_forall _ _) Hlines line Hin) as [Hne Htrim].
    repeat split; try done.
    eapply Contains_part; [apply Hmsg|]. by apply Split_NL_part. }
  assert (filteredOutput rawOutput = rawOutput) as Hf.
  { unfold filteredOutput. rewrite ReplaceAllString_no_match by done.
    rewrite keptLines_clean by done.
    rewrite TrimSpace_Join by (done || apply Split_NL_nonempty).
    apply Join_Split_NL. }
  rewrite cleanTerragruntOutput_unfold, ReplaceAllString_no_match by done.
  rewrite keptLines_clean by done.
  destruct (Strings.Split rawOutput NL) eqn:E.
  { by destruct (Split_NL_nonempty rawOutput). }
  cbn [length Nat.eqb]. cbv zeta. rewrite Hf, Hq.
  by destruct (_ || _).
Qed.

(** ** Matching next to a newline *)

Lemma decode_width_le (s : string) :
  snd (Utf8.DecodeRuneInString s) <= String.length s.
Proof.
  destruct s as [|c0 s]; [done|]. cbn -[N.ltb Utf8.first].
  destruct (_ <? _)%N; [cbn; lia|].
  destruct (Utf8.first _) as [[[sz lo] hi]|]; [|cbn; lia].
  destruct s as [|c1 s]; [cbn; lia|].
  destruct (negb _); [cbn; lia|]. destruct (sz =? 2); [cbn; lia|].
  destruct s as [|c2 s]; [cbn; lia|].
  destruct (negb _); [cbn; lia|]. destruct (sz =? 3); [cbn; lia|].
  destruct s as [|c3 s]; [cbn; lia|].
  destruct (negb _); cbn; lia.
Qed.

Lemma skip_app_le (n : nat) (a b : string) :
  n <= String.length a -> skip n (a +:+ b) = skip n a +:+ b.
Proof.
  revert a. induction n as [|n IH]; intros a Hn.
  - by rewrite !skip_0.
  - destruct a as [|c a]; [cbn in Hn; lia|]. rewrite sapp_cons. cbn [skip].
    apply IH. cbn in Hn. lia.
Qed.

(** On the empty text a match can only be the continuation's. *)
Lemma rmatch_nil (r : Regexp.regex) (k : string -> option string) (out : string) :
  Regexp.rmatch r "" k = Some out -> k "" = Some out.
Proof.
  revert k. induction r as [|neg rs|r1 IH1 r2 IH2|r1 IH1 r2 IH2|r1 IH1];
    intros k; cbn [Regexp.rmatch].
  - done.
  - done.
  - intros H. apply IH1 in H. by apply IH2 in H.
  - destruct (Regexp.rmatch r1 "" k) eqn:E.
    + intros [= <-]. by apply IH1 in E.
    + apply IH2.
  - done.
Qed.

Section Locality.

Context (rest : string).
Let T : string := String LF rest.

Lemma length_app_T (x l : string) :
  (String.length (x +:+ T) <? String.length (l +:+ T))
  = (String.length x <? String.length l).
Proof.
  rewrite !slength_app.
  destruct (Nat.ltb_spec (String.length x) (String.length l)),
    (Nat.ltb_spec (String.length x + String.length T)
       (String.length l + String.length T)); done || lia.
Qed.

(** A pattern that cannot consume a newline matches at the head of a
    text that is followed by a newline as it does at the head of the
    text alone. *)
Lemma rmatch_before_newline (r : Regexp.regex) :
  nlfree r = true ->
  forall (l : string) (k k' : string -> option string) (f : string -> string),
    (forall x, k' (x +:+ T) = option_map f (k x)) ->
    Regexp.rmatch r (l +:+ T) k' = option_map f (Regexp.rmatch r l k).
Proof.
  induction r as [|neg rs|r1 IH1 r2 IH2|r1 IH1 r2 IH2|r1 IH1];
    cbn [nlfree Regexp.rmatch]; intros Hnl l k k' f Hk.
  - apply Hk.
  - destruct l as [|c l].
    + rewrite sapp_nil_l. unfold T.
      rewrite decode_ascii by apply isASCII_LF.
      change (N_of_ascii LF) with 10%N.
      apply negb_true_iff in Hnl. by rewrite Hnl.
    + rewrite sapp_cons.
      rewrite <- (sapp_cons c l T).
      unfold T at 1 2. rewrite decode_local by (done || apply isASCII_LF).
      pose proof (decode_width_le (String c l)) as Hw.
      destruct (Utf8.DecodeRuneInString (String c l)) as [rn w].
      destruct (Regexp.inClass neg rs rn); [|done].
      cbn [snd] in Hw. fold T. rewrite skip_app_le by done. apply Hk.
  - apply andb_true_iff in Hnl as [H1 H2].
    apply IH1; [done|]. intros x. by apply IH2.
  - apply andb_true_iff in Hnl as [H1 H2].
    rewrite (IH1 H1 l k k' f Hk), (IH2 H2 l k k' f Hk).
    by destruct (Regexp.rmatch r1 l k).
  - rewrite slength_app.
    enough (forall n l, String.length l <= n ->
              Regexp.starLoop (Regexp.rmatch r1) k' (n + String.length T) (l +:+ T)
              = option_map f (Regexp.starLoop (Regexp.rmatch r1) k n l)) as H
      by (by apply H).
    clear l. induction n as [|n IHn]; intros l Hl.
    + assert (l = "") as -> by (apply slength_zero; lia).
      rewrite sapp_nil_l.
      change (0 + String.length T) with (S (String.length rest)).
      cbn [Regexp.starLoop].
      pose proof (Hk "") as Hk0. rewrite sapp_nil_l in Hk0.
      match goal with
      | |- context [Regexp.rmatch r1 T ?K] =>
          pose proof (IH1 Hnl "" k K f) as H
      end.
      rewrite sapp_nil_l in H. rewrite H.
      * destruct (Regexp.rmatch r1 "" k) eqn:E; [|done].
        apply rmatch_nil in E. by rewrite E.
      * intros x. rewrite <- (sapp_nil_l T) at 2. rewrite length_app_T.
        cbn [String.length]. by rewrite Hk.
    + cbn [Nat.add Regexp.starLoop].
      rewrite (IH1 Hnl l
                 (fun s' => if String.length s' <? String.length l
                            then Regexp.starLoop (Regexp.rmatch r1) k n s'
                            else k s') _ f).
      * destruct (Regexp.rmatch r1 l _); [done|]. apply Hk.
      * intros x. rewrite length_app_T.
        destruct (Nat.ltb_spec (String.length x) (String.length l));
          [apply IHn; lia|apply Hk].
Qed.

Lemma matchAt_before_newline (r : Regexp.regex) (l : string) :
  nlfree r = true -> Regexp.matchAt r (l +:+ T) = Regexp.matchAt r l.
Proof.
  intros Hnl. unfold Regexp.matchAt.
  rewrite (rmatch_before_newline r Hnl l Some Some (fun o => o +:+ T))
    by done.
  destruct (Regexp.rmatch r l Some) as [o|]; [|done].
  cbn [option_map]. rewrite !slength_app. f_equal. lia.
Qed.

End Locality.

(** ** What a match of the log pattern contains *)

Lemma first_inv (b0 : N) (sz : nat) (lo hi : N) :
  Utf8.first b0 = Some (sz, lo, hi) ->
  (sz = 2%nat /\ 0xC2 <= b0 /\ 0x80 <= lo)%N
  \/ (sz = 3%nat /\ b0 = 0xE0 /\ lo = 0xA0)%N
  \/ (sz = 3%nat /\ 0xE1 <= b0 /\ 0x80 <= lo)%N
  \/ (sz = 4%nat /\ b0 = 0xF0 /\ lo = 0x90)%N
  \/ (sz = 4%nat /\ 0xF1 <= b0 /\ 0x80 <= lo)%N.
Proof.
  unfold Utf8.first, Utf8.between.
  repeat match goal with
         | |- context [if ?b then _ else _] => destruct b eqn:?
         end; intros [= <- <- <-]; nbool; lia.
Qed.

(** A rune below 0x80 is decoded from one byte, the byte of that value. *)
Lemma decode_value_ascii (s : string) (c : N) (w : nat) :
  Utf8.DecodeRuneInString s = (c, w) -> 0 < w -> (c < 0x80)%N ->
  exists s0, s = String (ascii_of_N c) s0 /\ w = 1.
Proof.
  destruct s as [|c0 s]; [cbn; intros [= <- <-]; lia|].
  cbn -[N.ltb Utf8.first]. unfold Utf8.RuneSelf, Utf8.RuneError, Utf8.cont, Utf8.between.
  destruct (N.ltb_spec (N_of_ascii c0) 128).
  { intros [= <- <-] _ _. exists s. by rewrite ascii_N_embedding. }
  destruct (Utf8.first (N_of_ascii c0)) as [[[sz lo] hi]|] eqn:Hf;
    [|intros [= <- <-]; lia].
  apply first_inv in Hf.
  destruct s as [|c1 s]; [intros [= <- <-]; lia|].
  destruct (negb _) eqn:E1; [intros [= <- <-]; lia|].
  apply negb_false_iff in E1. nbool.
  destruct (sz =? 2) eqn:E2.
  { apply Nat.eqb_eq in E2. intros [= <- <-]. lia. }
  destruct s as [|c2 s]; [intros [= <- <-]; lia|].
  destruct (negb _) eqn:E3; [intros [= <- <-]; lia|].
  apply negb_false_iff in E3. nbool.
  destruct (sz =? 3) eqn:E4.
  { apply Nat.eqb_eq in E4. intros [= <- <-]. lia. }
  apply Nat.eqb_neq in E2, E4.
  destruct s as [|c3 s]; [intros [= <- <-]; lia|].
  destruct (negb _) eqn:E5; [intros [= <- <-]; lia|].
  intros [= <- <-]. lia.
Qed.

Lemma starLoop_split (body : string -> (string -> option string) -> option string)
    (k : string -> option string) :
  (forall s k' out, body s k' = Some out ->
                    exists m s', s = m +:+ s' /\ k' s' = Some out) ->
  forall fuel s out,
    Regexp.starLoop body k fuel s = Some out ->
    exists m s', s = m +:+ s' /\ k s' = Some out.
Proof.
  intros Hbody. induction fuel as [|fuel IH]; intros s out; cbn [Regexp.starLoop].
  - intros H. by exists "", s.
  - destruct (body s _) as [o|] eqn:E.
    + intros [= ->]. apply Hbody in E as (m & s' & -> & E).
      destruct (_ <? _).
      * apply IH in E as (m' & s'' & -> & E). exists (m +:+ m'), s''.
        by rewrite sapp_assoc.
      * by exists m, s'.
    + intros H. by exists "", s.
Qed.

(** Whatever the matcher accepts splits into a text the pattern can
    consume and the rest, which the continuation accepted. *)
Lemma rmatch_consumed (r : Regexp.regex) :
  forall (s : string) (k : string -> option string) (out : string),
    Regexp.rmatch r s k = Some out ->
    exists m s', s = m +:+ s' /\ consumed r m /\ k s' = Some out.
Proof.
  induction r as [|neg rs|r1 IH1 r2 IH2|r1 IH1 r2 IH2|r1 IH1];
    intros s k out; cbn [Regexp.rmatch consumed].
  - intros H. by exists "", s.
  - destruct s as [|c0 s0]; [done|].
    pose proof (decode_width_le (String c0 s0)) as Hw.
    destruct (Utf8.DecodeRuneInString (String c0 s0)) as [c w] eqn:Hd.
    destruct (Regexp.inClass neg rs c) eqn:Hc; [|done]. intros H.
    cbn [snd] in Hw.
    assert (0 < w) as Hpos.
    { destruct w; [|lia]. exfalso. revert Hd. cbn -[N.ltb Utf8.first].
      repeat match goal with
             | |- context [if ?b then _ else _] => destruct b
             | |- context [match ?x with _ => _ end] => destruct x
             end; intros [= ]. }
    exists (keep w (String c0 s0)), (skip w (String c0 s0)).
    split; [by rewrite keep_skip|]. split; [|done].
    exists (skip w (String c0 s0)). rewrite keep_skip, Hd.
    repeat split; try done.
    clear -Hw. revert Hw. generalize (String c0 s0).
    induction w as [|w IH]; intros [|x s] Hw; cbn in *; try lia.
    f_equal. apply IH. lia.
  - intros H. apply IH1 in H as (a & s1 & -> & Ha & H).
    apply IH2 in H as (b & s2 & -> & Hb & H).
    exists (a +:+ b), s2. rewrite sapp_assoc. eauto 8.
  - destruct (Regexp.rmatch r1 s k) eqn:E.
    + intros [= ->]. apply IH1 in E as (m & s' & -> & Hm & E). eauto 8.
    + intros H. apply IH2 in H as (m & s' & -> & Hm & E'). eauto 8.
  - intros H. eapply starLoop_split in H as (m & s' & -> & H); [by eauto|].
    intros s0 k' out' H'. apply IH1 in H' as (m & s' & -> & _ & H'). eauto.
Qed.

Lemma consumed_literal (c : ascii) (lo hi : N) (m : string) :
  (lo =? N_of_ascii c)%N && (hi =? N_of_ascii c)%N && (N_of_ascii c <? 0x80)%N
  = true ->
  consumed (Regexp.Class false [(lo, hi)]) m -> m = String c "".
Proof.
  intros H (s' & Hm). nbool. subst lo hi.
  destruct (Utf8.DecodeRuneInString (m +:+ s')) as [r w] eqn:Hd.
  destruct Hm as (Hw & Hpos & Hin).
  unfold Regexp.inClass, Utf8.between in Hin. cbn in Hin.
  rewrite orb_false_r in Hin. nbool.
  assert (r = N_of_ascii c) as -> by lia.
  apply decode_value_ascii in Hd as (s0 & Hs & ->); [|done|done].
  rewrite ascii_N_embedding in Hs.
  destruct m as [|x [|y m]]; cbn in Hw; try lia.
  rewrite sapp_cons in Hs. by injection Hs as -> _.
Qed.

Lemma beginsWith_sound (w : string) :
  forall (r : Regexp.regex) (m : string),
    beginsWith w r = true -> consumed r m -> exists b, m = w +:+ b.
Proof.
  induction w as [|c w IH]; intros r m; [intros _ _; by exists m|].
  cbn [beginsWith].
  destruct r as [|neg rs|r1 r2|r1 r2|r1];
    try (intros [H1 H2]%andb_true_iff); try done.
  - apply String.eqb_eq in H2 as ->.
    destruct neg; [done|]. destruct rs as [|[lo hi] [|]]; try done.
    intros Hm. apply (consumed_literal c) in Hm as ->; [|done]. by exists "".
  - cbn [consumed]. intros (a & b & -> & Ha & Hb).
    destruct r1 as [|neg rs| | |]; try done.
    destruct neg; [done|]. destruct rs as [|[lo hi] [|]]; try done.
    apply (consumed_literal c) in Ha as ->; [|done].
    destruct (IH _ _ H2 Hb) as [b' ->]. by exists b'.
Qed.

Lemma mustHave_sound (w : string) (r : Regexp.regex) :
  forall m, mustHave w r = true -> consumed r m -> Strings.Contains m w = true.
Proof.
  induction r as [|neg rs|r1 IH1 r2 IH2|r1 IH1 r2 IH2|r1 IH1]; intros m;
    cbn [mustHave]; rewrite ?orb_false_r;
    try (intros H Hm; destruct (beginsWith_sound _ _ _ H Hm) as [b ->];
         apply Contains_spec; by exists "", b).
  intros [H|H]%orb_true_iff Hm.
  - destruct (beginsWith_sound _ _ _ H Hm) as [b ->].
    apply Contains_spec. by exists "", b.
  - cbn [consumed] in Hm. destruct Hm as (a & b & -> & _ & Hb).
    apply (IH2 _ H), Contains_spec in Hb as (x & y & ->).
    apply Contains_spec. exists (a +:+ x), y. by rewrite sapp_assoc.
Qed.

Lemma searchFrom_part (fuel : nat) (r : Regexp.regex) :
  forall (s : string) (off a0 n : nat),
    Regexp.searchFrom fuel r s off = Some (a0, n) ->
    exists pre x, s = pre +:+ x /\ Regexp.matchAt r x = Some n.
Proof.
  induction fuel as [|fuel IH]; intros s off a0 n; [done|].
  cbn [Regexp.searchFrom]. destruct (Regexp.matchAt r s) as [n'|] eqn:E.
  - intros [= <- <-]. by exists "", s.
  - destruct s as [|c s]; [done|]. intros H.
    apply IH in H as (pre & x & Hs & Hx).
    exists (keep (snd (Utf8.DecodeRuneInString (String c s))) (String c s) +:+ pre), x.
    split; [|done]. by rewrite sapp_assoc, <- Hs, keep_skip.
Qed.

(** The log pattern matches only where [ msg=] stands. *)
Lemma tgLogLevel_needs_msg (s : string) :
  Strings.Contains s " msg=" = false ->
  Regexp.MatchString tgLogLevel s = false.
Proof.
  intros Hs. unfold Regexp.MatchString, Regexp.doExecute.
  destruct (Regexp.searchFrom _ _ _ _) as [[a0 n]|] eqn:E; [|done].
  exfalso. apply searchFrom_part in E as (pre & x & Hx & E).
  unfold Regexp.matchAt in E.
  destruct (Regexp.rmatch tgLogLevel x Some) as [rest|] eqn:Hr; [|done].
  apply rmatch_consumed in Hr as (m & s' & -> & Hm & _).
  apply (mustHave_sound " msg=") in Hm; [|by vm_compute].
  apply Contains_spec in Hm as (a & b & ->).
  assert (Strings.Contains s " msg=" = true) as H; [|congruence].
  apply Contains_spec. rewrite skip_0 in Hx. rewrite Hx.
  exists (pre +:+ a), (b +:+ s'). by rewrite !sapp_assoc.
Qed.

(** ** Log lines before a payload *)

Lemma nlfree_tgLogLevel : nlfree tgLogLevel = true.
Proof. vm_compute. reflexivity. Qed.

Lemma logLine_nonempty (l : string) : logLine l -> l <> "".
Proof. intros H ->. vm_compute in H. discriminate H. Qed.

Lemma matchAt_newline (rest : string) :
  Regexp.matchAt tgLogLevel (String LF rest) = None.
Proof.
  rewrite <- (sapp_nil_l (String LF rest)).
  rewrite matchAt_before_newline by apply nlfree_tgLogLevel.
  vm_compute. reflexivity.
Qed.

Lemma matchAt_logLine (l rest : string) :
  logLine l -> Regexp.matchAt tgLogLevel (l +:+ String LF rest) = Some (String.length l).
Proof.
  intros H. by rewrite matchAt_before_newline by apply nlfree_tgLogLevel.
Qed.

Lemma searchFrom_none_off (fuel : nat) (r : Regexp.regex) (s : string) (o1 o2 : nat) :
  Regexp.searchFrom fuel r s o1 = None -> Regexp.searchFrom fuel r s o2 = None.
Proof.
  revert s o1 o2. induction fuel as [|fuel IH]; intros s o1 o2; [done|].
  cbn [Regexp.searchFrom]. destruct (Regexp.matchAt r s); [done|].
  destruct s as [|c s]; [done|]. apply IH.
Qed.

Lemma searchFrom_hit (fuel : nat) (r : Regexp.regex) (s : string) (off n : nat) :
  Regexp.matchAt r s = Some n ->
  Regexp.searchFrom (S fuel) r s off = Some (off, n).
Proof. intros H. cbn [Regexp.searchFrom]. by rewrite H. Qed.

Lemma searchFrom_newline (fuel : nat) (s : string) (off : nat) :
  Regexp.searchFrom (S fuel) tgLogLevel (String LF s) off
  = Regexp.searchFrom fuel tgLogLevel s (off + 1).
Proof.
  cbn [Regexp.searchFrom]. rewrite matchAt_newline.
  by rewrite decode_ascii by apply isASCII_LF.
Qed.

Lemma doExecute_hit (done l rest : string) :
  logLine l ->
  Regexp.doExecute tgLogLevel (done +:+ l +:+ String LF rest) (String.length done)
  = Some (String.length done, String.length done + String.length l).
Proof.
  intros Hl. unfold Regexp.doExecute. rewrite skip_app_length.
  by rewrite (searchFrom_hit _ _ _ _ _ (matchAt_logLine l rest Hl)).
Qed.






Lemma replaceAll_step (fuel : nat) (r : Regexp.regex) (src : string)
    (lastMatchEnd searchPos : nat) (buf : string) (a0 a1 : nat) :
  searchPos <= String.length src ->
  Regexp.doExecute r src searchPos = Some (a0, a1) ->
  searchPos + snd (Utf8.DecodeRuneInString (skip searchPos src)) <= a1 ->
  searchPos + 1 <= a1 ->
  Regexp.replaceAll (S fuel) r src "" lastMatchEnd searchPos buf
  = Regexp.replaceAll fuel r src "" a1 a1 (buf +:+ slice lastMatchEnd a0 src).
Proof.
  intros Hle Hd Hw H1. cbn [Regexp.replaceAll].
  apply Nat.leb_le in Hle. rewrite Hle, Hd.
  destruct (Nat.ltb_spec a1
              (searchPos + snd (Utf8.DecodeRuneInString (skip searchPos src))));
    [lia|].
  destruct (Nat.ltb_spec a1 (searchPos + 1)); [lia|].
  by destruct (_ || _); rewrite ?sapp_nil_r.
Qed.

Lemma replaceAll_stop (fuel : nat) (r : Regexp.regex) (src repl : string)
    (lastMatchEnd searchPos : nat) (buf : string) :
  Regexp.doExecute r src searchPos = None ->
  Regexp.replaceAll (S fuel) r src repl lastMatchEnd searchPos buf
  = buf +:+ skip lastMatchEnd src.
Proof.
  intros Hd. cbn [Regexp.replaceAll]. rewrite Hd. by destruct (_ <=? _).
Qed.




(** ** Cleaning JSON output *)





Section JsonFacts.

Context {JSONValue : Type}.
Context (Unmarshal : string -> JSONValue + error).
Context (MarshalIndent : JSONValue -> string -> string -> string + error).



End JsonFacts.

(** ** The warning classifier *)

Lemma Join_empty_sep_cons (x : string) (l : list string) :
  Strings.Join (x :: l) "" = x +:+ Strings.Join l "".
Proof. destruct l; [by rewrite sapp_nil_r|done]. Qed.

Lemma Join_empty_sep_part (l : list string) (x : string) :
  x ∈ l -> exists a b, Strings.Join l "" = a +:+ x +:+ b.
Proof.
  induction l as [|y l IH]; [by intros ?%elem_of_nil|].
  rewrite Join_empty_sep_cons. intros [->|Hin]%elem_of_cons.
  - by exists "", (Strings.Join l "").
  - destruct (IH Hin) as (a & b & ->). exists (y +:+ a), b.
    by rewrite sapp_assoc.
Qed.

Section Warnings.

Context (Compile : string -> Regexp.regex + error).

Lemma hasWarningOver_quiet (pre rest : list (string * string))
    (commandOutput : string) :
  Forall (quiet Compile commandOutput) pre ->
  hasWarningOver Compile (pre ++ rest) commandOutput
  = hasWarningOver Compile rest commandOutput.
Proof.
  induction pre as [|[p m] pre IH]; [done|].
  intros [(re & Hre & Hnone) Hall]%Forall_cons.
  cbn [app hasWarningOver]. cbn in Hre. rewrite Hre, Hnone. by apply IH.
Qed.

Lemma hasWarningOver_match (p m : string) (rest : list (string * string))
    (commandOutput : string) (re : Regexp.regex) :
  Compile (warningRegex p) = inl re ->
  Regexp.FindAllString re commandOutput (-1) <> [] ->
  hasWarningOver Compile ((p, m) :: rest) commandOutput
  = Some (warningMessage m (Regexp.FindAllString re commandOutput (-1))).
Proof.
  intros Hre Hm. cbn [hasWarningOver]. rewrite Hre.
  by destruct (Regexp.FindAllString re commandOutput (-1)).
Qed.

Lemma hasWarningOver_malformed (p m : string) (rest : list (string * string))
    (commandOutput : string) (err : error) :
  Compile (warningRegex p) = inr err ->
  hasWarningOver Compile ((p, m) :: rest) commandOutput
  = Some ("cannot compile regex for warning detection: " +:+ err).
Proof. intros Hre. cbn [hasWarningOver]. by rewrite Hre. Qed.

(** C3, as amended.  Over the entries in the order the loop visits
    them: when [P] is the first pattern with a match, the patterns
    before it being well-formed, the error carries the message
    configured for [P] and every matched text, the matched texts set
    one after the other (each brings the newlines it begins and ends
    with); when every pattern is well-formed and none has a match,
    there is no error. *)
Theorem C3_warning_message :
  (forall (pre post : list (string * string))
          (P errorMessage commandOutput : string) (re : Regexp.regex),
      Forall (quiet Compile commandOutput) pre ->
      Compile (warningRegex P) = inl re ->
      Regexp.FindAllString re commandOutput (-1) <> [] ->
      exists e,
        hasWarningOver Compile (pre ++ (P, errorMessage) :: post) commandOutput
        = Some e
        /\ e = warningMessage errorMessage
                 (Regexp.FindAllString re commandOutput (-1))
        /\ Strings.Contains e errorMessage = true
        /\ forall line, line ∈ Regexp.FindAllString re commandOutput (-1) ->
                        Strings.Contains e line = true)
  /\ (forall (entries : list (string * string)) (commandOutput : string),
        Forall (quiet Compile commandOutput) entries ->
        hasWarningOver Compile entries commandOutput = None).
Proof.
  split.
  - intros pre post P errorMessage commandOutput re Hpre Hre Hm.
    eexists. split; [|split; [reflexivity|split]].
    + rewrite hasWarningOver_quiet by done. by eapply hasWarningOver_match.
    + apply Contains_spec. by eexists _, _.
    + intros line Hin. apply Contains_spec.
      destruct (Join_empty_sep_part _ _ Hin) as (a & b & Hab).
      unfold warningMessage. rewrite Hab.
      exists ("warning(s) were found: " +:+ errorMessage +:+ ":" +:+ NL +:+ a), b.
      by rewrite !sapp_assoc.
  - intros entries commandOutput Hall.
    rewrite <- (app_nil_r entries). by rewrite hasWarningOver_quiet.
Qed.

(** C4, as amended.  Within one traversal the first pattern that
    matches wins and the entries after it are not evaluated: whatever
    follows it, well-formed or not, matching or not, the result is the
    error of that pattern.  (The order of the traversal itself is the
    Go runtime's choice and may differ between two runs.) *)
Theorem C4_first_match_wins (pre post post' : list (string * string))
    (P errorMessage commandOutput : string) (re : Regexp.regex) :
  Forall (quiet Compile commandOutput) pre ->
  Compile (warningRegex P) = inl re ->
  Regexp.FindAllString re commandOutput (-1) <> [] ->
  hasWarningOver Compile (pre ++ (P, errorMessage) :: post) commandOutput
  = hasWarningOver Compile (pre ++ (P, errorMessage) :: post') commandOutput
  /\ hasWarningOver Compile (pre ++ (P, errorMessage) :: post) commandOutput
     = hasWarningOver Compile [(P, errorMessage)] commandOutput.
Proof.
  intros Hpre Hre Hm.
  rewrite !hasWarningOver_quiet by done.
  by rewrite !(hasWarningOver_match _ _ _ _ re).
Qed.

(** C5, as amended.  A malformed pattern is reported, as a compile
    error, when the loop reaches it: when every pattern visited before
    it is well-formed and has no match.  The entries after it play no
    part, whether they would match or not. *)
Theorem C5_malformed_when_reached (pre post : list (string * string))
    (P errorMessage commandOutput : string) (err : error) :
  Forall (quiet Compile commandOutput) pre ->
  Compile (warningRegex P) = inr err ->
  hasWarningOver Compile (pre ++ (P, errorMessage) :: post) commandOutput
  = Some ("cannot compile regex for warning detection: " +:+ err).
Proof.
  intros Hpre Hre. rewrite hasWarningOver_quiet by done.
  by apply hasWarningOver_malformed.
Qed.

End Warnings.

(** ** Traces of the wrapper *)

Section WrapperFacts.

Context {World : Type}.
Context (process : Shell.Command -> World -> (string * option error) * World).
Context (rangeOrder : gmap string string -> World -> list (string * string) * World).
Context (GetCommonOptions : Options -> list string -> Options * Options * list string).
Context (Compile : string -> Regexp.regex + error).
Context {JSONValue : Type}.
Context (Unmarshal : string -> JSONValue + error).
Context (MarshalIndent : JSONValue -> string -> string -> string + error).

Implicit Types (st : State World) (P : Event -> Prop).

Lemma onlyEmits_ret {A} P (a : A) : onlyEmits P (ret (World := World) a).
Proof. intros st. exists []. by rewrite app_nil_r. Qed.

Lemma onlyEmits_bind {A B} P (m : M World A) (f : A -> M World B) :
  onlyEmits P m -> (forall a, onlyEmits P (f a)) -> onlyEmits P (bind m f).
Proof.
  intros Hm Hf st. unfold bind. destruct (Hm st) as (evs1 & E1 & F1).
  destruct (m st) as [a st1]. destruct (Hf a st1) as (evs2 & E2 & F2).
  exists (evs1 ++ evs2). cbn in *. rewrite E2, E1, List.app_assoc.
  split; [done|]. by apply Forall_app.
Qed.

Lemma onlyEmits_exec P (c : Shell.Command) :
  P (Exec c) -> onlyEmits P (RunCommandAndGetOutputE process c).
Proof.
  intros HP st. unfold RunCommandAndGetOutputE.
  destruct (process c (world st)) as [r w]. exists [Exec c]. cbn. auto.
Qed.

Lemma onlyEmits_sleep P (d : Z) : P (Sleep d) -> onlyEmits P (sleep (World := World) d).
Proof. intros HP st. exists [Sleep d]. cbn. auto. Qed.

Lemma onlyEmits_range P (m : gmap string string) : onlyEmits P (range rangeOrder m).
Proof.
  intros st. unfold range. destruct (rangeOrder m (world st)) as [l w].
  exists []. cbn. by rewrite app_nil_r.
Qed.

Lemma onlyEmits_hasWarning P (opts : Options) (output : string) :
  onlyEmits P (hasWarning rangeOrder Compile opts output).
Proof.
  apply onlyEmits_bind; [apply onlyEmits_range|]. intros. apply onlyEmits_ret.
Qed.

Lemma onlyEmits_runAndCheck P (opts : Options) (c : Shell.Command) :
  P (Exec c) -> onlyEmits P (runAndCheck process rangeOrder Compile opts c).
Proof.
  intros HP. apply onlyEmits_bind; [by apply onlyEmits_exec|].
  intros [output [e|]]; [apply onlyEmits_ret|].
  apply onlyEmits_bind; [apply onlyEmits_hasWarning|].
  intros [w|]; apply onlyEmits_ret.
Qed.

Lemma onlyEmits_retryLoop P (n : nat) (retryable : list Regexp.regex) (d : Z)
    (action : M World (string * option error)) :
  P (Sleep d) -> onlyEmits P action ->
  onlyEmits P (retryLoop n retryable d action).
Proof.
  intros Hs Ha. induction n as [|n IH]; cbn [retryLoop].
  - apply onlyEmits_bind; [done|]. intros [output [e|]]; [|apply onlyEmits_ret].
    destruct (existsb _ _); apply onlyEmits_ret.
  - apply onlyEmits_bind; [done|]. intros [output [e|]]; [|apply onlyEmits_ret].
    destruct (existsb _ _); [|apply onlyEmits_ret].
    apply onlyEmits_bind; [by apply onlyEmits_sleep|]. intros _. apply IH.
Qed.

Lemma onlyEmits_DoWithRetryableErrorsE P (desc : string)
    (retryableErrors : gmap string string) (n : nat) (d : Z)
    (action : M World (string * option error)) :
  P (Sleep d) -> onlyEmits P action ->
  onlyEmits P (DoWithRetryableErrorsE Compile desc retryableErrors n d action).
Proof.
  intros Hs Ha. unfold DoWithRetryableErrorsE.
  destruct (compileAll _ _); [by apply onlyEmits_retryLoop|apply onlyEmits_ret].
Qed.





Lemma RunCommandE_trace (c : Shell.Command) (st : State World) :
  trace (RunCommandE process c st).2 = trace st ++ [Exec c].
Proof.
  unfold RunCommandE, bind, RunCommandAndGetOutputE, ret.
  by destruct (process _ _) as [r w].
Qed.


(** The output path validates first: with an empty binary path or an
    empty working directory it fails at once and starts no process. *)
Lemma stack_output_invalid_options (options : Options)
    (outputArgs : list string) (st : State World) :
  TerragruntBinary options = "" \/ TerragruntDir options = "" ->
  exists e,
    runTerragruntStackOutputCommand process rangeOrder GetCommonOptions
      Compile options outputArgs st = (("", Some e), st).
Proof.
  intros H. unfold runTerragruntStackOutputCommand, validateOptions.
  destruct H as [-> | ->]; [by eexists|].
  destruct (String.eqb _ ""); by eexists.
Qed.

(** C7, the run/generate path.  [runTerragruntStackSubCommandE] does not
    validate its options: whatever they are, an empty binary path and an
    empty working directory included, the first thing it does is start
    the probe, with that binary path. *)
Theorem C7_run_path_probes_unvalidated (opts : Options) (subCommand : string)
    (additionalArgs : list string) (st : State World) :
  exists evs,
    trace (runTerragruntStackSubCommandE process rangeOrder GetCommonOptions
             Compile opts subCommand additionalArgs st).2
    = trace st ++ Exec (experimentalTestCmd opts) :: evs.
Proof.
  unfold runTerragruntStackSubCommandE, bind.
  pose proof (RunCommandE_trace (experimentalTestCmd opts) st) as Ht.
  destruct (RunCommandE process (experimentalTestCmd opts) st) as [probeErr st1].
  destruct (GetCommonOptions opts (stackCommandArgs probeErr subCommand))
    as [[opts' terragruntOptions] commonArgs].
  match goal with
  | |- context [DoWithRetryableErrorsE ?C ?desc ?re ?n ?d ?act st1] =>
      destruct (onlyEmits_DoWithRetryableErrorsE (fun _ => True) desc re n d act
                  I (onlyEmits_runAndCheck _ _ _ I) st1) as (evs & Hevs & _)
  end.
  exists evs. cbn [snd] in Ht. by rewrite Hevs, Ht, <- List.app_assoc.
Qed.

(** *** Warning errors in the retry loop *)

Lemma retryLoop_unfold (n : nat) (retryable : list Regexp.regex) (d : Z)
    (action : M World (string * option error)) (st : State World) :
  retryLoop n retryable d action st =
  let '((output, err), st1) := action st in
  match err with
  | None => ((output, None), st1)
  | Some e =>
      if existsb (fun re => Regexp.MatchString re e) retryable then
        match n with
        | O => ((output, Some e), st1)
        | S n' =>
            retryLoop n' retryable d action
              {| world := world st1; trace := trace st1 ++ [Sleep d] |}
        end
      else ((output, Some e), st1)
  end.
Proof.
  destruct n; cbn [retryLoop]; unfold bind; destruct (action st) as [[o [e|]] st1];
    try done; by destruct (existsb _ _).
Qed.

Lemma runAndCheck_warning (opts : Options) (c : Shell.Command)
    (st st1 st2 : State World) (output : string) (w : error) :
  RunCommandAndGetOutputE process c st = ((output, None), st1) ->
  hasWarning rangeOrder Compile opts output st1 = (Some w, st2) ->
  runAndCheck process rangeOrder Compile opts c st = ((output, Some w), st2).
Proof. intros H1 H2. unfold runAndCheck, bind. by rewrite H1, H2. Qed.

(** C6, as amended.  An error of the warning classifier on a successful
    execution leaves the retried action like any other error, and is
    classified by the retry loop like any other error: it is surfaced at
    once, without a retry, when no retryable-error pattern matches its
    text; when one matches, it consumes a retry: the loop pauses and
    goes on with one retry less, and surfaces the warning error only
    when no retry is left. *)
Theorem C6_warning_error_is_classified (desc : string)
    (retryableErrors : gmap string string) (d : Z)
    (retryable : list Regexp.regex) (opts : Options) (c : Shell.Command)
    (st st1 st2 : State World) (output : string) (w : error) :
  compileAll Compile (map fst (map_to_list retryableErrors)) = inl retryable ->
  RunCommandAndGetOutputE process c st = ((output, None), st1) ->
  hasWarning rangeOrder Compile opts output st1 = (Some w, st2) ->
  let call n :=
    DoWithRetryableErrorsE Compile desc retryableErrors n d
      (runAndCheck process rangeOrder Compile opts c) in
  (existsb (fun re => Regexp.MatchString re w) retryable = false ->
   forall n, call n st = ((output, Some w), st2))
  /\ (existsb (fun re => Regexp.MatchString re w) retryable = true ->
      call 0 st = ((output, Some w), st2)
      /\ forall n,
           call (S n) st
           = call n {| world := world st2; trace := trace st2 ++ [Sleep d] |}).
Proof.
  intros Hc H1 H2 call. subst call. unfold DoWithRetryableErrorsE.
  rewrite Hc. pose proof (runAndCheck_warning _ _ _ _ _ _ _ H1 H2) as Hrun.
  split; [intros Hm n|intros Hm; split; [|intros n]];
    rewrite retryLoop_unfold, Hrun; cbv zeta; by rewrite Hm.
Qed.

(** *** Stack output *)



End WrapperFacts.

(** * Further properties *)

(** ** White-space trimming, again *)

Lemma decode_width_pos (c : ascii) (s : string) :
  0 < snd (Utf8.DecodeRuneInString (String c s)).
Proof.
  cbn -[N.ltb Utf8.first].
  repeat match goal with
         | |- context [if ?b then _ else _] => destruct b
         | |- context [match ?x with _ => _ end] => destruct x
         end; cbn; lia.
Qed.

Lemma IsSpace_RuneError : Utf8.IsSpace Utf8.RuneError = false.
Proof. done. Qed.

(** A white-space rune at the head of a text is decoded from the bytes
    of its own sequence: what follows the text plays no part. *)
Lemma decode_space_prefix (p x : string) :
  Utf8.IsSpace (fst (Utf8.DecodeRuneInString p)) = true ->
  Utf8.DecodeRuneInString (p +:+ x) = Utf8.DecodeRuneInString p.
Proof.
  destruct p as [|c0 p]; [done|].
  rewrite sapp_cons. cbn -[N.ltb Utf8.first Utf8.IsSpace].
  destruct (N_of_ascii c0 <? Utf8.RuneSelf)%N; [done|].
  destruct (Utf8.first (N_of_ascii c0)) as [[[sz lo] hi]|] eqn:Hf; [|done].
  destruct p as [|c1 p]; [done|]. rewrite sapp_cons.
  destruct (negb (Utf8.between lo hi (N_of_ascii c1))); [done|].
  destruct (sz =? 2); [done|].
  destruct p as [|c2 p]; [done|]. rewrite sapp_cons.
  destruct (negb (Utf8.cont c2)); [done|].
  destruct (sz =? 3); [done|].
  destruct p as [|c3 p]; [done|]. by rewrite sapp_cons.
Qed.

Lemma leadSpace_prefix (p x : string) :
  leadSpace p = true -> leadSpace (p +:+ x) = true.
Proof.
  unfold leadSpace. intros H.
  rewrite decode_space_prefix; [done|].
  destruct (Utf8.DecodeRuneInString p) as [r size].
  by apply andb_true_iff in H as [H _].
Qed.

Lemma trimLeftSpace_suffix (n : nat) (s : string) :
  exists a, s = a +:+ Strings.trimLeftSpace n s.
Proof.
  revert s. induction n as [|n IH]; intros s; [by exists ""|].
  cbn [Strings.trimLeftSpace].
  destruct (Utf8.DecodeRuneInString s) as [r size].
  destruct (Utf8.IsSpace r && (0 <? size)); [|by exists ""].
  destruct (IH (skip size s)) as [a Ha].
  exists (keep size s +:+ a). by rewrite sapp_assoc, <- Ha, keep_skip.
Qed.

Lemma trimRightSpaceRev_suffix (n : nat) (s : string) :
  exists a, s = a +:+ Strings.trimRightSpaceRev n s.
Proof.
  revert s. induction n as [|n IH]; intros s; [by exists ""|].
  cbn [Strings.trimRightSpaceRev].
  destruct (Utf8.DecodeLastRune s) as [r size].
  destruct (Utf8.IsSpace r && (0 <? size)); [|by exists ""].
  destruct (IH (skip size s)) as [a Ha].
  exists (keep size s +:+ a). by rewrite sapp_assoc, <- Ha, keep_skip.
Qed.

Lemma TrimLeftSpace_suffix (s : string) :
  exists a, s = a +:+ Strings.TrimLeftSpace s.
Proof. apply trimLeftSpace_suffix. Qed.

Lemma TrimRightSpace_prefix (s : string) :
  exists b, s = Strings.TrimRightSpace s +:+ b.
Proof.
  unfold Strings.TrimRightSpace.
  destruct (trimRightSpaceRev_suffix (String.length s) (String.rev s)) as [a Ha].
  exists (String.rev a).
  rewrite <- srev_app_distr, <- Ha. by rewrite srev_involutive.
Qed.

(** The trimmed text is a part of the text. *)
Lemma TrimSpace_part (s : string) :
  exists a b, s = a +:+ Strings.TrimSpace s +:+ b.
Proof.
  unfold Strings.TrimSpace.
  destruct (TrimLeftSpace_suffix s) as [a Ha].
  destruct (TrimRightSpace_prefix (Strings.TrimLeftSpace s)) as [b Hb].
  exists a, b. by rewrite <- Hb.
Qed.

Lemma trimLeftSpace_done (n : nat) (s : string) :
  String.length s <= n ->
  Strings.trimLeftSpace n s = "" \/ leadSpace (Strings.trimLeftSpace n s) = false.
Proof.
  revert s. induction n as [|n IH]; intros s Hn.
  - left. cbn. apply slength_zero. lia.
  - cbn [Strings.trimLeftSpace]. unfold leadSpace at 1.
    destruct (Utf8.DecodeRuneInString s) as [r size] eqn:Hd.
    destruct (Utf8.IsSpace r && (0 <? size)) eqn:E.
    + apply IH. rewrite skip_length.
      apply andb_true_iff in E as [_ E]. apply Nat.ltb_lt in E. lia.
    + right. unfold leadSpace. by rewrite Hd.
Qed.

Lemma trimRightSpaceRev_done (n : nat) (s : string) :
  String.length s <= n ->
  Strings.trimRightSpaceRev n s = ""
  \/ trailSpace (Strings.trimRightSpaceRev n s) = false.
Proof.
  revert s. induction n as [|n IH]; intros s Hn.
  - left. cbn. apply slength_zero. lia.
  - cbn [Strings.trimRightSpaceRev].
    destruct (Utf8.DecodeLastRune s) as [r size] eqn:Hd.
    destruct (Utf8.IsSpace r && (0 <? size)) eqn:E.
    + apply IH. rewrite skip_length.
      apply andb_true_iff in E as [_ E]. apply Nat.ltb_lt in E. lia.
    + right. unfold trailSpace. by rewrite Hd.
Qed.

(** What [strings.TrimSpace] returns has no white space left at either
    end: trimming it again changes nothing. *)
Lemma TrimSpace_idempotent (s : string) :
  Strings.TrimSpace (Strings.TrimSpace s) = Strings.TrimSpace s.
Proof.
  apply TrimSpace_fixed.
  destruct (string_dec (Strings.TrimSpace s) "") as [|Hne]; [by left|right].
  unfold Strings.TrimSpace in *. set (t := Strings.TrimLeftSpace s) in *.
  split.
  - destruct (leadSpace (Strings.TrimRightSpace t)) eqn:E; [|done]. exfalso.
    destruct (TrimRightSpace_prefix t) as [b Hb].
    apply (leadSpace_prefix _ b) in E. rewrite <- Hb in E.
    destruct (trimLeftSpace_done (String.length s) s) as [H|H]; [done| |].
    + fold (Strings.TrimLeftSpace s) in H. fold t in H. rewrite H in Hne.
      by vm_compute in Hne.
    + fold (Strings.TrimLeftSpace s) in H. fold t in H. congruence.
  - unfold Strings.TrimRightSpace. rewrite srev_involutive.
    destruct (trimRightSpaceRev_done (String.length t) (String.rev t)) as [H|H].
    + by rewrite srev_length.
    + unfold Strings.TrimRightSpace in Hne. rewrite H in Hne. done.
    + done.
Qed.

(** ** Lines, again *)

Lemma NL_app (x : string) : NL +:+ x = String LF x.
Proof. done. Qed.

Lemma Contains_NL_cons (c : ascii) (s : string) :
  Strings.Contains (String c s) NL
  = if ascii_dec LF c then true else Strings.Contains s NL.
Proof.
  cbn [Strings.Contains]. unfold NL at 1. cbn [String.prefix].
  destruct (ascii_dec LF c); [|done]. by destruct s.
Qed.

Lemma oneLine_cons (c : ascii) (s : string) :
  oneLine (String c s) <-> c <> LF /\ oneLine s.
Proof.
  unfold oneLine. rewrite Contains_NL_cons.
  destruct (ascii_dec LF c) as [<-|Hc]; [by split; [|intros [? _]]|].
  split; [by intros ?; split; [intros ->|]|by intros [_ ?]].
Qed.

Lemma oneLine_nil : oneLine "".
Proof. done. Qed.

Lemma oneLine_part (s line : string) :
  oneLine s -> (exists a b, s = a +:+ line +:+ b) -> oneLine line.
Proof. apply Contains_part. Qed.

Lemma splitOn_NL_oneLine (s : string) : Forall oneLine (Strings.splitOn NL 0 s).
Proof.
  induction s as [|c s IH]; [by repeat constructor|].
  rewrite splitOn_NL_cons. destruct (ascii_dec LF c) as [|Hc].
  - by constructor.
  - destruct (Strings.splitOn NL 0 s) as [|h t]; cbn [Strings.consHead].
    + repeat constructor. by apply oneLine_cons.
    + apply Forall_cons in IH as [Hh Ht]. constructor; [|done].
      by apply oneLine_cons.
Qed.

(** No line of a text holds a newline. *)
Lemma Split_NL_oneLine (s : string) : Forall oneLine (Strings.Split s NL).
Proof. apply splitOn_NL_oneLine. Qed.

Lemma splitOn_oneLine (l : string) :
  oneLine l -> Strings.splitOn NL 0 l = [l].
Proof.
  induction l as [|c l IH]; [done|]. intros [Hc Hl]%oneLine_cons.
  rewrite splitOn_NL_cons. destruct (ascii_dec LF c); [done|].
  by rewrite IH.
Qed.

Lemma splitOn_app_NL (l x : string) :
  oneLine l ->
  Strings.splitOn NL 0 (l +:+ String LF x) = l :: Strings.splitOn NL 0 x.
Proof.
  induction l as [|c l IH].
  - intros _. rewrite sapp_nil_l, splitOn_NL_cons. by destruct (ascii_dec LF LF).
  - intros [Hc Hl]%oneLine_cons. rewrite sapp_cons, splitOn_NL_cons.
    destruct (ascii_dec LF c); [done|]. by rewrite IH.
Qed.

(** Splitting what was joined gives the lines back, when none of them
    holds a newline. *)
Lemma Split_Join_NL (ls : list string) :
  ls <> [] -> Forall oneLine ls -> Strings.Split (Strings.Join ls NL) NL = ls.
Proof.
  change (Strings.Split (Strings.Join ls NL) NL)
    with (Strings.splitOn NL 0 (Strings.Join ls NL)).
  induction ls as [|l ls IH]; [done|]. intros _ [Hl Hls]%Forall_cons.
  destruct ls as [|l' ls]; [by apply splitOn_oneLine|].
  rewrite Join_cons2, NL_app.
  rewrite splitOn_app_NL by done. f_equal. by apply IH.
Qed.

Lemma occurrence_head (w b l x : string) :
  oneLine w -> w +:+ b = l +:+ String LF x -> exists b', l = w +:+ b'.
Proof.
  revert l. induction w as [|c w IH]; intros l Hw; [by exists l|].
  apply oneLine_cons in Hw as [Hc Hw]. rewrite sapp_cons.
  destruct l as [|c' l].
  - rewrite sapp_nil_l. by intros [= -> _].
  - rewrite sapp_cons. intros [= -> H]. destruct (IH _ Hw H) as [b' ->].
    by exists b'.
Qed.

(** An occurrence of a one-line text in two texts joined by a newline
    lies in one of the two. *)
Lemma occurrence_split (a w b l x : string) :
  oneLine w -> a +:+ w +:+ b = l +:+ String LF x ->
  (exists b', l = a +:+ w +:+ b') \/ (exists a', x = a' +:+ w +:+ b).
Proof.
  intros Hw. revert l. induction a as [|c a IH]; intros l.
  - rewrite sapp_nil_l. intros H. left.
    destruct (occurrence_head _ _ _ _ Hw H) as [b' ->]. by exists b'.
  - rewrite sapp_cons. destruct l as [|c' l].
    + rewrite sapp_nil_l. intros [= -> <-]. right. by exists a.
    + rewrite sapp_cons. intros [= -> H].
      destruct (IH _ H) as [[b' ->]|[a' ->]]; [left; by exists b'|right; by exists a'].
Qed.

(** A one-line text found in joined lines is found in one of them. *)
Lemma Contains_Join (ls : list string) (w : string) :
  oneLine w -> ls <> [] ->
  Strings.Contains (Strings.Join ls NL) w = true ->
  exists l, l ∈ ls /\ Strings.Contains l w = true.
Proof.
  intros Hw. induction ls as [|l ls IH]; [done|]. intros _.
  destruct ls as [|l' ls].
  { intros H. exists l. split; [by left|done]. }
  rewrite Join_cons2, NL_app.
  intros (a & b & H)%Contains_spec. symmetry in H.
  apply (occurrence_split _ _ _ _ _ Hw) in H as [[b' ->]|[a' H]].
  - exists (a +:+ w +:+ b'). split; [by left|].
    apply Contains_spec. by exists a, b'.
  - destruct IH as (l0 & Hin & Hl0); [done| |].
    + apply Contains_spec. by exists a', b.
    + exists l0. split; [by right|done].
Qed.

(** ** The cleaning loop *)

Lemma keptLines_app (xs ys : list string) :
  keptLines (xs ++ ys) = keptLines xs ++ keptLines ys.
Proof.
  unfold keptLines. set (F := fun (_ : list string) (_ : string) => _).
  assert (forall ls acc, fold_left F ls acc = acc ++ fold_left F ls []) as Hacc.
  { induction ls as [|l ls IH]; intros acc; [by rewrite app_nil_r|].
    cbn [fold_left]. rewrite (IH (F acc l)), (IH (F [] l)).
    unfold F. destruct (_ && _); [|done]. by rewrite <- List.app_assoc. }
  by rewrite fold_left_app, Hacc.
Qed.

Lemma keptLines_cons (l : string) (ls : list string) :
  keptLines (l :: ls)
  = (if keeps l then [Strings.TrimSpace l] else []) ++ keptLines ls.
Proof.
  change (l :: ls) with ([l] ++ ls). by rewrite keptLines_app.
Qed.

Lemma keptLines_filter (lines : list string) :
  keptLines lines = map Strings.TrimSpace (filter (fun l => keeps l = true) lines).
Proof.
  induction lines as [|l ls IH]; [done|].
  rewrite keptLines_cons, filter_cons, IH.
  destruct (keeps l) eqn:E.
  - by rewrite decide_True.
  - by rewrite decide_False.
Qed.

Lemma cleanLine_TrimSpace (l : string) :
  keeps l = true -> cleanLine (Strings.TrimSpace l).
Proof.
  unfold keeps. intros [Hne Hmsg]%andb_true_iff.
  apply negb_true_iff in Hne, Hmsg. apply String.eqb_neq in Hne.
  repeat split; [done|apply TrimSpace_idempotent|].
  eapply Contains_part; [apply Hmsg|apply TrimSpace_part].
Qed.

(** What the loop keeps is not blank, has no white space at either end
    and holds no [ msg=]. *)
Lemma keptLines_cleanLine (lines : list string) :
  Forall cleanLine (keptLines lines).
Proof.
  induction lines as [|l ls IH]; [constructor|].
  rewrite keptLines_cons. destruct (keeps l) eqn:E; [|done].
  constructor; [by apply cleanLine_TrimSpace|done].
Qed.

Lemma keptLines_oneLine (lines : list string) :
  Forall oneLine lines -> Forall oneLine (keptLines lines).
Proof.
  induction lines as [|l ls IH]; [constructor|].
  intros [Hl Hls]%Forall_cons. rewrite keptLines_cons.
  destruct (keeps l); [|by apply IH].
  constructor; [|by apply IH].
  eapply oneLine_part; [apply Hl|apply TrimSpace_part].
Qed.

(** The kept lines are kept, as they are, when they are cleaned again. *)
Lemma keptLines_idempotent (lines : list string) :
  keptLines (keptLines lines) = keptLines lines.
Proof. apply keptLines_clean, keptLines_cleanLine. Qed.

(** ** The log pattern on one line *)

Lemma decode_not_newline (c : ascii) (s : string) :
  c <> LF -> fst (Utf8.DecodeRuneInString (String c s)) <> 10%N.
Proof.
  intros Hc H. pose proof (decode_width_pos c s) as Hw.
  destruct (Utf8.DecodeRuneInString (String c s)) as [r w] eqn:Hd.
  cbn [fst snd] in *. subst r.
  apply decode_value_ascii in Hd as (s0 & [= Hs _] & _); [|done|done].
  by apply Hc.
Qed.

Lemma rmatch_Dot (c : ascii) (s : string) (k : string -> option string) :
  c <> LF ->
  Regexp.rmatch Regexp.Dot (String c s) k
  = k (skip (snd (Utf8.DecodeRuneInString (String c s))) (String c s)).
Proof.
  intros Hc. pose proof (decode_not_newline c s Hc) as Hr.
  unfold Regexp.Dot. cbn [Regexp.rmatch].
  destruct (Utf8.DecodeRuneInString (String c s)) as [r w]. cbn [fst snd] in *.
  unfold Regexp.inClass, Utf8.between. cbn [existsb].
  destruct (N.leb_spec 10 r), (N.leb_spec r 10); try done. lia.
Qed.

Lemma rmatch_Dot_newline (s : string) (k : string -> option string) :
  Regexp.rmatch Regexp.Dot (String LF s) k = None.
Proof.
  unfold Regexp.Dot. cbn [Regexp.rmatch].
  by rewrite decode_ascii by apply isASCII_LF.
Qed.

Lemma skip_shorter (c : ascii) (s : string) :
  String.length (skip (snd (Utf8.DecodeRuneInString (String c s))) (String c s))
  <= String.length s.
Proof.
  pose proof (decode_width_pos c s). rewrite skip_length. cbn [String.length]. lia.
Qed.

(** One round of the loop of [.*] on a text that does not begin with a
    newline. *)
Lemma dotStar_step (k : string -> option string) (fuel : nat)
    (c : ascii) (s : string) :
  c <> LF ->
  Regexp.starLoop (Regexp.rmatch Regexp.Dot) k (S fuel) (String c s)
  = match
      Regexp.starLoop (Regexp.rmatch Regexp.Dot) k fuel
        (skip (snd (Utf8.DecodeRuneInString (String c s))) (String c s))
    with
    | Some out => Some out
    | None => k (String c s)
    end.
Proof.
  intros Hc. cbn [Regexp.starLoop]. rewrite rmatch_Dot by done.
  pose proof (skip_shorter c s) as Hs.
  destruct (Nat.ltb_spec
              (String.length
                 (skip (snd (Utf8.DecodeRuneInString (String c s))) (String c s)))
              (String.length (String c s))) as [|Hge]; [done|].
  cbn [String.length] in Hge. lia.
Qed.

Lemma dotStar_stop (k : string -> option string) (fuel : nat) (s : string) :
  s = "" \/ (exists s', s = String LF s') ->
  Regexp.starLoop (Regexp.rmatch Regexp.Dot) k fuel s = k s.
Proof.
  intros H. destruct fuel as [|fuel]; [done|]. cbn [Regexp.starLoop].
  destruct H as [->|[s' ->]]; [done|]. by rewrite rmatch_Dot_newline.
Qed.

(** The length of the text is fuel enough for the loop of [.*]. *)
Lemma dotStar_fuel (k : string -> option string) (f1 f2 : nat) (s : string) :
  String.length s <= f1 -> String.length s <= f2 ->
  Regexp.starLoop (Regexp.rmatch Regexp.Dot) k f1 s
  = Regexp.starLoop (Regexp.rmatch Regexp.Dot) k f2 s.
Proof.
  revert f2 s. induction f1 as [|f1 IH]; intros f2 s H1 H2.
  - assert (s = "") as -> by (apply slength_zero; lia).
    by rewrite !dotStar_stop by auto.
  - destruct s as [|c s]; [by rewrite !dotStar_stop by auto|].
    destruct (ascii_dec c LF) as [->|Hc]; [by rewrite !dotStar_stop by eauto|].
    destruct f2 as [|f2]; [cbn in H2; lia|].
    rewrite !dotStar_step by done.
    pose proof (skip_shorter c s). cbn [String.length] in H1, H2.
    by rewrite (IH f2) by lia.
Qed.

(** On one line [.*] runs to the end. *)
Lemma dotStar_all (fuel : nat) (l : string) :
  oneLine l -> String.length l <= fuel ->
  Regexp.starLoop (Regexp.rmatch Regexp.Dot) Some fuel l = Some "".
Proof.
  revert l. induction fuel as [|fuel IH]; intros l Hl Hf.
  - assert (l = "") as -> by (apply slength_zero; lia). done.
  - destruct l as [|c s]; [done|].
    pose proof Hl as [Hc _]%oneLine_cons.
    rewrite dotStar_step by done. rewrite IH; [done| |].
    + eapply oneLine_part; [apply Hl|].
      exists (keep (snd (Utf8.DecodeRuneInString (String c s))) (String c s)), "".
      by rewrite sapp_nil_r, keep_skip.
    + pose proof (skip_shorter c s). cbn [String.length] in Hf. lia.
Qed.

(** A match of a pattern that ends with [.*] ends where the line ends. *)
Lemma rmatch_to_end (r : Regexp.regex) :
  endsOpen r = true ->
  forall l rest, oneLine l -> Regexp.rmatch r l Some = Some rest -> rest = "".
Proof.
  induction r as [|neg rs|r1 IH1 r2 IH2|r1 IH1 r2 IH2|r1 IH1];
    cbn [endsOpen]; try done; intros He l rest Hl.
  - cbn [Regexp.rmatch]. intros H.
    apply rmatch_consumed in H as (m & s' & -> & _ & H).
    apply (IH2 He s'); [|done].
    eapply oneLine_part; [apply Hl|]. exists m, "". by rewrite sapp_nil_r.
  - destruct r1 as [|neg rs| | |]; try done.
    destruct neg; [|done]. destruct rs as [|[lo hi] [|]]; try done.
    apply andb_true_iff in He as [->%N.eqb_eq ->%N.eqb_eq].
    cbn [Regexp.rmatch]. fold Regexp.Dot.
    rewrite dotStar_all by done. by intros [= <-].
Qed.

(** A pattern that begins with [.*] and matches from the second rune of
    a line matches from its first. *)
Lemma matchAt_earlier (r : Regexp.regex) (c : ascii) (s : string) (n : nat) :
  startsOpen r = true -> c <> LF ->
  Regexp.matchAt r (skip (snd (Utf8.DecodeRuneInString (String c s))) (String c s))
  = Some n ->
  exists n', Regexp.matchAt r (String c s) = Some n'.
Proof.
  destruct r as [| |r1 r2| |]; try done.
  destruct r1 as [| | | |r1]; try done.
  destruct r1 as [|neg rs| | |]; try done.
  destruct neg; [|done]. destruct rs as [|[lo hi] [|]]; try done.
  cbn [startsOpen]. intros [->%N.eqb_eq ->%N.eqb_eq]%andb_true_iff Hc.
  unfold Regexp.matchAt. cbn [Regexp.rmatch]. fold Regexp.Dot.
  cbn [String.length]. rewrite dotStar_step by done.
  pose proof (skip_shorter c s) as Hs.
  set (x := skip _ _) in *.
  rewrite (dotStar_fuel _ (String.length s) (String.length x)) by lia.
  destruct (Regexp.starLoop _ _ _ x) as [rest|]; [|done]. intros _. eauto.
Qed.

Lemma oneLine_skip (n : nat) (l : string) : oneLine l -> oneLine (skip n l).
Proof.
  intros Hl. eapply oneLine_part; [apply Hl|].
  exists (keep n l), "". by rewrite sapp_nil_r, keep_skip.
Qed.

Lemma searchFrom_line (r : Regexp.regex) (fuel : nat) :
  startsOpen r = true ->
  forall l off a0 n,
    oneLine l -> Regexp.searchFrom fuel r l off = Some (a0, n) ->
    exists n', Regexp.matchAt r l = Some n'.
Proof.
  intros Hr. induction fuel as [|fuel IH]; intros l off a0 n Hl; [done|].
  cbn [Regexp.searchFrom]. destruct (Regexp.matchAt r l) as [n'|] eqn:E; [eauto|].
  destruct l as [|c s]; [done|]. intros H.
  apply IH in H as [n' H]; [|by apply oneLine_skip].
  pose proof Hl as [Hc _]%oneLine_cons.
  destruct (matchAt_earlier r c s n' Hr Hc H) as [n'' H']. congruence.
Qed.

Lemma startsOpen_tgLogLevel : startsOpen tgLogLevel = true.
Proof. vm_compute. reflexivity. Qed.

Lemma endsOpen_tgLogLevel : endsOpen tgLogLevel = true.
Proof. vm_compute. reflexivity. Qed.

Lemma logLine_MatchString (l : string) :
  logLine l -> Regexp.MatchString tgLogLevel l = true.
Proof.
  unfold logLine, Regexp.MatchString, Regexp.doExecute. intros H.
  rewrite skip_0. cbn [Regexp.searchFrom]. by rewrite H.
Qed.

(** On one line the log pattern matches the whole line or nothing. *)
Lemma whole_line (l : string) :
  oneLine l -> Regexp.MatchString tgLogLevel l = true -> logLine l.
Proof.
  intros Hl. unfold Regexp.MatchString, Regexp.doExecute.
  destruct (Regexp.searchFrom _ _ _ _) as [[a0 n]|] eqn:E; [|done]. intros _.
  rewrite skip_0 in E.
  apply (searchFrom_line _ _ startsOpen_tgLogLevel) in E as [n' E]; [|done].
  unfold logLine. rewrite E. f_equal.
  unfold Regexp.matchAt in E.
  destruct (Regexp.rmatch tgLogLevel l Some) as [rest|] eqn:Hm; [|done].
  apply (rmatch_to_end _ endsOpen_tgLogLevel) in Hm as ->; [|done].
  injection E as <-. cbn [String.length]. lia.
Qed.

(** ** The replacement of the log pattern, line by line *)

(** The length of the text, and one more, is fuel enough for the search. *)
Lemma searchFrom_fuel (r : Regexp.regex) (f1 f2 : nat) (s : string) (off : nat) :
  String.length s < f1 -> String.length s < f2 ->
  Regexp.searchFrom f1 r s off = Regexp.searchFrom f2 r s off.
Proof.
  revert f2 s off. induction f1 as [|f1 IH]; intros f2 s off H1 H2; [lia|].
  destruct f2 as [|f2]; [lia|]. cbn [Regexp.searchFrom].
  destruct (Regexp.matchAt r s); [done|]. destruct s as [|c s]; [done|].
  pose proof (skip_shorter c s). cbn [String.length] in H1, H2.
  apply IH; lia.
Qed.

Lemma searchFrom_next (fuel : nat) (r : Regexp.regex) (c : ascii) (s : string)
    (off : nat) :
  Regexp.matchAt r (String c s) = None ->
  Regexp.searchFrom (S fuel) r (String c s) off
  = Regexp.searchFrom fuel r
      (skip (snd (Utf8.DecodeRuneInString (String c s))) (String c s))
      (off + snd (Utf8.DecodeRuneInString (String c s))).
Proof. intros H. cbn [Regexp.searchFrom]. by rewrite H. Qed.

Lemma doExecute_at (r : Regexp.regex) (D Y : string) :
  Regexp.doExecute r (D +:+ Y) (String.length D)
  = match Regexp.searchFrom (S (String.length Y)) r Y (String.length D) with
    | Some (a0, n) => Some (a0, a0 + n)
    | None => None
    end.
Proof.
  unfold Regexp.doExecute. rewrite skip_app_length, slength_app.
  by replace (String.length D + String.length Y - String.length D)
    with (String.length Y) by lia.
Qed.

Lemma miss_search (l : string) :
  Regexp.MatchString tgLogLevel l = false ->
  Regexp.searchFrom (S (String.length l)) tgLogLevel l 0 = None.
Proof.
  unfold Regexp.MatchString, Regexp.doExecute.
  rewrite skip_0, Nat.sub_0_r. by destruct (Regexp.searchFrom _ _ _ _) as [[??]|].
Qed.

(** The search passes over a line in which the pattern matches nowhere. *)
Lemma searchFrom_miss (n : nat) :
  forall (l x : string) (off f : nat),
    String.length l <= n ->
    Regexp.searchFrom (S (String.length l)) tgLogLevel l 0 = None ->
    String.length (l +:+ String LF x) < f ->
    Regexp.searchFrom f tgLogLevel (l +:+ String LF x) off
    = Regexp.searchFrom (S (String.length x)) tgLogLevel x
        (off + String.length l + 1).
Proof.
  induction n as [|n IH]; intros l x off f Hn Hl Hf.
  - assert (l = "") as -> by (apply slength_zero; lia).
    rewrite sapp_nil_l in *. destruct f as [|f]; [lia|].
    rewrite searchFrom_newline. cbn [String.length] in *.
    rewrite Nat.add_0_r. apply searchFrom_fuel; lia.
  - destruct l as [|c s].
    { rewrite sapp_nil_l in *. destruct f as [|f]; [lia|].
      rewrite searchFrom_newline. cbn [String.length] in *.
      rewrite Nat.add_0_r. apply searchFrom_fuel; lia. }
    destruct f as [|f]; [lia|].
    assert (Regexp.matchAt tgLogLevel (String c s) = None) as Hnone.
    { cbn [Regexp.searchFrom] in Hl. by destruct (Regexp.matchAt _ _). }
    rewrite (searchFrom_next _ _ _ _ _ Hnone) in Hl.
    rewrite sapp_cons, searchFrom_next;
      [|by rewrite <- sapp_cons, matchAt_before_newline
          by apply nlfree_tgLogLevel].
    rewrite <- (sapp_cons c s (String LF x)).
    rewrite decode_local by (done || apply isASCII_LF).
    pose proof (decode_width_le (String c s)) as Hw.
    pose proof (decode_width_pos c s) as Hp.
    set (w := snd (Utf8.DecodeRuneInString (String c s))) in *.
    rewrite skip_app_le by done.
    assert (String.length (skip w (String c s)) = String.length (String c s) - w)
      as Hlen by apply skip_length.
    cbn [String.length] in Hn, Hw, Hlen, Hf.
    rewrite (IH (skip w (String c s)) x (off + w) f).
    + f_equal. rewrite Hlen. clearbody w. cbn [String.length]. lia.
    + lia.
    + apply (searchFrom_none_off _ _ _ _ 0) in Hl.
      rewrite <- Hl. apply searchFrom_fuel; cbn [String.length]; lia.
    + rewrite slength_app in *. cbn [String.length] in *. lia.
Qed.

Lemma doExecute_miss (D l X : string) :
  Regexp.MatchString tgLogLevel l = false ->
  Regexp.doExecute tgLogLevel (D +:+ l +:+ String LF X) (String.length D)
  = Regexp.doExecute tgLogLevel ((D +:+ l +:+ NL) +:+ X)
      (String.length (D +:+ l +:+ NL)).
Proof.
  intros Hl%miss_search. rewrite !doExecute_at.
  rewrite (searchFrom_miss (String.length l) l X) by (done || lia).
  rewrite !slength_app. change (String.length NL) with 1.
  by rewrite Nat.add_assoc.
Qed.

Lemma doExecute_miss_last (D l : string) :
  Regexp.MatchString tgLogLevel l = false ->
  Regexp.doExecute tgLogLevel (D +:+ l) (String.length D) = None.
Proof.
  intros Hl%miss_search. rewrite doExecute_at.
  by rewrite (searchFrom_none_off _ _ _ 0 (String.length D) Hl).
Qed.

Lemma doExecute_hit_last (D l : string) :
  logLine l ->
  Regexp.doExecute tgLogLevel (D +:+ l) (String.length D)
  = Some (String.length D, String.length D + String.length l).
Proof.
  intros Hl. rewrite doExecute_at. cbn [Regexp.searchFrom]. by rewrite Hl.
Qed.

Lemma doExecute_newline (D X : string) :
  Regexp.doExecute tgLogLevel (D +:+ NL +:+ X) (String.length D)
  = Regexp.doExecute tgLogLevel ((D +:+ NL) +:+ X) (String.length (D +:+ NL)).
Proof.
  pose proof (doExecute_miss D "" X) as H.
  rewrite !sapp_nil_l in H. rewrite NL_app. apply H. by vm_compute.
Qed.

Lemma slice_mid (a b c : string) :
  slice (String.length a) (String.length a + String.length b) (a +:+ b +:+ c) = b.
Proof.
  unfold slice. rewrite skip_app_length.
  replace (String.length a + String.length b - String.length a)
    with (String.length b) by lia.
  apply keep_app_length.
Qed.

(** At the end of the text the loop has nothing left to copy. *)
Lemma replaceAll_at_end (fuel : nat) (src buf : string) :
  Regexp.replaceAll fuel tgLogLevel src "" (String.length src) (String.length src) buf
  = buf.
Proof.
  destruct fuel as [|fuel].
  - cbn [Regexp.replaceAll]. by rewrite skip_all, sapp_nil_r.
  - rewrite replaceAll_stop; [by rewrite skip_all, sapp_nil_r|].
    pose proof (doExecute_miss_last src "") as H.
    rewrite sapp_nil_r in H. apply H. by vm_compute.
Qed.

Lemma passed_nil (done : string) : passed done "".
Proof.
  split; [|by left]. intros X. by rewrite sapp_nil_l, sapp_nil_r.
Qed.

Lemma passed_newline (done : string) : passed done NL.
Proof.
  split; [apply doExecute_newline|]. right. intros X.
  rewrite NL_app, decode_ascii by apply isASCII_LF. done.
Qed.

Lemma passed_miss (done pend l : string) :
  passed done pend -> Regexp.MatchString tgLogLevel l = false ->
  passed done (pend +:+ l +:+ NL).
Proof.
  intros [Hs Hw] Hl. split.
  - intros X. rewrite !sapp_assoc, NL_app.
    rewrite (Hs (l +:+ String LF X)).
    rewrite doExecute_miss by done. by rewrite !sapp_assoc.
  - right. intros X. destruct Hw as [->|Hw].
    + rewrite !sapp_nil_l, sapp_assoc, NL_app.
      destruct l as [|c l].
      * rewrite sapp_nil_l, decode_ascii by apply isASCII_LF. done.
      * rewrite decode_local by (done || apply isASCII_LF).
        pose proof (decode_width_le (String c l)).
        rewrite slength_app. lia.
    + rewrite !sapp_assoc. etrans; [apply Hw|]. rewrite slength_app. lia.
Qed.

Lemma blanked_miss (l : string) :
  Regexp.MatchString tgLogLevel l = false -> blanked l = l.
Proof. unfold blanked. by intros ->. Qed.

Lemma blanked_hit (l : string) :
  Regexp.MatchString tgLogLevel l = true -> blanked l = "".
Proof. unfold blanked. by intros ->. Qed.

Lemma replaceAll_hit (fuel : nat) (done pend l rest buf : string) :
  passed done pend -> logLine l ->
  Regexp.doExecute tgLogLevel ((done +:+ pend) +:+ l +:+ rest)
    (String.length (done +:+ pend))
  = Some (String.length (done +:+ pend),
          String.length (done +:+ pend) + String.length l) ->
  (rest = "" \/ exists x, rest = String LF x) ->
  Regexp.replaceAll (S fuel) tgLogLevel (done +:+ pend +:+ l +:+ rest) ""
    (String.length done) (String.length done) buf
  = Regexp.replaceAll fuel tgLogLevel (done +:+ pend +:+ l +:+ rest) ""
      (String.length (done +:+ pend +:+ l)) (String.length (done +:+ pend +:+ l))
      (buf +:+ pend).
Proof.
  intros [Hs Hw] Hl Hd Hrest.
  pose proof (logLine_nonempty l Hl) as Hne.
  assert (0 < String.length l) as Hpos by (destruct l; [done|cbn; lia]).
  rewrite (replaceAll_step fuel tgLogLevel _ _ _ _
             (String.length (done +:+ pend))
             (String.length (done +:+ pend) + String.length l)).
  - replace (String.length (done +:+ pend +:+ l))
      with (String.length (done +:+ pend) + String.length l)
      by (rewrite !slength_app; lia).
    rewrite (slength_app done pend) at 3.
    by rewrite slice_mid.
  - rewrite !slength_app. lia.
  - rewrite Hs. by rewrite !sapp_assoc in *.
  - rewrite skip_app_length, !slength_app.
    destruct Hw as [->|Hw].
    + rewrite sapp_nil_l. cbn [String.length].
      destruct Hrest as [->|[x ->]].
      * rewrite sapp_nil_r. pose proof (decode_width_le l). lia.
      * rewrite decode_local by (done || apply isASCII_LF).
        pose proof (decode_width_le l). lia.
    + specialize (Hw (l +:+ rest)). lia.
  - rewrite !slength_app. lia.
Qed.

(** The loop of the replacement, standing before the lines [ls]: the
    lines in which the log pattern matches leave an empty line, the
    others are copied. *)
Lemma replaceAll_lines (ls : list string) :
  ls <> [] -> Forall oneLine ls ->
  forall (done pend buf : string) (fuel : nat),
    passed done pend -> length ls <= fuel ->
    Regexp.replaceAll fuel tgLogLevel (done +:+ pend +:+ Strings.Join ls NL) ""
      (String.length done) (String.length done) buf
    = buf +:+ pend +:+ Strings.Join (map blanked ls) NL.
Proof.
  induction ls as [|l ls IH]; [done|]. intros _ [Hl Hls]%Forall_cons.
  intros done pend buf fuel Hp Hfuel.
  destruct (Regexp.MatchString tgLogLevel l) eqn:Hm.
  - (* a structured log line *)
    pose proof (whole_line l Hl Hm) as Hlog.
    destruct fuel as [|fuel]; [cbn in Hfuel; lia|].
    destruct ls as [|l' ls].
    + change (Strings.Join [l] NL) with l. cbn [map].
      rewrite blanked_hit by done.
      change (Strings.Join [""] NL) with "". rewrite sapp_nil_r.
      pose proof (replaceAll_hit fuel done pend l "" buf Hp Hlog) as H.
      rewrite !sapp_nil_r in H. rewrite H; [|by apply doExecute_hit_last|by left].
      rewrite <- !sapp_assoc. apply replaceAll_at_end.
    + rewrite Join_cons2, NL_app. cbn [map]. rewrite blanked_hit by done.
      rewrite replaceAll_hit; [|done|done| |by eauto].
      2:{ by apply doExecute_hit. }
      specialize (IH ltac:(done) Hls (done +:+ pend +:+ l) NL (buf +:+ pend) fuel).
      rewrite <- NL_app. rewrite !sapp_assoc in IH.
      rewrite IH; [|apply passed_newline|cbn in Hfuel |- *; lia].
      cbn [map]. rewrite Join_cons2. by rewrite sapp_nil_l, ?sapp_assoc.
  - (* no match in the line *)
    destruct ls as [|l' ls].
    + change (Strings.Join [l] NL) with l. cbn [map].
      rewrite blanked_miss by done. change (Strings.Join [l] NL) with l.
      destruct Hp as [Hs _].
      destruct fuel as [|fuel].
      * cbn [Regexp.replaceAll]. by rewrite skip_app_length.
      * rewrite replaceAll_stop; [by rewrite skip_app_length|].
        rewrite Hs. by apply doExecute_miss_last.
    + rewrite Join_cons2. cbn [map]. rewrite blanked_miss by done.
      rewrite Join_cons2.
      specialize (IH ltac:(done) Hls done (pend +:+ l +:+ NL) buf fuel).
      rewrite !sapp_assoc in IH. rewrite IH; [done| |cbn in Hfuel |- *; lia].
      rewrite <- !sapp_assoc. rewrite sapp_assoc. by apply passed_miss.
Qed.

Lemma splitOn_NL_length (s : string) :
  length (Strings.splitOn NL 0 s) <= String.length s + 1.
Proof.
  induction s as [|c s IH]; [done|]. rewrite splitOn_NL_cons.
  destruct (ascii_dec LF c); cbn [length String.length].
  - lia.
  - destruct (Strings.splitOn NL 0 s); cbn [Strings.consHead length] in *; lia.
Qed.

(** [ReplaceAllString] with the log pattern and the empty replacement
    works line by line: a line in which the pattern matches is emptied,
    every other line is left as it is. *)
Lemma ReplaceAllString_lines (rawOutput : string) :
  Regexp.ReplaceAllString tgLogLevel rawOutput ""
  = Strings.Join (map blanked (Strings.Split rawOutput NL)) NL.
Proof.
  unfold Regexp.ReplaceAllString.
  pose proof (replaceAll_lines (Strings.Split rawOutput NL)
                (Split_NL_nonempty rawOutput) (Split_NL_oneLine rawOutput)
                "" "" "" (String.length rawOutput + 2) (passed_nil "")) as H.
  rewrite !sapp_nil_l, Join_Split_NL in H. apply H.
  pose proof (splitOn_NL_length rawOutput).
  change (Strings.Split rawOutput NL) with (Strings.splitOn NL 0 rawOutput). lia.
Qed.

(** ** What the cleaning keeps *)

Lemma match_contains (w s : string) :
  mustHave w tgLogLevel = true ->
  Regexp.MatchString tgLogLevel s = true -> Strings.Contains s w = true.
Proof.
  intros Hw. unfold Regexp.MatchString, Regexp.doExecute.
  destruct (Regexp.searchFrom _ _ _ _) as [[a0 n]|] eqn:E; [|done]. intros _.
  apply searchFrom_part in E as (pre & x & Hx & E).
  unfold Regexp.matchAt in E.
  destruct (Regexp.rmatch tgLogLevel x Some) as [rest|] eqn:Hr; [|done].
  apply rmatch_consumed in Hr as (m & s' & -> & Hm & _).
  apply (mustHave_sound w) in Hm; [|done].
  apply Contains_spec in Hm as (a & b & ->).
  apply Contains_spec. rewrite skip_0 in Hx. rewrite Hx.
  exists (pre +:+ a), (b +:+ s'). by rewrite !sapp_assoc.
Qed.

Lemma keeps_blanked (l : string) :
  keeps (blanked l) = keeps l
  /\ (keeps l = true -> blanked l = l).
Proof.
  unfold blanked. destruct (Regexp.MatchString tgLogLevel l) eqn:Hm; [|done].
  apply (match_contains " msg=") in Hm; [|by vm_compute].
  unfold keeps. rewrite Hm. by rewrite andb_false_r.
Qed.

Lemma keptLines_blanked (ls : list string) :
  keptLines (map blanked ls) = keptLines ls.
Proof.
  induction ls as [|l ls IH]; [done|]. cbn [map].
  rewrite !keptLines_cons, IH. destruct (keeps_blanked l) as [-> Hb].
  destruct (keeps l); [|done]. by rewrite Hb.
Qed.

Lemma oneLine_blanked (ls : list string) :
  Forall oneLine ls -> Forall oneLine (map blanked ls).
Proof.
  intros H. apply Forall_map. eapply Forall_impl; [apply H|].
  intros l Hl. cbn. unfold blanked. by destruct (Regexp.MatchString _ _).
Qed.

(** The lines the loop keeps after the replacement are the lines it
    keeps of the raw output. *)
Lemma keptLines_raw (rawOutput : string) :
  keptLines (Strings.Split (Regexp.ReplaceAllString tgLogLevel rawOutput "") NL)
  = keptLines (Strings.Split rawOutput NL).
Proof.
  rewrite ReplaceAllString_lines, Split_Join_NL.
  - apply keptLines_blanked.
  - pose proof (Split_NL_nonempty rawOutput).
    by destruct (Strings.Split rawOutput NL).
  - apply oneLine_blanked, Split_NL_oneLine.
Qed.

Lemma Join_kept_trimmed (lines : list string) :
  Strings.TrimSpace (Strings.Join (keptLines lines) NL)
  = Strings.Join (keptLines lines) NL.
Proof.
  destruct (keptLines lines) as [|k ks] eqn:E; [done|].
  rewrite <- E. apply TrimSpace_Join; [by rewrite E|apply keptLines_cleanLine].
Qed.

Lemma filteredOutput_joined (rawOutput : string) :
  filteredOutput rawOutput
  = Strings.Join (keptLines (Strings.Split rawOutput NL)) NL.
Proof.
  unfold filteredOutput. by rewrite keptLines_raw, Join_kept_trimmed.
Qed.

(** [cleanTerragruntOutput], by the lines kept of the raw output. *)
Lemma cleanTerragruntOutput_kept (rawOutput : string) :
  cleanTerragruntOutput rawOutput =
  let f := Strings.Join (keptLines (Strings.Split rawOutput NL)) NL in
  if length (keptLines (Strings.Split rawOutput NL)) =? 0 then ("", None)
  else if Strings.HasPrefix f "{" || Strings.HasPrefix f "[" then (f, None)
  else if Strings.HasPrefix f QUOTE && Strings.HasSuffix f QUOTE
       then (Strings.Trim f QUOTE, None)
       else (f, None).
Proof.
  by rewrite cleanTerragruntOutput_unfold, keptLines_raw, filteredOutput_joined.
Qed.

Lemma keptLines_filtered (rawOutput : string) :
  keptLines (Strings.Split (filteredOutput rawOutput) NL)
  = keptLines (Strings.Split rawOutput NL).
Proof.
  rewrite filteredOutput_joined.
  destruct (keptLines (Strings.Split rawOutput NL)) as [|k ks] eqn:E; [done|].
  rewrite <- E, Split_Join_NL.
  - apply keptLines_idempotent.
  - by rewrite E.
  - apply keptLines_oneLine, Split_NL_oneLine.
Qed.

(** Cleaning the filtered output is cleaning the raw output. *)
Lemma cleanTerragruntOutput_filtered (rawOutput : string) :
  cleanTerragruntOutput (filteredOutput rawOutput)
  = cleanTerragruntOutput rawOutput.
Proof. by rewrite !cleanTerragruntOutput_kept, keptLines_filtered. Qed.

Lemma cleanTerragruntOutput_unquoted (rawOutput : string) :
  Strings.HasPrefix (filteredOutput rawOutput) QUOTE
  && Strings.HasSuffix (filteredOutput rawOutput) QUOTE = false ->
  cleanTerragruntOutput rawOutput = (filteredOutput rawOutput, None).
Proof.
  intros Hq. rewrite cleanTerragruntOutput_unfold.
  destruct (length _ =? 0) eqn:Hlen.
  - apply Nat.eqb_eq, length_zero_iff_nil in Hlen.
    by rewrite (filteredOutput_no_lines _ Hlen).
  - cbv zeta. rewrite Hq. by destruct (_ || _).
Qed.

(** ** Quotes *)

Lemma trimLeftBytes_suffix (cutset s : string) :
  exists a, s = a +:+ Strings.trimLeftBytes cutset s.
Proof.
  induction s as [|c s [a IH]]; [by exists ""|]. cbn [Strings.trimLeftBytes].
  destruct (Strings.inCutset cutset c); [|by exists ""].
  exists (String c a). by rewrite sapp_cons, <- IH.
Qed.

Lemma Trim_part (s cutset : string) :
  exists a b, s = a +:+ Strings.Trim s cutset +:+ b.
Proof.
  unfold Strings.Trim.
  destruct (trimLeftBytes_suffix cutset s) as [a Ha].
  destruct (trimLeftBytes_suffix cutset
              (String.rev (Strings.trimLeftBytes cutset s))) as [b Hb].
  exists a, (String.rev b).
  rewrite <- srev_app_distr, <- Hb, srev_involutive. done.
Qed.

Lemma trimLeftBytes_head (s : string) :
  Strings.HasPrefix (Strings.trimLeftBytes QUOTE s) QUOTE = false.
Proof.
  induction s as [|c s IH]; [done|]. cbn [Strings.trimLeftBytes].
  destruct (Strings.inCutset QUOTE c) eqn:E; [done|].
  destruct (Strings.HasPrefix (String c s) QUOTE) eqn:H; [|done].
  apply HasPrefix_spec in H as [t Ht]. rewrite QUOTE_app in Ht.
  injection Ht as -> _.
  assert (Strings.inCutset QUOTE DQUOTE = true) by (by apply inCutset_QUOTE).
  congruence.
Qed.

Lemma rev_not_quoted (b : string) :
  Strings.HasPrefix b QUOTE = false ->
  Strings.HasSuffix (String.rev b) QUOTE = false.
Proof.
  intros Hb. destruct (Strings.HasSuffix (String.rev b) QUOTE) eqn:E; [|done].
  apply HasSuffix_spec in E as [x E].
  apply (f_equal String.rev) in E. rewrite srev_involutive, srev_app_distr in E.
  assert (Strings.HasPrefix b QUOTE = true) as H; [|congruence].
  apply HasPrefix_spec. exists (String.rev x). by rewrite E.
Qed.

Lemma Trim_no_quote_end (s : string) :
  Strings.HasSuffix (Strings.Trim s QUOTE) QUOTE = false.
Proof. unfold Strings.Trim. apply rev_not_quoted, trimLeftBytes_head. Qed.

(** ** Properties of the cleaning *)

(** X1.  The lines that [cleanTerragruntOutput] and [cleanTerragruntJson]
    keep are the lines of the raw output, trimmed, that are not blank and
    do not contain [ msg=], in their order: removing the matches of the
    log pattern first has no influence on them. *)
Theorem X1_kept_lines_of_raw_output (rawOutput : string) :
  keptLines (Strings.Split (Regexp.ReplaceAllString tgLogLevel rawOutput "") NL)
  = map Strings.TrimSpace
      (filter (fun l => keeps l = true) (Strings.Split rawOutput NL)).
Proof. by rewrite keptLines_raw, keptLines_filter. Qed.

(** X2.  [tgLogLevel.ReplaceAllString(rawOutput, "")] works on whole
    lines: a line of the raw output in which the log pattern matches is
    matched from its first to its last byte and leaves an empty line,
    every other line is left as it is, and no line is added or removed. *)
Theorem X2_log_pattern_empties_whole_lines (rawOutput : string) :
  Regexp.ReplaceAllString tgLogLevel rawOutput ""
  = Strings.Join (map blanked (Strings.Split rawOutput NL)) NL
  /\ Forall (fun l => Regexp.MatchString tgLogLevel l = true ->
                      Regexp.matchAt tgLogLevel l = Some (String.length l))
            (Strings.Split rawOutput NL).
Proof.
  split; [apply ReplaceAllString_lines|].
  eapply Forall_impl; [apply Split_NL_oneLine|]. intros l Hl Hm.
  by apply whole_line.
Qed.

(** X4.  Cleaning is idempotent up to the quotes: when the filtered
    output is not wrapped in double quotes, so that no quote is stripped,
    cleaning what [cleanTerragruntOutput] returned returns it again. *)
Theorem X4_cleaning_again (rawOutput : string) :
  Strings.HasPrefix (filteredOutput rawOutput) QUOTE
  && Strings.HasSuffix (filteredOutput rawOutput) QUOTE = false ->
  cleanTerragruntOutput (cleanTerragruntOutput rawOutput).1
  = cleanTerragruntOutput rawOutput.
Proof.
  intros Hq. rewrite (cleanTerragruntOutput_unquoted _ Hq) at 1.
  apply cleanTerragruntOutput_filtered.
Qed.

(** X5.  What [cleanTerragruntOutput] returns is never wrapped in double
    quotes: it does not both begin and end with one. *)
Theorem X5_never_wrapped_in_quotes (rawOutput : string) :
  Strings.HasPrefix (cleanTerragruntOutput rawOutput).1 QUOTE
  && Strings.HasSuffix (cleanTerragruntOutput rawOutput).1 QUOTE = false.
Proof.
  rewrite cleanTerragruntOutput_unfold.
  destruct (length _ =? 0); [done|]. cbv zeta.
  destruct (Strings.HasPrefix (filteredOutput rawOutput) "{"
            || Strings.HasPrefix (filteredOutput rawOutput) "[") eqn:Hj.
  - cbn [fst]. apply andb_false_iff. left.
    destruct (Strings.HasPrefix (filteredOutput rawOutput) QUOTE) eqn:Hq; [|done].
    apply HasPrefix_spec in Hq as [t Ht]. rewrite Ht, QUOTE_app in Hj.
    by vm_compute in Hj.
  - destruct (Strings.HasPrefix (filteredOutput rawOutput) QUOTE
              && Strings.HasSuffix (filteredOutput rawOutput) QUOTE) eqn:Hq;
      [|done].
    cbn [fst]. by rewrite Trim_no_quote_end, andb_false_r.
Qed.

Lemma no_msg_in_kept (lines : list string) :
  Strings.Contains (Strings.Join (keptLines lines) NL) " msg=" = false.
Proof.
  destruct (Strings.Contains _ _) eqn:E; [|done]. exfalso.
  destruct (keptLines lines) as [|k ks] eqn:Hk; [done|]. rewrite <- Hk in E.
  apply Contains_Join in E as (l & Hin & Hl); [|done|by rewrite Hk].
  pose proof (keptLines_cleanLine lines) as Hall.
  apply (proj1 (Forall_forall _ _) Hall) in Hin as (_ & _ & Hmsg). congruence.
Qed.

(** X6.  What [cleanTerragruntOutput] returns never contains [ msg=],
    and the log pattern matches nowhere in it: a value that holds
    [ msg=] cannot be returned. *)
Theorem X6_no_msg_in_result (rawOutput : string) :
  Strings.Contains (cleanTerragruntOutput rawOutput).1 " msg=" = false
  /\ Regexp.MatchString tgLogLevel (cleanTerragruntOutput rawOutput).1 = false.
Proof.
  assert (Strings.Contains (cleanTerragruntOutput rawOutput).1 " msg=" = false)
    as H; [|split; [done|by apply tgLogLevel_needs_msg]].
  rewrite cleanTerragruntOutput_kept. cbv zeta.
  pose proof (no_msg_in_kept (Strings.Split rawOutput NL)) as Hf.
  repeat match goal with |- context [if ?b then _ else _] => destruct b end;
    cbn [fst]; try done.
  eapply Contains_part; [apply Hf|apply Trim_part].
Qed.

Lemma keptLines_Join (ls : list string) :
  Forall oneLine ls ->
  keptLines (Strings.Split (Strings.Join ls NL) NL) = keptLines ls.
Proof.
  intros H. destruct ls as [|l ls]; [done|]. by rewrite Split_Join_NL.
Qed.

Lemma keeps_false (l : string) :
  Strings.TrimSpace l = "" \/ Strings.Contains l " msg=" = true ->
  keeps l = false.
Proof.
  unfold keeps. intros [->| ->]; [done|]. by rewrite andb_false_r.
Qed.

(** X8.  The log pattern matches only in a text that holds all five
    fields [time=], [ level=], [ prefix=], [ binary=] and [ msg=]. *)
Theorem X8_log_pattern_fields (s : string) :
  Regexp.MatchString tgLogLevel s = true ->
  Strings.Contains s "time=" = true
  /\ Strings.Contains s " level=" = true
  /\ Strings.Contains s " prefix=" = true
  /\ Strings.Contains s " binary=" = true
  /\ Strings.Contains s " msg=" = true.
Proof.
  intros H. repeat split; (apply match_contains; [by vm_compute|done]).
Qed.

(** X17.  [cleanTerragruntOutput], in full: the lines of the raw output
    that are not blank and hold no [ msg=] are trimmed and joined with
    newlines; this text is returned as it is when it begins with a brace
    or a bracket, without the double quotes at its ends when it begins
    and ends with one, and as it is otherwise; the error is always
    [nil].  A JSON value printed over several lines comes back without
    its indentation. *)
Theorem X17_cleanTerragruntOutput_in_full (rawOutput : string) :
  let text :=
    Strings.Join
      (map Strings.TrimSpace
         (filter (fun l => keeps l = true) (Strings.Split rawOutput NL)))
      NL in
  cleanTerragruntOutput rawOutput
  = (if Strings.HasPrefix text "{" || Strings.HasPrefix text "[" then text
     else if Strings.HasPrefix text QUOTE && Strings.HasSuffix text QUOTE
          then Strings.Trim text QUOTE
          else text,
     None).
Proof.
  rewrite cleanTerragruntOutput_kept, keptLines_filter. cbv zeta.
  destruct (map Strings.TrimSpace _) as [|k ks]; [done|].
  cbn [length Nat.eqb].
  by repeat match goal with |- context [if ?b then _ else _] => destruct b end.
Qed.

(** X18.  When no quote is stripped, the filtered output not being
    wrapped in double quotes, what [cleanTerragruntOutput] returns is
    empty or made of lines none of which is blank, begins or ends with
    white space, or holds [ msg=]. *)
Theorem X18_result_lines_are_clean (rawOutput : string) :
  Strings.HasPrefix (filteredOutput rawOutput) QUOTE
  && Strings.HasSuffix (filteredOutput rawOutput) QUOTE = false ->
  (cleanTerragruntOutput rawOutput).1 = ""
  \/ Forall cleanLine (Strings.Split (cleanTerragruntOutput rawOutput).1 NL).
Proof.
  intros Hq. rewrite (cleanTerragruntOutput_unquoted _ Hq). cbn [fst].
  rewrite filteredOutput_joined.
  destruct (keptLines (Strings.Split rawOutput NL)) as [|k ks] eqn:E; [by left|].
  right. rewrite <- E, Split_Join_NL.
  - apply keptLines_cleanLine.
  - by rewrite E.
  - apply keptLines_oneLine, Split_NL_oneLine.
Qed.

Section CleaningJson.

Context {JSONValue : Type}.
Context (Unmarshal : string -> JSONValue + error).
Context (MarshalIndent : JSONValue -> string -> string -> string + error).

(** X3.  The joined text is already trimmed: [strings.TrimSpace] of
    [cleanTerragruntOutput] changes nothing in it.  So the text that
    [cleanTerragruntOutput] tests for JSON and for quotes is the text
    that [cleanTerragruntJson] hands to the JSON parser. *)
Theorem X3_joined_text_is_trimmed (rawOutput : string) :
  filteredOutput rawOutput
  = Strings.Join
      (keptLines
         (Strings.Split (Regexp.ReplaceAllString tgLogLevel rawOutput "") NL))
      NL
  /\ cleanTerragruntJson Unmarshal MarshalIndent rawOutput
     = match Unmarshal (filteredOutput rawOutput) with
       | inr err => ("", Some err)
       | inl jsonObj =>
           match MarshalIndent jsonObj "" "  " with
           | inr err => ("", Some err)
           | inl normalized => (normalized, None)
           end
       end.
Proof.
  assert (filteredOutput rawOutput
          = Strings.Join
              (keptLines
                 (Strings.Split
                    (Regexp.ReplaceAllString tgLogLevel rawOutput "") NL)) NL)
    as H by (unfold filteredOutput; apply Join_kept_trimmed).
  split; [done|]. unfold cleanTerragruntJson. by rewrite <- H.
Qed.

(** X7.  A line that is blank or contains [ msg=] - every structured
    log line is one - can stand anywhere in the raw output, or be left
    out, without any change to what [cleanTerragruntOutput] and
    [cleanTerragruntJson] return. *)
Theorem X7_dropped_lines_do_not_matter (before after : list string)
    (l : string) :
  Forall oneLine (before ++ l :: after) ->
  Strings.TrimSpace l = "" \/ Strings.Contains l " msg=" = true ->
  cleanTerragruntOutput (Strings.Join (before ++ l :: after) NL)
  = cleanTerragruntOutput (Strings.Join (before ++ after) NL)
  /\ cleanTerragruntJson Unmarshal MarshalIndent
       (Strings.Join (before ++ l :: after) NL)
     = cleanTerragruntJson Unmarshal MarshalIndent
         (Strings.Join (before ++ after) NL).
Proof.
  intros Hall Hl.
  assert (Forall oneLine (before ++ after)) as Hall'.
  { apply Forall_app in Hall as [Hb [_ Ha]%Forall_cons]. by apply Forall_app. }
  assert (keptLines (Strings.Split (Strings.Join (before ++ l :: after) NL) NL)
          = keptLines (Strings.Split (Strings.Join (before ++ after) NL) NL))
    as Hk.
  { rewrite !keptLines_Join by done.
    by rewrite !keptLines_app, keptLines_cons, (keeps_false l Hl). }
  split.
  - by rewrite !cleanTerragruntOutput_kept, Hk.
  - unfold cleanTerragruntJson. by rewrite !keptLines_raw, Hk.
Qed.

(** X9.  When every line of the raw output is blank or contains
    [ msg=], as when the command printed nothing but structured log
    lines, [cleanTerragruntOutput] returns the empty string and no error,
    and [cleanTerragruntJson] hands the empty text to the JSON parser. *)
Theorem X9_no_payload (rawOutput : string) :
  Forall (fun l => Strings.TrimSpace l = "" \/ Strings.Contains l " msg=" = true)
         (Strings.Split rawOutput NL) ->
  cleanTerragruntOutput rawOutput = ("", None)
  /\ cleanTerragruntJson Unmarshal MarshalIndent rawOutput
     = match Unmarshal "" with
       | inr err => ("", Some err)
       | inl jsonObj =>
           match MarshalIndent jsonObj "" "  " with
           | inr err => ("", Some err)
           | inl normalized => (normalized, None)
           end
       end.
Proof.
  intros Hall.
  assert (keptLines (Strings.Split rawOutput NL) = []) as Hk.
  { rewrite keptLines_filter.
    induction (Strings.Split rawOutput NL) as [|l ls IH]; [done|].
    apply Forall_cons in Hall as [Hl Hall]. rewrite filter_cons.
    rewrite decide_False; [by apply IH|]. by rewrite (keeps_false l Hl). }
  split.
  - by rewrite cleanTerragruntOutput_kept, Hk.
  - unfold cleanTerragruntJson. by rewrite keptLines_raw, Hk.
Qed.

End CleaningJson.

(** ** Properties of the warning classifier *)

Lemma doExecute_contains (w : string) (re : Regexp.regex) (s : string)
    (pos : nat) (m : nat * nat) :
  beginsWith w re = true ->
  Regexp.doExecute re s pos = Some m -> Strings.Contains s w = true.
Proof.
  intros Hw. unfold Regexp.doExecute.
  destruct (Regexp.searchFrom _ _ _ _) as [[a0 n]|] eqn:E; [|done]. intros _.
  apply searchFrom_part in E as (pre & x & Hx & E).
  unfold Regexp.matchAt in E.
  destruct (Regexp.rmatch re x Some) as [rest|] eqn:Hr; [|done].
  apply rmatch_consumed in Hr as (m' & s' & -> & Hm & _).
  destruct (beginsWith_sound _ _ _ Hw Hm) as [b ->].
  apply Contains_spec. exists (keep pos s +:+ pre), (b +:+ s').
  rewrite <- (keep_skip pos s) at 1. rewrite Hx. by rewrite !sapp_assoc.
Qed.

Lemma FindAllString_none (re : Regexp.regex) (s : string) (n : Z) :
  (forall pos, Regexp.doExecute re s pos = None) ->
  Regexp.FindAllString re s n = [].
Proof.
  intros H. unfold Regexp.FindAllString.
  replace (String.length s + 2) with (S (String.length s + 1)) by lia.
  cbn [Regexp.allMatches]. rewrite H. by destruct (_ && _).
Qed.

Section WarningFacts.

Context (Compile : string -> Regexp.regex + error).

Lemma hasWarningOver_None (entries : list (string * string))
    (commandOutput : string) :
  hasWarningOver Compile entries commandOutput = None
  <-> Forall (quiet Compile commandOutput) entries.
Proof.
  split.
  - induction entries as [|[p m] rest IH]; [constructor|].
    cbn [hasWarningOver].
    destruct (Compile (warningRegex p)) as [re|err] eqn:Hre; [|done].
    destruct (Regexp.FindAllString re commandOutput (-1)) as [|x xs] eqn:Hm;
      [|done].
    cbn [length Nat.eqb]. intros H. constructor; [|by apply IH].
    by exists re.
  - intros H. rewrite <- (app_nil_r entries). by rewrite hasWarningOver_quiet.
Qed.

(** X10.  [hasWarning] returns no error exactly when every pattern of
    the mapping compiles and has no match in the output. *)
Theorem X10_no_warning_iff_all_quiet (entries : list (string * string))
    (commandOutput : string) :
  hasWarningOver Compile entries commandOutput = None
  <-> Forall (quiet Compile commandOutput) entries.
Proof. apply hasWarningOver_None. Qed.

(** X11.  Whether [hasWarning] returns an error does not depend on the
    order in which the [range] loop visits the mapping: two traversals
    of the same mapping, over the same output, both return an error or
    both return none (the error itself may differ). *)
Theorem X11_verdict_independent_of_order (m : gmap string string)
    (entries1 entries2 : list (string * string)) (commandOutput : string) :
  visits m entries1 -> visits m entries2 ->
  (hasWarningOver Compile entries1 commandOutput = None
   <-> hasWarningOver Compile entries2 commandOutput = None).
Proof.
  unfold visits. intros H1 H2. rewrite !hasWarningOver_None.
  by rewrite H1, H2.
Qed.

(** X12.  A warning is found only after a newline: when the compiled
    patterns begin with the literal text of a newline and [Warning: ],
    as the format string of [hasWarning] has it, an output in which
    [Warning: ] nowhere follows a newline gives no error; a warning on
    the first line of the output is not detected. *)
Theorem X12_warning_needs_newline_before (entries : list (string * string))
    (commandOutput : string) :
  Forall (fun entry =>
            exists re, Compile (warningRegex entry.1) = inl re
                       /\ beginsWith (NL +:+ "Warning: ") re = true)
         entries ->
  Strings.Contains commandOutput (NL +:+ "Warning: ") = false ->
  hasWarningOver Compile entries commandOutput = None.
Proof.
  intros Hall Hout. apply hasWarningOver_None.
  eapply Forall_impl; [apply Hall|]. intros [p m] (re & Hre & Hb).
  exists re. split; [done|]. apply FindAllString_none. intros pos.
  destruct (Regexp.doExecute re commandOutput pos) as [bounds|] eqn:E; [|done].
  apply (doExecute_contains _ _ _ _ _ Hb) in E. congruence.
Qed.

(** X21.  A larger mapping is stricter: when [hasWarning] returns no
    error for a mapping, it returns none for any mapping with fewer
    entries, over the same output and whatever the orders of the two
    traversals. *)
Theorem X21_fewer_patterns_pass_more (m1 m2 : gmap string string)
    (entries1 entries2 : list (string * string)) (commandOutput : string) :
  m1 ⊆ m2 -> visits m1 entries1 -> visits m2 entries2 ->
  hasWarningOver Compile entries2 commandOutput = None ->
  hasWarningOver Compile entries1 commandOutput = None.
Proof.
  unfold visits. intros Hsub H1 H2. rewrite !hasWarningOver_None, H1, H2.
  intros Hall. apply Forall_forall. intros [p msg] Hin.
  apply (proj1 (Forall_forall _ _) Hall).
  apply elem_of_map_to_list. apply elem_of_map_to_list in Hin.
  by eapply lookup_weaken.
Qed.

End WarningFacts.

(** ** Properties of the wrapper *)

Section WrapperProperties.

Context {World : Type}.
Context (process : Shell.Command -> World -> (string * option error) * World).
Context (rangeOrder : gmap string string -> World -> list (string * string) * World).
Context (GetCommonOptions : Options -> list string -> Options * Options * list string).
Context (Compile : string -> Regexp.regex + error).
Context {JSONValue : Type}.
Context (Unmarshal : string -> JSONValue + error).
Context (MarshalIndent : JSONValue -> string -> string -> string + error).

(** X13.  One attempt of the retried action, in
    [runTerragruntStackSubCommandE] and in
    [runTerragruntStackOutputCommand]: it starts the command once and
    nothing else, and returns the output of the process whatever the
    error; when the process fails, its error is returned as it is and
    the warning mapping is not visited. *)
Theorem X13_attempt_runs_one_process (opts : Options) (c : Shell.Command)
    (st : State World) :
  let '((processOutput, processErr), w) := process c (world st) in
  let '((output, err), st') :=
    runAndCheck process rangeOrder Compile opts c st in
  output = processOutput
  /\ trace st' = trace st ++ [Exec c]
  /\ (forall e, processErr = Some e -> err = Some e /\ world st' = w).
Proof.
  unfold runAndCheck, bind, RunCommandAndGetOutputE.
  destruct (process c (world st)) as [[processOutput [e|]] w].
  - repeat split; try done; by intros e' [= <-].
  - unfold hasWarning, bind, range, ret. cbn [world trace].
    destruct (rangeOrder (WarningsAsErrors opts) w) as [entries w'].
    by destruct (hasWarningOver Compile entries processOutput).
Qed.

(** X14.  [TgOutputE] and [TgOutputJsonE] never return text together
    with an error: when the error is not [nil] the string is empty. *)
Theorem X14_error_means_empty_string (json : bool) (options : Options)
    (key : string) (st : State World) :
  let result :=
    (if json
     then TgOutputJsonE process rangeOrder GetCommonOptions Compile
            Unmarshal MarshalIndent options key st
     else TgOutputE process rangeOrder GetCommonOptions Compile options key st).1
  in
  result.2 = None \/ result.1 = "".
Proof.
  destruct json; unfold TgOutputJsonE, TgOutputE, bind;
    destruct (runTerragruntStackOutputCommand _ _ _ _ _ _ _)
      as [[rawOutput [e|]] st']; cbn; auto.
  - unfold cleanTerragruntJson.
    destruct (Unmarshal _) as [v|e]; [|cbn; auto].
    destruct (MarshalIndent _ _ _); cbn; auto.
  - destruct (cleanTerragruntOutput rawOutput) as [cleaned [e|]]; cbn; auto.
Qed.

Lemma cleanTerragruntOutput_no_error (rawOutput : string) :
  (cleanTerragruntOutput rawOutput).2 = None.
Proof.
  rewrite cleanTerragruntOutput_unfold. cbv zeta.
  by repeat match goal with |- context [if ?b then _ else _] => destruct b end.
Qed.

(** X15.  [TgOutputE] fails exactly when the stack output command
    fails, with the error of the command: cleaning the output never adds
    an error, [cleanTerragruntOutput] returns none.  When the command
    succeeds the string is the one [cleanTerragruntOutput] returns for
    its output. *)
Theorem X15_TgOutputE_fails_with_command (options : Options) (key : string)
    (st : State World) :
  let '((rawOutput, commandErr), st1) :=
    runTerragruntStackOutputCommand process rangeOrder GetCommonOptions
      Compile options (tgOutputArgs false options key) st in
  let '((value, err), st2) :=
    TgOutputE process rangeOrder GetCommonOptions Compile options key st in
  err = commandErr /\ st2 = st1
  /\ (forall raw, (cleanTerragruntOutput raw).2 = None)
  /\ (commandErr = None -> value = (cleanTerragruntOutput rawOutput).1).
Proof.
  unfold TgOutputE, bind.
  destruct (runTerragruntStackOutputCommand _ _ _ _ _ _ _)
    as [[rawOutput [e|]] st1].
  - cbn. repeat split; [apply cleanTerragruntOutput_no_error|done].
  - pose proof (cleanTerragruntOutput_no_error rawOutput) as Hn.
    destruct (cleanTerragruntOutput rawOutput) as [cleaned err]. cbn in Hn.
    subst err. cbn. repeat split. apply cleanTerragruntOutput_no_error.
Qed.

(** X19.  The output path validates first: when [validateOptions]
    rejects the options, [TgOutputE] and [TgOutputJsonE] return the
    empty string with that error and nothing has happened, no process
    was started and the warning mapping was not visited. *)
Theorem X19_output_path_validates_first (json : bool) (options : Options)
    (key : string) (st : State World) (e : error) :
  validateOptions options = Some e ->
  (if json
   then TgOutputJsonE process rangeOrder GetCommonOptions Compile
          Unmarshal MarshalIndent options key st
   else TgOutputE process rangeOrder GetCommonOptions Compile options key st)
  = (("", Some e), st).
Proof.
  intros He.
  destruct json;
    unfold TgOutputJsonE, TgOutputE, bind, runTerragruntStackOutputCommand;
    by rewrite He.
Qed.

(** X20.  With an empty warning mapping no output turns a success into
    a failure: one attempt of the retried action returns the output and
    the error of the process, as they are. *)
Theorem X20_no_mapping_no_warning (opts : Options) (c : Shell.Command)
    (st : State World) :
  (forall m w, visits m (rangeOrder m w).1) ->
  WarningsAsErrors opts = ∅ ->
  (runAndCheck process rangeOrder Compile opts c st).1
  = (process c (world st)).1.
Proof.
  intros Hvisits Hempty.
  unfold runAndCheck, bind, RunCommandAndGetOutputE.
  destruct (process c (world st)) as [[processOutput [e|]] w]; [done|].
  unfold hasWarning, bind, range, ret. cbn [world trace]. rewrite Hempty.
  pose proof (Hvisits ∅ w) as Hv. unfold visits in Hv.
  destruct (rangeOrder ∅ w) as [entries w']. cbn [fst] in Hv.
  rewrite map_to_list_empty in Hv. apply Permutation_nil_r in Hv as ->.
  done.
Qed.

End WrapperProperties.

Section FatalProperties.

Context {World : Type}.
Context (process : Shell.Command -> World -> (string * option error) * World).
Context (rangeOrder : gmap string string -> World -> list (string * string) * World).
Context (GetCommonOptions : Options -> list string -> Options * Options * list string).
Context (Compile : string -> Regexp.regex + error).
Context {JSONValue : Type}.
Context (Unmarshal : string -> JSONValue + error).
Context (MarshalIndent : JSONValue -> string -> string -> string + error).

(** X16.  [TgOutput] stops the test exactly when the stack output
    command fails, with the error of the command, and returns the
    cleaned output otherwise, whatever the command printed.
    [TgOutputJson] stops the test also when the command succeeded and
    the filtered output is not read by the JSON parser, or the value
    read cannot be serialised. *)
Theorem X16_fatal_variants (options : Options) (key : string)
    (st : State World) :
  (let '((rawOutput, commandErr), st1) :=
     runTerragruntStackOutputCommand process rangeOrder GetCommonOptions
       Compile options (tgOutputArgs false options key) st in
   TgOutput process rangeOrder GetCommonOptions Compile options key st
   = (match commandErr with
      | Some e => Fatal e
      | None => Returned (cleanTerragruntOutput rawOutput).1
      end, st1))
  /\ (let '((rawOutput, commandErr), st1) :=
        runTerragruntStackOutputCommand process rangeOrder GetCommonOptions
          Compile options (tgOutputArgs true options key) st in
      TgOutputJson process rangeOrder GetCommonOptions Compile
        Unmarshal MarshalIndent options key st
      = (match commandErr with
         | Some e => Fatal e
         | None =>
             match Unmarshal (filteredOutput rawOutput) with
             | inr e => Fatal e
             | inl jsonObj =>
                 match MarshalIndent jsonObj "" "  " with
                 | inr e => Fatal e
                 | inl normalized => Returned normalized
                 end
             end
         end, st1)).
Proof.
  split.
  - unfold TgOutput, TgOutputE, bind.
    destruct (runTerragruntStackOutputCommand _ _ _ _ _ _ _)
      as [[rawOutput [e|]] st1]; [done|].
    pose proof (cleanTerragruntOutput_no_error rawOutput) as Hn.
    destruct (cleanTerragruntOutput rawOutput) as [cleaned err].
    cbn in Hn. by subst err.
  - unfold TgOutputJson, TgOutputJsonE, bind.
    destruct (runTerragruntStackOutputCommand _ _ _ _ _ _ _)
      as [[rawOutput [e|]] st1]; [done|].
    unfold ret, cleanTerragruntJson.
    rewrite keptLines_raw, <- filteredOutput_joined.
    destruct (Unmarshal _) as [v|e]; [|done].
    by destruct (MarshalIndent _ _ _).
Qed.

End FatalProperties.

(** * Evaluations on concrete inputs *)

(** ** Stack commands *)

(** [run] with one additional argument, on a world whose probe succeeds,
    and [generate], passed as an additional argument of the empty
    subcommand, on a world whose probe fails. *)
Example stack_run_plan :
  trace (runTerragruntStackSubCommandE scripted listedOrder plainOptions
           Regexp.Parse sampleOptions "run" ["plan"]
           (start [("", None); ("done", None)])).2
  = [Exec (experimentalTestCmd sampleOptions);
     Exec (generateCommand sampleOptions
             ["-experiment"; "stack"; "stack"; "run"; "--"; "plan"])]
  /\ trace (terragruntStackCommandE scripted listedOrder plainOptions
              Regexp.Parse sampleOptions ["generate"]
              (start [("", Some "exit status 1"); ("done", None)])).2
     = [Exec (experimentalTestCmd sampleOptions);
        Exec (generateCommand sampleOptions ["stack"; "generate"])].
Proof. split; vm_compute; reflexivity. Qed.

(** C7 at the failing input: with empty options the run path starts the
    probe, with the empty binary path, and then the command itself. *)
Example run_path_with_empty_options :
  let empty :=
    {| TerragruntBinary := ""; TerragruntDir := ""; EnvVars := ∅;
       ExtraArgs := []; RetryableTerraformErrors := ∅; MaxRetries := 0;
       TimeBetweenRetries := 0; WarningsAsErrors := ∅ |} in
  validateOptions empty <> None
  /\ trace (runTerragruntStackSubCommandE scripted listedOrder plainOptions
              Regexp.Parse empty "run" ["plan"] (start [])).2
     = [Exec {| Shell.Cmd := ""; Shell.Args := ["-experiment"; "stack"];
                Shell.WorkingDir := ""; Shell.Env := ∅ |};
        Exec {| Shell.Cmd := ""; Shell.Args := ["stack"; "run"; "--"; "plan"];
                Shell.WorkingDir := ""; Shell.Env := ∅ |}].
Proof. split; [done|]. vm_compute. reflexivity. Qed.

(** ** Quote stripping *)



(** The log pattern lies within the syntax [Regexp.Parse] reads. *)
Example tgLogLevel_compiles : Regexp.Parse tgLogLevelPattern = inl tgLogLevel.
Proof. vm_compute. reflexivity. Qed.

(** The spec's scenario: a log line, then a quoted scalar. *)
Example clean_bucket_name :
  cleanTerragruntOutput
    (logSample +:+ NL +:+ QUOTE +:+ "my-bucket-name" +:+ QUOTE)
  = ("my-bucket-name", None).
Proof. vm_compute. reflexivity. Qed.

(** ** Clean output *)

(** Cleaning is not idempotent: what is left of a quoted scalar with
    blanks inside its quotes loses them when cleaned again. *)
Example cleaning_twice :
  cleanTerragruntOutput (QUOTE +:+ " a " +:+ QUOTE) = (" a ", None)
  /\ cleanTerragruntOutput " a " = ("a", None).
Proof. split; vm_compute; reflexivity. Qed.

Lemma C9_witness :
  cleanTerragruntOutput ("vpc-12345" +:+ NL +:+ "subnet-1")
  = ("vpc-12345" +:+ NL +:+ "subnet-1", None).
Proof.
  apply (C9_clean_input_unchanged ("vpc-12345" +:+ NL +:+ "subnet-1"));
    try (vm_compute; reflexivity).
  repeat constructor; vm_compute; discriminate || reflexivity.
Defined.

(** C9 as stated fails: the input has no log line, no [ msg=], no blank
    line and no quotes around it, and yet loses its leading blank. *)
Lemma C9_counterexample :
  Regexp.MatchString tgLogLevel " a" = false
  /\ Strings.Contains " a" " msg=" = false
  /\ Forall (fun line => Strings.TrimSpace line <> "") (Strings.Split " a" NL)
  /\ Strings.HasPrefix " a" QUOTE && Strings.HasSuffix " a" QUOTE = false
  /\ cleanTerragruntOutput " a" = ("a", None)
  /\ cleanTerragruntOutput " a" <> (" a", None).
Proof.
  repeat split; try (vm_compute; reflexivity).
  - repeat constructor. vm_compute. discriminate.
  - vm_compute. discriminate.
Qed.

(** ** Warnings *)

(** The spec's warning example. *)
Lemma C3_witness :
  exists e,
    hasWarningOver Regexp.Parse [("Deprecat", "deprecated features used")]
      deprecationOutput = Some e
    /\ Strings.Contains e "deprecated features used" = true
    /\ Strings.Contains e (NL +:+ "Warning: Deprecated option X" +:+ NL) = true.
Proof.
  destruct (proj1 (C3_warning_message Regexp.Parse) [] []
              "Deprecat" "deprecated features used" deprecationOutput
              (Regexp.MustCompile (warningRegex "Deprecat")))
    as (e & He & _ & Hmsg & Hlines).
  - constructor.
  - vm_compute. reflexivity.
  - vm_compute. discriminate.
  - exists e. split; [exact He|]. split; [exact Hmsg|].
    apply Hlines. vm_compute. left.
Defined.

(** C3 as stated fails: no pattern of the mapping has a match, and yet
    [hasWarning] returns an error. *)
Lemma C3_counterexample :
  (forall re, Regexp.Parse (warningRegex malformed) <> inl re)
  /\ (hasWarning listedOrder Regexp.Parse
        {| TerragruntBinary := "terragrunt"; TerragruntDir := "/live";
           EnvVars := ∅; ExtraArgs := []; RetryableTerraformErrors := ∅;
           MaxRetries := 0; TimeBetweenRetries := 0;
           WarningsAsErrors := {[ malformed := "never configured well" ]} |}
        "all fine" (start [])).1
     = Some ("cannot compile regex for warning detection: "
             +:+ "error parsing regexp: missing closing ): `"
             +:+ warningRegex malformed +:+ "`").
Proof. split; [intros re; vm_compute; discriminate|]. vm_compute. reflexivity. Qed.

Lemma C4_witness :
  hasWarningOver Regexp.Parse
    [("Alpha", "first policy"); ("Beta", "second policy")] twoWarnings
  = hasWarningOver Regexp.Parse [("Alpha", "first policy")] twoWarnings.
Proof.
  refine (proj2 (C4_first_match_wins Regexp.Parse [] [("Beta", "second policy")]
                   [] "Alpha" "first policy" twoWarnings
                   (Regexp.MustCompile (warningRegex "Alpha")) _ _ _)).
  - constructor.
  - vm_compute. reflexivity.
  - vm_compute. discriminate.
Defined.

(** C4 as stated fails: the same mapping and the same output, visited in
    two of the orders a [range] loop may take, give two different
    errors. *)
Lemma C4_counterexample :
  visits twoPatterns [("Alpha", "first policy"); ("Beta", "second policy")]
  /\ visits twoPatterns [("Beta", "second policy"); ("Alpha", "first policy")]
  /\ hasWarningOver Regexp.Parse
       [("Alpha", "first policy"); ("Beta", "second policy")] twoWarnings
     = Some (warningMessage "first policy" [NL +:+ "Warning: Alpha" +:+ NL])
  /\ hasWarningOver Regexp.Parse
       [("Beta", "second policy"); ("Alpha", "first policy")] twoWarnings
     = Some (warningMessage "second policy" [NL +:+ "Warning: Beta" +:+ NL])
  /\ (hasWarning listedOrder Regexp.Parse twoPolicies twoWarnings (start [])).1
     <> (hasWarning reversedOrder Regexp.Parse twoPolicies twoWarnings
           (start [])).1.
Proof.
  assert (map_to_list twoPatterns
          = [("Alpha", "first policy"); ("Beta", "second policy")]) as Hl
    by (vm_compute; reflexivity).
  unfold visits. rewrite Hl.
  repeat split; try (vm_compute; reflexivity).
  - apply perm_swap.
  - vm_compute. discriminate.
Qed.

Lemma C5_witness :
  hasWarningOver Regexp.Parse
    [("Beta", "second policy"); (malformed, "never configured well");
     ("Deprecat", "deprecated features used")] deprecationOutput
  = Some ("cannot compile regex for warning detection: "
          +:+ "error parsing regexp: missing closing ): `"
          +:+ warningRegex malformed +:+ "`").
Proof.
  apply (C5_malformed_when_reached Regexp.Parse [("Beta", "second policy")]
           [("Deprecat", "deprecated features used")] malformed
           "never configured well" deprecationOutput).
  - repeat constructor. exists (Regexp.MustCompile (warningRegex "Beta")).
    split; vm_compute; reflexivity.
  - vm_compute. reflexivity.
Defined.

(** C5 as stated fails: the mapping holds a malformed pattern, and yet,
    visited after a pattern that matches, it is never compiled; the
    warning error is returned, not the compile error. *)
Lemma C5_counterexample :
  (forall re, Regexp.Parse (warningRegex malformed) <> inl re)
  /\ visits {[ "Deprecat" := "deprecated features used";
               malformed := "never configured well" ]}
       [("Deprecat", "deprecated features used");
        (malformed, "never configured well")]
  /\ hasWarningOver Regexp.Parse
       [("Deprecat", "deprecated features used");
        (malformed, "never configured well")] deprecationOutput
     = Some (warningMessage "deprecated features used"
               [NL +:+ "Warning: Deprecated option X" +:+ NL]).
Proof.
  split; [intros re; vm_compute; discriminate|]. split.
  - unfold visits.
    assert (map_to_list
              ({[ "Deprecat" := "deprecated features used";
                  malformed := "never configured well" ]} : gmap string string)
            = [("Deprecat", "deprecated features used");
               (malformed, "never configured well")]) as ->
      by (vm_compute; reflexivity).
    reflexivity.
  - vm_compute. reflexivity.
Qed.

(** ** Warning errors and retries *)

(** No retryable pattern matches the warning error: it is surfaced after
    the one execution. *)
Lemma C6_witness :
  DoWithRetryableErrorsE Regexp.Parse "terragrunt [stack output]"
    {[ "connection reset" := "worth another attempt" ]} 2 5
    (runAndCheck scripted listedOrder Regexp.Parse
       (deprecationOptions "connection reset") stackOutput)
    (start [(deprecationOutput, None); (deprecationOutput, None)])
  = ((deprecationOutput, Some deprecationError),
     {| world := [(deprecationOutput, None)]; trace := [Exec stackOutput] |}).
Proof.
  refine (proj1 (C6_warning_error_is_classified scripted listedOrder
                   Regexp.Parse "terragrunt [stack output]"
                   {[ "connection reset" := "worth another attempt" ]} 5
                   [Regexp.MustCompile "connection reset"]
                   (deprecationOptions "connection reset") stackOutput
                   (start [(deprecationOutput, None); (deprecationOutput, None)])
                   {| world := [(deprecationOutput, None)];
                      trace := [Exec stackOutput] |}
                   {| world := [(deprecationOutput, None)];
                      trace := [Exec stackOutput] |}
                   deprecationOutput deprecationError _ _ _) _ 2);
    vm_compute; reflexivity.
Defined.

(** C6 as stated fails: a retryable pattern matches the warning error,
    and the command, which succeeded each time, is executed three times,
    with two pauses, before the warning error is surfaced; on the output
    path and on the run path alike. *)
Lemma C6_counterexample :
  runTerragruntStackOutputCommand scripted listedOrder plainOptions Regexp.Parse
    (deprecationOptions "Deprecated option") []
    (start [(deprecationOutput, None); (deprecationOutput, None);
            (deprecationOutput, None); (deprecationOutput, None)])
  = ((deprecationOutput, Some deprecationError),
     {| world := [(deprecationOutput, None)];
        trace := [Exec stackOutput; Sleep 5; Exec stackOutput; Sleep 5;
                  Exec stackOutput] |})
  /\ trace (runTerragruntStackSubCommandE scripted listedOrder plainOptions
              Regexp.Parse (deprecationOptions "Deprecated option") "run" ["plan"]
              (start [("", Some "exit status 1"); (deprecationOutput, None);
                      (deprecationOutput, None); (deprecationOutput, None)])).2
     = [Exec (experimentalTestCmd sampleOptions);
        Exec (generateCommand sampleOptions ["stack"; "run"; "--"; "plan"]);
        Sleep 5;
        Exec (generateCommand sampleOptions ["stack"; "run"; "--"; "plan"]);
        Sleep 5;
        Exec (generateCommand sampleOptions ["stack"; "run"; "--"; "plan"])].
Proof. split; vm_compute; reflexivity. Qed.

(** ** Stack output *)


(** ** JSON output *)



(** ** Cleaning, on concrete inputs *)

Lemma X4_witness :
  cleanTerragruntOutput paddedOutput = ("my-bucket-name", None)
  /\ cleanTerragruntOutput (cleanTerragruntOutput paddedOutput).1
     = cleanTerragruntOutput paddedOutput.
Proof.
  split; [vm_compute; reflexivity|].
  apply (X4_cleaning_again paddedOutput). vm_compute. reflexivity.
Defined.

(** A structured log line after the payload, instead of before it. *)
Lemma X7_witness :
  cleanTerragruntOutput
    (Strings.Join ([payloadSample] ++ logSample :: [""]) NL)
  = cleanTerragruntOutput (Strings.Join ([payloadSample] ++ [""]) NL)
  /\ cleanTerragruntJson Json.Unmarshal Json.MarshalIndent
       (Strings.Join ([payloadSample] ++ logSample :: [""]) NL)
     = cleanTerragruntJson Json.Unmarshal Json.MarshalIndent
         (Strings.Join ([payloadSample] ++ [""]) NL).
Proof.
  apply (X7_dropped_lines_do_not_matter Json.Unmarshal Json.MarshalIndent
           [payloadSample] [""] logSample).
  - repeat constructor; vm_compute; reflexivity.
  - right. vm_compute. reflexivity.
Defined.

Lemma X8_witness :
  Strings.Contains logSample "time=" = true
  /\ Strings.Contains logSample " level=" = true
  /\ Strings.Contains logSample " prefix=" = true
  /\ Strings.Contains logSample " binary=" = true
  /\ Strings.Contains logSample " msg=" = true.
Proof. apply (X8_log_pattern_fields logSample). vm_compute. reflexivity. Defined.

Lemma X9_witness :
  cleanTerragruntOutput logOnly = ("", None)
  /\ cleanTerragruntJson Json.Unmarshal Json.MarshalIndent logOnly
     = ("", Some "unexpected end of JSON input").
Proof.
  refine (X9_no_payload Json.Unmarshal Json.MarshalIndent logOnly _).
  assert (Strings.Split logOnly NL = [logSample; ""]) as ->
    by (vm_compute; reflexivity).
  apply Forall_cons; split; [right; vm_compute; reflexivity|].
  apply Forall_cons; split; [left; vm_compute; reflexivity|constructor].
Defined.

(** The indentation and the blank line of a JSON text are not kept. *)
Lemma X18_witness :
  cleanTerragruntOutput indentedJson
  = ("{" +:+ NL +:+ QUOTE +:+ "a" +:+ QUOTE +:+ ": 1" +:+ NL +:+ "}", None)
  /\ Forall cleanLine (Strings.Split (cleanTerragruntOutput indentedJson).1 NL).
Proof.
  split; [vm_compute; reflexivity|].
  destruct (X18_result_lines_are_clean indentedJson) as [H|H].
  - vm_compute. reflexivity.
  - vm_compute in H. discriminate H.
  - exact H.
Defined.

(** ** Warnings, on concrete inputs *)

Lemma X11_witness :
  hasWarningOver Regexp.Parse
    [("Alpha", "first policy"); ("Beta", "second policy")] twoWarnings = None
  <-> hasWarningOver Regexp.Parse
        [("Beta", "second policy"); ("Alpha", "first policy")] twoWarnings = None.
Proof.
  apply (X11_verdict_independent_of_order Regexp.Parse twoPatterns);
    unfold visits;
    assert (map_to_list twoPatterns
            = [("Alpha", "first policy"); ("Beta", "second policy")]) as ->
      by (vm_compute; reflexivity).
  - reflexivity.
  - apply perm_swap.
Defined.

Lemma X12_witness :
  hasWarningOver Regexp.Parse [("Deprecat", "deprecated features used")]
    firstLineWarning = None.
Proof.
  apply X12_warning_needs_newline_before.
  - repeat constructor. exists (Regexp.MustCompile (warningRegex "Deprecat")).
    split; vm_compute; reflexivity.
  - vm_compute. reflexivity.
Defined.

Lemma X20_witness :
  (runAndCheck scripted listedOrder Regexp.Parse sampleOptions stackOutput
     (start [(deprecationOutput, None)])).1
  = (deprecationOutput, None).
Proof.
  apply (X20_no_mapping_no_warning scripted listedOrder Regexp.Parse
           sampleOptions stackOutput (start [(deprecationOutput, None)])).
  - intros m w. unfold visits. reflexivity.
  - reflexivity.
Defined.

Lemma X21_witness :
  hasWarningOver Regexp.Parse [("Beta", "second policy")] deprecationOutput
  = None.
Proof.
  apply (X21_fewer_patterns_pass_more Regexp.Parse
           {[ "Beta" := "second policy" ]} twoPatterns
           [("Beta", "second policy")]
           [("Alpha", "first policy"); ("Beta", "second policy")]
           deprecationOutput).
  - apply insert_subseteq. reflexivity.
  - unfold visits. by rewrite map_to_list_singleton.
  - unfold visits.
    assert (map_to_list twoPatterns
            = [("Alpha", "first policy"); ("Beta", "second policy")]) as ->
      by (vm_compute; reflexivity).
    reflexivity.
  - vm_compute. reflexivity.
Defined.

(** ** The output path, on concrete inputs *)

Lemma X19_witness :
  let empty :=
    {| TerragruntBinary := ""; TerragruntDir := ""; EnvVars := ∅;
       ExtraArgs := []; RetryableTerraformErrors := ∅; MaxRetries := 0;
       TimeBetweenRetries := 0; WarningsAsErrors := ∅ |} in
  TgOutputE scripted listedOrder plainOptions Regexp.Parse empty "vpc_id"
    (start [("vpc-12345", None)])
  = (("", Some "terragrunt binary path is required"),
     start [("vpc-12345", None)]).
Proof.
  intros empty.
  apply (X19_output_path_validates_first scripted listedOrder plainOptions
           Regexp.Parse Json.Unmarshal Json.MarshalIndent false empty).
  reflexivity.
Defined.
